(** * Call monitoring core: a shallow embedding of
      src/utils/retry.js and src/features/callMonitoring.js

    The JavaScript is translated statement by statement.

    - Numbers that the code computes with fractions (delays, jitter, talk
      time, durations) are exact rationals [Q]; the rounding of IEEE doubles
      is not modelled.  Counters and millisecond timestamps are [Z].
    - A thrown exception is the [Throw] completion of a state-passing
      computation: the state reached before the throw is kept, as mutations
      of JavaScript objects are.
    - Everything the code asks of its environment is explicit: the clock
      ([new Date()]), [Math.random()], the remote [vapi.calls.get], timers,
      the console and the listeners of the event emitter.
    - An [async] method runs to its end with no other task in between:
      what another task does while a method awaits (a call added in the
      middle of a sweep, say) is not modelled, and listeners do not call
      back into the monitor. *)

From Stdlib Require Import String Ascii List Bool ZArith QArith Lia Lqa.
Import ListNotations.

Local Open Scope string_scope.
Local Open Scope list_scope.
Local Open Scope Z_scope.

Set Implicit Arguments.

(* ------------------------------------------------------------------ *)
(** ** Errors and completions *)

(** A thrown value.  [responseStatus] is [error.response?.status]. *)
Record JsError : Type := mkError {
  message : string;
  responseStatus : option Z
}.

(** How a call of a function ends: [return a] or [throw e]. *)
Inductive completion (A : Type) : Type :=
| Return (a : A)
| Throw (e : JsError).

Arguments Return {A} a.
Arguments Throw {A} e.

(** Computations over a mutable state [St] that may throw. *)
Definition Comp (St A : Type) : Type := St -> completion A * St.

Definition ret {St A} (a : A) : Comp St A := fun s => (Return a, s).

Definition throw {St A} (e : JsError) : Comp St A := fun s => (Throw e, s).

Definition bind {St A B} (m : Comp St A) (k : A -> Comp St B) : Comp St B :=
  fun s =>
    match m s with
    | (Return a, s') => k a s'
    | (Throw e, s') => (Throw e, s')
    end.

(** [try { body } catch (error) { handler error }] *)
Definition tryCatch {St A} (body : Comp St A) (handler : JsError -> Comp St A)
  : Comp St A :=
  fun s =>
    match body s with
    | (Return a, s') => (Return a, s')
    | (Throw e, s') => handler e s'
    end.

Definition gets {St A} (f : St -> A) : Comp St A := fun s => (Return (f s), s).

Definition modify {St} (f : St -> St) : Comp St unit := fun s => (Return tt, f s).

Declare Scope comp_scope.
Delimit Scope comp_scope with comp.

Notation "x <- c ;; k" := (bind c (fun x => k))
  (at level 61, c at next level, right associativity) : comp_scope.
Notation "c ;;; k" := (bind c (fun _ => k))
  (at level 61, right associativity) : comp_scope.

(* ------------------------------------------------------------------ *)
(** ** src/utils/retry.js *)

(** What [retry] does, in order: a call of [fn] (with the error it threw,
    if it threw) or a suspension of [ms] milliseconds. *)
Inductive RetryStep : Type :=
| Attempt (failure : option JsError)
| Sleep (ms : Q).

(** The defaults of the options of [retry]. *)
Definition defaultMaxRetries : Z := 3.
Definition defaultInitialDelay : Q := 1000.
Definition defaultShouldRetry : JsError -> bool := fun _ => true.

(** [new Error('Retry failed')] *)
Definition retryFailed : JsError := mkError "Retry failed" None.

(** Never returned by [retry]: see [retry_loop_fuel]. *)
Definition fuelExhausted : JsError := mkError "fuel" None.

Section Retry.
Context {St A : Type}.

(** [fn] is the wrapped operation, acting on its own state [St]. *)
Variable fn : Comp St A.
Variable maxRetries : Z.
Variable initialDelay : Q.
Variable shouldRetry : JsError -> bool.

(** [random k] is the value of the [k]-th call of [Math.random()] made by
    this call of [retry]; the loop draws once per completed iteration, so
    the draw made when the counter is [retries] is the [retries]-th. *)
Variable random : nat -> Q.

(** [initialDelay * Math.pow(2, retries)] *)
Definition backoffDelay (retries : Z) : Q :=
  (initialDelay * inject_Z (2 ^ retries))%Q.

(** [Math.random() * 0.2 * delay] *)
Definition backoffJitter (retries : Z) : Q :=
  (random (Z.to_nat retries) * (2 # 10) * backoffDelay retries)%Q.

(** The [while (retries < maxRetries)] loop.  [fuel] bounds the number of
    iterations; [Z.to_nat maxRetries] is enough ([retry_loop_fuel]). *)
Fixpoint retry_loop (fuel : nat) (retries : Z) (lastError : option JsError)
    (s : St) : completion A * St * list RetryStep :=
  if retries <? maxRetries then
    match fuel with
    | O => (Throw fuelExhausted, s, [])
    | S fuel' =>
        match fn s with
        | (Return a, s1) => (Return a, s1, [Attempt None])
        | (Throw error, s1) =>
            if negb (shouldRetry error) || (retries =? maxRetries - 1) then
              (Throw error, s1, [Attempt (Some error)])
            else
              let delay := backoffDelay retries in
              let jitter := backoffJitter retries in
              let '(r, s2, steps) :=
                retry_loop fuel' (retries + 1) (Some error) s1 in
              (r, s2, Attempt (Some error) :: Sleep (delay + jitter)%Q :: steps)
        end
    end
  else
    (Throw (match lastError with Some e => e | None => retryFailed end), s, []).

Definition retry (s : St) : completion A * St * list RetryStep :=
  retry_loop (Z.to_nat maxRetries) 0 None s.

End Retry.

(** Calls of the wrapped operation and suspensions in a trace. *)
Fixpoint attempts (steps : list RetryStep) : nat :=
  match steps with
  | [] => O
  | Attempt _ :: rest => S (attempts rest)
  | Sleep _ :: rest => attempts rest
  end.

Fixpoint sleeps (steps : list RetryStep) : list Q :=
  match steps with
  | [] => []
  | Attempt _ :: rest => sleeps rest
  | Sleep ms :: rest => ms :: sleeps rest
  end.

(* ------------------------------------------------------------------ *)
(** ** Strings the code inspects character by character *)

(** A transcription text, as its UTF-16 code units. *)
Definition Text : Type := list N.

Definition textOfString (s : string) : Text :=
  map N_of_ascii (list_ascii_of_string s).

(** The class [\s] of JavaScript regular expressions. *)
Definition isWhiteSpace (c : N) : bool :=
  (((9 <=? c) && (c <=? 13)) || (c =? 32) || (c =? 160) || (c =? 5760)
   || ((8192 <=? c) && (c <=? 8202)) || (c =? 8232) || (c =? 8233)
   || (c =? 8239) || (c =? 8287) || (c =? 12288) || (c =? 65279))%N.

(** [text.split(/\s+/)]: the pieces between maximal runs of white space.
    [piece] is the piece being read, [inRun] tells that the previous code
    unit was white space. *)
Fixpoint splitWhiteSpaceFrom (t : Text) (piece : Text) (inRun : bool)
  : list Text :=
  match t with
  | [] => [piece]
  | c :: t' =>
      if isWhiteSpace c then
        if inRun then splitWhiteSpaceFrom t' [] true
        else piece :: splitWhiteSpaceFrom t' [] true
      else splitWhiteSpaceFrom t' (piece ++ [c]) false
  end.

Definition splitWhiteSpace (t : Text) : list Text :=
  splitWhiteSpaceFrom t [] false.

(** [text.endsWith('?')] *)
Definition endsWithQuestionMark (t : Text) : bool :=
  match rev t with
  | c :: _ => (c =? 63)%N
  | [] => false
  end.

(* ------------------------------------------------------------------ *)
(** ** Data of src/features/callMonitoring.js *)

Definition Metadata : Type := list (string * string).

(** The fields of [event.data] that the monitor reads. *)
Module EventData.
Record t : Type := mk {
  text : option Text;
  speaker : option string;
  score : option Q
}.
(** [{}] *)
Definition empty : t := mk None None None.
End EventData.

(** An event as delivered; [data = None] is a missing [data]. *)
Module Event.
Record t : Type := mk {
  id : string;
  type : string;
  timestamp : Z;
  data : option EventData.t
}.
End Event.

(** An entry of [callData.events]. *)
Module StoredEvent.
Record t : Type := mk {
  id : string;
  type : string;
  timestamp : Z;
  data : EventData.t
}.
End StoredEvent.

Module Analytics.
Record t : Type := mk {
  talkTime : Q;
  silenceDuration : Q;
  interruptions : Z;
  sentimentScores : list (option Q * Z)
}.
End Analytics.

Module CallData.
Record t : Type := mk {
  id : string;
  metadata : Metadata;
  status : string;
  events : list StoredEvent.t;
  createdAt : Z;
  lastUpdated : Z;
  answeredAt : option Z;
  endedAt : option Z;
  duration : option Q;
  transcription : option Text;
  analytics : Analytics.t
}.

Definition setStatus (v : string) (c : t) : t :=
  mk (id c) (metadata c) v (events c) (createdAt c) (lastUpdated c)
     (answeredAt c) (endedAt c) (duration c) (transcription c) (analytics c).
Definition setEvents (v : list StoredEvent.t) (c : t) : t :=
  mk (id c) (metadata c) (status c) v (createdAt c) (lastUpdated c)
     (answeredAt c) (endedAt c) (duration c) (transcription c) (analytics c).
Definition setLastUpdated (v : Z) (c : t) : t :=
  mk (id c) (metadata c) (status c) (events c) (createdAt c) v
     (answeredAt c) (endedAt c) (duration c) (transcription c) (analytics c).
Definition setAnsweredAt (v : option Z) (c : t) : t :=
  mk (id c) (metadata c) (status c) (events c) (createdAt c) (lastUpdated c)
     v (endedAt c) (duration c) (transcription c) (analytics c).
Definition setEndedAt (v : option Z) (c : t) : t :=
  mk (id c) (metadata c) (status c) (events c) (createdAt c) (lastUpdated c)
     (answeredAt c) v (duration c) (transcription c) (analytics c).
Definition setDuration (v : option Q) (c : t) : t :=
  mk (id c) (metadata c) (status c) (events c) (createdAt c) (lastUpdated c)
     (answeredAt c) (endedAt c) v (transcription c) (analytics c).
Definition setTranscription (v : option Text) (c : t) : t :=
  mk (id c) (metadata c) (status c) (events c) (createdAt c) (lastUpdated c)
     (answeredAt c) (endedAt c) (duration c) v (analytics c).
Definition setAnalytics (v : Analytics.t) (c : t) : t :=
  mk (id c) (metadata c) (status c) (events c) (createdAt c) (lastUpdated c)
     (answeredAt c) (endedAt c) (duration c) (transcription c) v.
End CallData.

(** What [vapi.calls.get] resolves to; [events = None] is a missing
    [events]. *)
Module Snapshot.
Record t : Type := mk {
  status : string;
  events : option (list Event.t)
}.
End Snapshot.

(** The calls of [this.emit], with their payloads.  A record carried by a
    notification is the record as it is at the time of the call. *)
Inductive Notification : Type :=
| MonitoringStarted
| MonitoringStopped
| CallAdded (callData : CallData.t)
| CallRemoved (callData : CallData.t)
| CallEvent (callId : string) (event : Event.t)
| CallUpdated (callData : CallData.t)
| CallStatusChanged (callId from to : string) (timestamp : Z)
| ErrorEvent (error : JsError).

Inductive Timer : Type :=
| SweepEvery (ms : Z)
| RemoveCallAfter (ms : Z) (callId : string).

(** The monitor and the part of the world it acts on. *)
Record Monitor : Type := mkMonitor {
  (* fields of CallMonitor *)
  activeCalls : list (string * CallData.t);
  monitoringInterval : Z;
  monitoringEnabled : bool;
  monitoringIntervalId : option nat;
  (* EventEmitter *)
  errorListeners : nat;
  emitted : list Notification;
  (* timers: setInterval and setTimeout append, an id is a position *)
  timers : list Timer;
  clearedTimers : list nat;
  (* console.error *)
  consoleErrors : list JsError;
  (* uses of the environment so far *)
  dateReads : nat;
  fetched : list string;
  randomDraws : nat;
  slept : list Q
}.

(** The environment: the [k]-th [new Date()], the [k]-th [Math.random()]
    and what the [k]-th call of [vapi.calls.get] answers for a call id. *)
Record Env : Type := mkEnv {
  clock : nat -> Z;
  mathRandom : nat -> Q;
  callsGet : string -> nat -> completion Snapshot.t
}.

Definition setActiveCalls (v : list (string * CallData.t)) (w : Monitor) :=
  mkMonitor v (monitoringInterval w) (monitoringEnabled w)
    (monitoringIntervalId w) (errorListeners w) (emitted w) (timers w)
    (clearedTimers w) (consoleErrors w) (dateReads w) (fetched w)
    (randomDraws w) (slept w).
Definition setMonitoringEnabled (v : bool) (w : Monitor) :=
  mkMonitor (activeCalls w) (monitoringInterval w) v
    (monitoringIntervalId w) (errorListeners w) (emitted w) (timers w)
    (clearedTimers w) (consoleErrors w) (dateReads w) (fetched w)
    (randomDraws w) (slept w).
Definition setMonitoringIntervalId (v : option nat) (w : Monitor) :=
  mkMonitor (activeCalls w) (monitoringInterval w) (monitoringEnabled w)
    v (errorListeners w) (emitted w) (timers w)
    (clearedTimers w) (consoleErrors w) (dateReads w) (fetched w)
    (randomDraws w) (slept w).
Definition setEmitted (v : list Notification) (w : Monitor) :=
  mkMonitor (activeCalls w) (monitoringInterval w) (monitoringEnabled w)
    (monitoringIntervalId w) (errorListeners w) v (timers w)
    (clearedTimers w) (consoleErrors w) (dateReads w) (fetched w)
    (randomDraws w) (slept w).
Definition setTimers (v : list Timer) (w : Monitor) :=
  mkMonitor (activeCalls w) (monitoringInterval w) (monitoringEnabled w)
    (monitoringIntervalId w) (errorListeners w) (emitted w) v
    (clearedTimers w) (consoleErrors w) (dateReads w) (fetched w)
    (randomDraws w) (slept w).
Definition setClearedTimers (v : list nat) (w : Monitor) :=
  mkMonitor (activeCalls w) (monitoringInterval w) (monitoringEnabled w)
    (monitoringIntervalId w) (errorListeners w) (emitted w) (timers w)
    v (consoleErrors w) (dateReads w) (fetched w)
    (randomDraws w) (slept w).
Definition setConsoleErrors (v : list JsError) (w : Monitor) :=
  mkMonitor (activeCalls w) (monitoringInterval w) (monitoringEnabled w)
    (monitoringIntervalId w) (errorListeners w) (emitted w) (timers w)
    (clearedTimers w) v (dateReads w) (fetched w)
    (randomDraws w) (slept w).
Definition setDateReads (v : nat) (w : Monitor) :=
  mkMonitor (activeCalls w) (monitoringInterval w) (monitoringEnabled w)
    (monitoringIntervalId w) (errorListeners w) (emitted w) (timers w)
    (clearedTimers w) (consoleErrors w) v (fetched w)
    (randomDraws w) (slept w).
Definition setFetched (v : list string) (w : Monitor) :=
  mkMonitor (activeCalls w) (monitoringInterval w) (monitoringEnabled w)
    (monitoringIntervalId w) (errorListeners w) (emitted w) (timers w)
    (clearedTimers w) (consoleErrors w) (dateReads w) v
    (randomDraws w) (slept w).
Definition setRandomDraws (v : nat) (w : Monitor) :=
  mkMonitor (activeCalls w) (monitoringInterval w) (monitoringEnabled w)
    (monitoringIntervalId w) (errorListeners w) (emitted w) (timers w)
    (clearedTimers w) (consoleErrors w) (dateReads w) (fetched w)
    v (slept w).
Definition setSlept (v : list Q) (w : Monitor) :=
  mkMonitor (activeCalls w) (monitoringInterval w) (monitoringEnabled w)
    (monitoringIntervalId w) (errorListeners w) (emitted w) (timers w)
    (clearedTimers w) (consoleErrors w) (dateReads w) (fetched w)
    (randomDraws w) v.

(* ------------------------------------------------------------------ *)
(** ** The [Map] of active calls, in insertion order *)

Module CallMap.
Definition t : Type := list (string * CallData.t).

Definition get (k : string) (m : t) : option CallData.t :=
  match find (fun p => String.eqb (fst p) k) m with
  | Some p => Some (snd p)
  | None => None
  end.

Definition has (k : string) (m : t) : bool :=
  match get k m with Some _ => true | None => false end.

(** Replaces the value of a key that is present (in place). *)
Definition replace (k : string) (v : CallData.t) (m : t) : t :=
  map (fun p => if String.eqb (fst p) k then (fst p, v) else p) m.

Definition set (k : string) (v : CallData.t) (m : t) : t :=
  if has k m then replace k v m else m ++ [(k, v)].

Definition delete (k : string) (m : t) : t :=
  filter (fun p => negb (String.eqb (fst p) k)) m.

Definition size (m : t) : Z := Z.of_nat (length m).

Definition keys (m : t) : list string := map fst m.
End CallMap.

(* ------------------------------------------------------------------ *)
(** ** class CallMonitor extends EventEmitter *)

Definition statusInitializing : string := "initializing".
Definition statusInProgress : string := "in-progress".
Definition statusCompleted : string := "completed".

(** Reading a property of [undefined]. *)
Definition typeError : JsError := mkError "TypeError" None.

(** [new CallMonitor(vapiClient, options)], with
    [options.monitoringInterval || 5000]; no listener is attached yet. *)
Definition newCallMonitor (interval : option Z) : Monitor :=
  mkMonitor []
    (match interval with
     | Some ms => if ms =? 0 then 5000 else ms
     | None => 5000
     end)
    false None O [] [] [] [] O [] O [].

(** [emitter.on('error', listener)] *)
Definition onError (w : Monitor) : Monitor :=
  mkMonitor (activeCalls w) (monitoringInterval w) (monitoringEnabled w)
    (monitoringIntervalId w) (S (errorListeners w)) (emitted w) (timers w)
    (clearedTimers w) (consoleErrors w) (dateReads w) (fetched w)
    (randomDraws w) (slept w).

(** [_analyzeTranscription(callData, transcription)], on the record. *)
Definition wordsPerMinute : Q := 150.

Definition _analyzeTranscription (transcription : EventData.t)
  : Comp CallData.t unit :=
  match EventData.text transcription with
  | None => throw typeError
  | Some text =>
      fun callData =>
        let wordCount := Z.of_nat (length (splitWhiteSpace text)) in
        let isInterruption :=
          match EventData.speaker transcription with
          | Some speaker => String.eqb speaker "assistant"
          | None => false
          end
          && endsWithQuestionMark text
          && (Z.of_nat (length text) <? 30) in
        let a := CallData.analytics callData in
        let interruptions1 :=
          if isInterruption then Analytics.interruptions a + 1
          else Analytics.interruptions a in
        let talkTime1 :=
          (Analytics.talkTime a + (inject_Z wordCount / wordsPerMinute) * 60)%Q in
        (Return tt,
         CallData.setAnalytics
           (Analytics.mk talkTime1 (Analytics.silenceDuration a) interruptions1
              (Analytics.sentimentScores a))
           callData)
  end.

(** The body of the loop of [_processCallEvents] up to
    [callData.events.push], on the record: the update by event type, then
    the new entry of the log. *)
Definition applyEventType (event : Event.t) : Comp CallData.t unit :=
  if String.eqb (Event.type event) "call.answered" then
    modify (fun c =>
      CallData.setAnsweredAt (Some (Event.timestamp event))
        (CallData.setStatus statusInProgress c))
  else if String.eqb (Event.type event) "call.ended" then
    modify (fun c =>
      let c1 := CallData.setStatus statusCompleted c in
      let c2 := CallData.setEndedAt (Some (Event.timestamp event)) c1 in
      CallData.setDuration
        (Some (inject_Z (Event.timestamp event - CallData.createdAt c2) / 1000)%Q)
        c2)
  else if String.eqb (Event.type event) "call.transcription" then
    match Event.data event with
    | None => throw typeError
    | Some d =>
        bind (modify (CallData.setTranscription (EventData.text d)))
          (fun _ => _analyzeTranscription d)
    end
  else if String.eqb (Event.type event) "call.sentiment" then
    match Event.data event with
    | None => throw typeError
    | Some d =>
        modify (fun c =>
          let a := CallData.analytics c in
          CallData.setAnalytics
            (Analytics.mk (Analytics.talkTime a) (Analytics.silenceDuration a)
               (Analytics.interruptions a)
               (Analytics.sentimentScores a
                  ++ [(EventData.score d, Event.timestamp event)]))
            c)
    end
  else ret tt.

Definition storedEvent (event : Event.t) : StoredEvent.t :=
  StoredEvent.mk (Event.id event) (Event.type event) (Event.timestamp event)
    (match Event.data event with Some d => d | None => EventData.empty end).

Definition pushEvent (event : Event.t) : Comp CallData.t unit :=
  modify (fun c =>
    CallData.setEvents (CallData.events c ++ [storedEvent event]) c).

(** [callData.events.some(e => e.id === event.id)] *)
Definition alreadyProcessed (event : Event.t) (callData : CallData.t) : bool :=
  existsb (fun e => String.eqb (StoredEvent.id e) (Event.id event))
    (CallData.events callData).

Section CallMonitor.
Variable env : Env.

Local Open Scope comp_scope.

Definition M : Type -> Type := Comp Monitor.

(** [new Date()] *)
Definition newDate : M Z :=
  fun w => (Return (clock env (dateReads w)), setDateReads (S (dateReads w)) w).

(** [this.emit(...)].  Node's emitter throws the error of an ['error']
    event that has no listener; listeners themselves are taken not to
    throw and not to call back into the monitor. *)
Definition emit (n : Notification) : M unit :=
  fun w =>
    match n with
    | ErrorEvent error =>
        if Nat.eqb (errorListeners w) O then (Throw error, w)
        else (Return tt, setEmitted (emitted w ++ [n]) w)
    | _ => (Return tt, setEmitted (emitted w ++ [n]) w)
    end.

Definition consoleError (error : JsError) : M unit :=
  modify (fun w => setConsoleErrors (consoleErrors w ++ [error]) w).

(** [setInterval] and [setTimeout]: the timer is recorded and its
    position is its id. *)
Definition setTimer (t : Timer) : M nat :=
  fun w => (Return (length (timers w)), setTimers (timers w ++ [t]) w).

Definition clearInterval (timerId : nat) : M unit :=
  modify (fun w => setClearedTimers (clearedTimers w ++ [timerId]) w).

(** The object [callData] is the entry of the map under [callId]: a
    mutation of the object is a replacement of that entry. *)
Definition storeCall (callId : string) (callData : CallData.t) : M unit :=
  modify (fun w =>
    setActiveCalls (CallMap.replace callId callData (activeCalls w)) w).

Definition startMonitoring : M unit :=
  intervalId <- gets monitoringIntervalId ;;
  match intervalId with
  | Some _ => ret tt
  | None =>
      modify (setMonitoringEnabled true) ;;;
      interval <- gets monitoringInterval ;;
      timerId <- setTimer (SweepEvery interval) ;;
      modify (setMonitoringIntervalId (Some timerId)) ;;;
      emit MonitoringStarted
  end.

Definition stopMonitoring : M unit :=
  intervalId <- gets monitoringIntervalId ;;
  match intervalId with
  | None => ret tt
  | Some timerId =>
      clearInterval timerId ;;;
      modify (setMonitoringIntervalId None) ;;;
      modify (setMonitoringEnabled false) ;;;
      emit MonitoringStopped
  end.

(** [addCall(callId, metadata)]; the result [None] is [undefined]. *)
Definition addCall (callId : string) (metadata : Metadata)
  : M (option CallData.t) :=
  calls <- gets activeCalls ;;
  if CallMap.has callId calls then ret None
  else
    createdAt <- newDate ;;
    lastUpdated <- newDate ;;
    let callData :=
      CallData.mk callId metadata statusInitializing [] createdAt lastUpdated
        None None None None (Analytics.mk 0 0 0 []) in
    modify (fun w => setActiveCalls (CallMap.set callId callData (activeCalls w)) w) ;;;
    emit (CallAdded callData) ;;;
    intervalId <- gets monitoringIntervalId ;;
    match intervalId with
    | None => startMonitoring
    | Some _ => ret tt
    end ;;;
    ret (Some callData).

Definition removeCall (callId : string) : M unit :=
  calls <- gets activeCalls ;;
  match CallMap.get callId calls with
  | None => ret tt
  | Some callData =>
      modify (fun w => setActiveCalls (CallMap.delete callId (activeCalls w)) w) ;;;
      emit (CallRemoved callData) ;;;
      calls1 <- gets activeCalls ;;
      if CallMap.size calls1 =? 0 then stopMonitoring else ret tt
  end.

(** [getCall(callId)]; [None] is [null]. *)
Definition getCall (callId : string) (w : Monitor) : option CallData.t :=
  CallMap.get callId (activeCalls w).

Definition getActiveCalls (w : Monitor) : list CallData.t :=
  map snd (activeCalls w).

(** The [for (const event of events)] loop of [_processCallEvents];
    [callData] is the record as it is when the iteration starts, and the
    result is the record after the last iteration. *)
Fixpoint processEvents (callId : string) (events : list Event.t)
    (callData : CallData.t) : M CallData.t :=
  match events with
  | [] => ret callData
  | event :: rest =>
      if alreadyProcessed event callData then
        processEvents callId rest callData
      else
        match bind (applyEventType event) (fun _ => pushEvent event) callData with
        | (Throw error, callData1) =>
            storeCall callId callData1 ;;; throw error
        | (Return _, callData1) =>
            now <- newDate ;;
            let callData2 := CallData.setLastUpdated now callData1 in
            storeCall callId callData2 ;;;
            emit (CallEvent callId event) ;;;
            processEvents callId rest callData2
        end
  end.

Definition _processCallEvents (callId : string) (events : list Event.t)
  : M unit :=
  found <- gets (getCall callId) ;;
  match found with
  | None => ret tt
  | Some callData =>
      callData1 <- processEvents callId events callData ;;
      emit (CallUpdated callData1)
  end.

(** [() => this.vapi.calls.get(callId)] *)
Definition fetchCall (callId : string) : M Snapshot.t :=
  fun w =>
    (callsGet env callId (length (fetched w)),
     setFetched (fetched w ++ [callId]) w).

(** [error.response?.status !== 404] *)
Definition shouldRetryFetch (error : JsError) : bool :=
  match responseStatus error with
  | Some st => negb (st =? 404)
  | None => true
  end.

(** [retry(() => this.vapi.calls.get(callId), { maxRetries: 3, shouldRetry })] *)
Definition retryFetch (callId : string) : M Snapshot.t :=
  fun w =>
    let '(r, w1, steps) :=
      retry (fetchCall callId) 3 defaultInitialDelay shouldRetryFetch
        (fun k => mathRandom env (randomDraws w + k)%nat) w in
    (r,
     setSlept (slept w1 ++ sleeps steps)
       (setRandomDraws (randomDraws w1 + length (sleeps steps))%nat w1)).

Definition removalDelay : Z := 30000.

(** The [try] block of the loop of [_monitorCalls], for the entry
    [callId], [callData] of the map: first what follows the fetch, for the
    snapshot [call] it resolved to. *)
Definition applySnapshot (callId : string) (callData : CallData.t)
    (call : Snapshot.t) : M unit :=
  callData1 <-
    (if negb (String.eqb (Snapshot.status call) (CallData.status callData))
     then
       let oldStatus := CallData.status callData in
       let updated := CallData.setStatus (Snapshot.status call) callData in
       storeCall callId updated ;;;
       now <- newDate ;;
       emit (CallStatusChanged callId oldStatus (Snapshot.status call) now) ;;;
       ret updated
     else ret callData) ;;
  match Snapshot.events call with
  | Some (event :: events) => _processCallEvents callId (event :: events)
  | _ => ret tt
  end ;;;
  (* [callData] is still the entry of the map, as mutated by
     [_processCallEvents] *)
  current <- gets (getCall callId) ;;
  let callData2 := match current with Some c => c | None => callData1 end in
  if String.eqb (Snapshot.status call) statusCompleted
     && negb (String.eqb (CallData.status callData2) statusCompleted)
  then _ <- setTimer (RemoveCallAfter removalDelay callId) ;; ret tt
  else ret tt.

Definition pollCall (callId : string) (callData : CallData.t) : M unit :=
  call <- retryFetch callId ;; applySnapshot callId callData call.

(** The [catch (error)] blocks of [_monitorCalls]. *)
Definition reportError (error : JsError) : M unit :=
  consoleError error ;;; emit (ErrorEvent error).

(** One turn of the loop
    [for (const [callId, callData] of this.activeCalls.entries())] of
    [_monitorCalls]: the visit of the entry under [callId], with the record
    that the map holds under it when the visit starts. *)
Definition monitorCall (callId : string) : M unit :=
  found <- gets (getCall callId) ;;
  match found with
  | None => ret tt
  | Some callData =>
      if String.eqb (CallData.status callData) statusCompleted then ret tt
      else tryCatch (pollCall callId callData) reportError
  end.

(** The loop, for a sweep that runs alone.  The iterator of a [Map] walks
    the live map: it would also visit an entry added while the sweep awaits
    a fetch.  No turn of the loop adds or deletes an entry, and listeners do
    not call back, so a sweep that no other task interleaves with visits
    the keys that the map holds when the loop starts, in insertion order
    (lemma [visitEntries_forEachCall] below compares the two walks).  Calls
    added by another task in the middle of a sweep are not modelled. *)
Fixpoint forEachCall (callIds : list string) : M unit :=
  match callIds with
  | [] => ret tt
  | callId :: rest => monitorCall callId ;;; forEachCall rest
  end.

Definition _monitorCalls : M unit :=
  enabled <- gets monitoringEnabled ;;
  if negb enabled then ret tt
  else
    tryCatch
      (calls <- gets activeCalls ;; forEachCall (CallMap.keys calls))
      reportError.

(** What a timer does when it fires. *)
Definition fire (t : Timer) : M unit :=
  match t with
  | SweepEvery _ => _monitorCalls
  | RemoveCallAfter _ callId => removeCall callId
  end.

End CallMonitor.

(* ------------------------------------------------------------------ *)
(** ** Vocabulary of the statements *)

Unset Implicit Arguments.

(** The completion [r] of [retry] is the outcome of the attempt that threw
    [failure] (or returned, for [None]). *)
Definition agrees {A : Type} (r : completion A) (failure : option JsError)
  : Prop :=
  match r, failure with
  | Return _, None => True
  | Throw e, Some e' => e = e'
  | _, _ => False
  end.


Definition isStatusChanged (n : Notification) : bool :=
  match n with
  | CallStatusChanged _ _ _ _ => true
  | _ => false
  end.

Definition isRemoval (t : Timer) : bool :=
  match t with
  | RemoveCallAfter _ _ => true
  | SweepEvery _ => false
  end.

(** The ids of the log of a record. *)
Definition eventIds (callData : CallData.t) : list string :=
  map StoredEvent.id (CallData.events callData).

(** Events whose handler finds the payload it reads: a transcription has
    [data.text], a sentiment has [data]. *)
Definition hasPayload (event : Event.t) : bool :=
  if String.eqb (Event.type event) "call.answered" then true
  else if String.eqb (Event.type event) "call.ended" then true
  else if String.eqb (Event.type event) "call.transcription" then
    match Event.data event with
    | Some d => match EventData.text d with Some _ => true | None => false end
    | None => false
    end
  else if String.eqb (Event.type event) "call.sentiment" then
    match Event.data event with Some _ => true | None => false end
  else true.

(** [w'] differs from [w] by notifications appended to the emitter's log. *)
Definition emittedAfter (w w' : Monitor) : list Notification :=
  skipn (length (emitted w)) (emitted w').

Definition fetchedAfter (w w' : Monitor) : list string :=
  skipn (length (fetched w)) (fetched w').

(** The events of a batch that are not in the log, given the ids [seen] of
    the log: the ones the loop of [_processCallEvents] does not skip. *)
Fixpoint freshEvents (seen : list string) (events : list Event.t)
  : list Event.t :=
  match events with
  | [] => []
  | event :: rest =>
      if existsb (fun i => String.eqb i (Event.id event)) seen
      then freshEvents seen rest
      else event :: freshEvents (seen ++ [Event.id event]) rest
  end.

(** How a record may differ after the handler of an event type has run:
    the status is kept or becomes in-progress or completed, and the log,
    the identity and the creation time are kept. *)
Record evolves (c c' : CallData.t) : Prop := {
  evolves_status :
    CallData.status c' = CallData.status c
    \/ CallData.status c' = statusInProgress
    \/ CallData.status c' = statusCompleted;
  evolves_ids : incl (eventIds c) (eventIds c');
  evolves_id : CallData.id c' = CallData.id c;
  evolves_metadata : CallData.metadata c' = CallData.metadata c;
  evolves_createdAt : CallData.createdAt c' = CallData.createdAt c
}.

(** [m] relates the state it starts from to the state it ends in by [R],
    however it completes. *)
Definition preserves {St A : Type} (R : St -> St -> Prop) (m : Comp St A)
  : Prop :=
  forall s r s', m s = (r, s') -> R s s'.

(** What a step of the monitor on the call [callId] leaves alone: the
    other records, the keys, the listeners; the logs only grow. *)
Record touches (callId : string) (w w' : Monitor) : Prop := {
  touches_others : forall k, k <> callId -> getCall k w' = getCall k w;
  touches_keys :
    CallMap.keys (activeCalls w') = CallMap.keys (activeCalls w);
  touches_listeners : errorListeners w' = errorListeners w;
  touches_emitted : exists l, emitted w' = emitted w ++ l;
  touches_fetched : exists l, fetched w' = fetched w ++ l;
  touches_timers : exists l, timers w' = timers w ++ l
}.

(** The name under which a notification is emitted. *)
Definition notificationName (n : Notification) : string :=
  match n with
  | MonitoringStarted => "monitoring:started"
  | MonitoringStopped => "monitoring:stopped"
  | CallAdded _ => "call:added"
  | CallRemoved _ => "call:removed"
  | CallEvent _ event => "call:" ++ Event.type event
  | CallUpdated _ => "call:updated"
  | CallStatusChanged _ _ _ _ => "call:status_changed"
  | ErrorEvent _ => "error"
  end.

(* ------------------------------------------------------------------ *)
(** ** Concrete runs *)

Module Scenario.

(** A clock that advances by one millisecond per reading, from 0. *)
Definition tickingClock (k : nat) : Z := Z.of_nat k.

Definition notFound : JsError := mkError "Call not found" (Some 404).
Definition serverError : JsError := mkError "Internal error" (Some 500).

(** An operation that counts its calls and throws [e] each time. *)
Definition failing (e : JsError) : Comp nat unit := fun n => (Throw e, S n).

Definition halfJitter : nat -> Q := fun _ => (1 # 2)%Q.

(** A remote that answers every fetch the same way. *)
Definition envAnswering (answer : completion Snapshot.t) : Env :=
  mkEnv tickingClock (fun _ => 0%Q) (fun _ _ => answer).

Definition envNotFound : Env := envAnswering (Throw notFound).
Definition envServerError : Env := envAnswering (Throw serverError).
Definition envCompleted : Env :=
  envAnswering (Return (Snapshot.mk statusCompleted (Some []))).

Definition answered (T0 : Z) : Event.t :=
  Event.mk "e1" "call.answered" T0 None.
Definition transcribed (T : Z) : Event.t :=
  Event.mk "e2" "call.transcription" T
    (Some (EventData.mk (Some (textOfString "Hi there")) (Some "user") None)).
Definition ended (T1 : Z) : Event.t :=
  Event.mk "e3" "call.ended" T1 None.
Definition answeredAgain (T : Z) : Event.t :=
  Event.mk "e4" "call.answered" T None.

(** [addCall('c1')] on a new monitor. *)
Definition registered (env : Env) : Monitor :=
  snd (addCall env "c1" [] (newCallMonitor None)).

(** [addCall('c1')] then [addCall('c2')] on a new monitor. *)
Definition registeredTwo (env : Env) : Monitor :=
  snd (addCall env "c2" [] (registered env)).

(** The monitor after the answered event, delivered at 1000 ms to a monitor
    that tracks [c1], and the record of [c1] then. *)
Definition answeredOnce (env : Env) : Monitor :=
  snd (_processCallEvents env "c1" [answered 1000] (registered env)).

Definition answeredRecord : CallData.t :=
  CallData.mk "c1" [] statusInProgress [storedEvent (answered 1000)] 0 2
    (Some 1000) None None None (Analytics.mk 0 0 0 []).

(** The monitor after the ended event, delivered to a monitor that tracks
    [c1], and after an answered event delivered later. *)
Definition endedOnce (env : Env) : Monitor :=
  snd (_processCallEvents env "c1" [ended 1000] (registered env)).

Definition answeredAfterEnded (env : Env) : Monitor :=
  snd (_processCallEvents env "c1" [answeredAgain 2000] (endedOnce env)).

(** The monitor of [registeredTwo] after [on('error', listener)]. *)
Definition registeredTwoListening (env : Env) : Monitor :=
  onError (registeredTwo env).

(** One sweep of a monitor that tracks [c1] in progress, with a remote that
    reports it completed. *)
Definition sweptCompleted : Monitor :=
  snd (_monitorCalls envCompleted (answeredOnce envCompleted)).

(** The end-to-end run: register [c1], then deliver the answered, the
    transcription and the ended event, one batch each.  The result lists
    the monitor after each of the four steps. *)
Definition endToEnd (env : Env) (interval : option Z) (metadata : Metadata)
    (T0 T T1 : Z) : list Monitor :=
  let w1 := snd (addCall env "c1" metadata (newCallMonitor interval)) in
  let w2 := snd (_processCallEvents env "c1" [answered T0] w1) in
  let w3 := snd (_processCallEvents env "c1" [transcribed T] w2) in
  let w4 := snd (_processCallEvents env "c1" [ended T1] w3) in
  [w1; w2; w3; w4].

(** The monitor at the end of the end-to-end run. *)
Definition endToEndFinal (env : Env) (interval : option Z)
    (metadata : Metadata) (T0 T T1 : Z) : Monitor :=
  last (endToEnd env interval metadata T0 T T1) (newCallMonitor interval).

Definition statusOf (callId : string) (w : Monitor) : option string :=
  option_map CallData.status (getCall callId w).

Definition talkTimeOf (callId : string) (w : Monitor) : option Q :=
  option_map (fun c => Analytics.talkTime (CallData.analytics c))
    (getCall callId w).

Definition durationOf (callId : string) (w : Monitor) : option Q :=
  match getCall callId w with
  | Some c => CallData.duration c
  | None => None
  end.

End Scenario.

(* ------------------------------------------------------------------ *)
(** ** Vocabulary of further statements *)

(** A trace of [retry] that made at least one attempt: attempts separated
    by suspensions, each attempt but the last having thrown an error that
    [shouldRetry] accepts; [o] is the failure of the last attempt. *)
Inductive retryTrace (shouldRetry : JsError -> bool)
  : list RetryStep -> option JsError -> Prop :=
| retryTrace_last (o : option JsError) :
    retryTrace shouldRetry [Attempt o] o
| retryTrace_again (e : JsError) (d : Q) (steps : list RetryStep)
    (o : option JsError) :
    shouldRetry e = true ->
    retryTrace shouldRetry steps o ->
    retryTrace shouldRetry (Attempt (Some e) :: Sleep d :: steps) o.

(** The suspension that follows the failed attempt number [k] (from 0). *)
Definition backoffAfter (initialDelay : Q) (random : nat -> Q) (k : nat) : Q :=
  (backoffDelay initialDelay (Z.of_nat k)
   + backoffJitter initialDelay random (Z.of_nat k))%Q.

(** A code unit that is not white space. *)
Definition isWordUnit (c : N) : bool := negb (isWhiteSpace c).

(** What ingestion and sweeps keep of a record: its identity, its metadata,
    its creation time, and the entries already in its log. *)
Record persists (c c' : CallData.t) : Prop := {
  persists_id : CallData.id c' = CallData.id c;
  persists_metadata : CallData.metadata c' = CallData.metadata c;
  persists_createdAt : CallData.createdAt c' = CallData.createdAt c;
  persists_events :
    exists added, CallData.events c' = CallData.events c ++ added
}.

(** [P k c] holds of every record [c] that [getCall k] finds. *)
Definition allCalls (P : string -> CallData.t -> Prop) (w : Monitor) : Prop :=
  forall k c, getCall k w = Some c -> P k c.

(** A property of records that every way ingestion and sweeps have of
    changing a record keeps. *)
Record RecordStep (P : string -> CallData.t -> Prop) : Prop := {
  step_handled :
    forall k event c r c',
      P k c ->
      alreadyProcessed event c = false ->
      bind (applyEventType event) (fun _ => pushEvent event) c = (r, c') ->
      P k c';
  step_updated : forall k now c, P k c -> P k (CallData.setLastUpdated now c);
  step_polled : forall k status c, P k c -> P k (CallData.setStatus status c)
}.

(** One that the records made by [addCall] have as well. *)
Record RecordInvariant (P : string -> CallData.t -> Prop) : Prop := {
  inv_step : RecordStep P;
  inv_added :
    forall k metadata createdAt lastUpdated,
      P k (CallData.mk k metadata statusInitializing [] createdAt lastUpdated
             None None None None (Analytics.mk 0 0 0 []))
}.

(** The calls a user or a timer makes on a monitor. *)
Inductive Op : Type :=
| OpAddCall (callId : string) (metadata : Metadata)
| OpRemoveCall (callId : string)
| OpProcessCallEvents (callId : string) (events : list Event.t)
| OpMonitorCalls
| OpStartMonitoring
| OpStopMonitoring
| OpOnError.

(** The monitor after a call, however the call completes. *)
Definition perform (env : Env) (op : Op) (w : Monitor) : Monitor :=
  match op with
  | OpAddCall callId metadata => snd (addCall env callId metadata w)
  | OpRemoveCall callId => snd (removeCall callId w)
  | OpProcessCallEvents callId events =>
      snd (_processCallEvents env callId events w)
  | OpMonitorCalls => snd (_monitorCalls env w)
  | OpStartMonitoring => snd (startMonitoring w)
  | OpStopMonitoring => snd (stopMonitoring w)
  | OpOnError => onError w
  end.

Definition performAll (env : Env) (ops : list Op) (w : Monitor) : Monitor :=
  fold_left (fun w op => perform env op w) ops w.

(** The calls that leave the scheduler to [addCall] and [removeCall]. *)
Definition leavesScheduler (op : Op) : bool :=
  match op with
  | OpStartMonitoring | OpStopMonitoring => false
  | _ => true
  end.

(** The timer [i] of [w] is a sweep timer that was not cleared. *)
Definition isLiveSweep (w : Monitor) (i : nat) : bool :=
  match nth_error (timers w) i with
  | Some (SweepEvery _) => negb (existsb (Nat.eqb i) (clearedTimers w))
  | _ => false
  end.

(** The sweep timers that were set and not cleared, by id. *)
Definition liveSweepTimers (w : Monitor) : list nat :=
  filter (isLiveSweep w) (seq 0 (length (timers w))).

(** The scheduler is consistent: monitoring is enabled exactly when an
    interval id is held, the live sweep timers are that id and no other,
    that timer has the period of the monitor, and only timers that were set
    have been cleared. *)
Record schedulerConsistent (w : Monitor) : Prop := {
  sched_enabled :
    monitoringEnabled w
    = match monitoringIntervalId w with Some _ => true | None => false end;
  sched_live :
    liveSweepTimers w
    = match monitoringIntervalId w with Some i => [i] | None => [] end;
  sched_period :
    forall i, monitoringIntervalId w = Some i ->
              nth_error (timers w) i = Some (SweepEvery (monitoringInterval w));
  sched_cleared :
    forall i, In i (clearedTimers w) -> (i < length (timers w))%nat
}.

(** What ingestion and sweeps leave alone in the monitor: the scheduler
    (flags, period, cleared timers), the listeners and the keys of the map;
    they can only add timers, each a removal after [removalDelay] of one of
    the calls [callIds]. *)
Record keepsScheduler (callIds : list string) (w w' : Monitor) : Prop := {
  ks_enabled : monitoringEnabled w' = monitoringEnabled w;
  ks_intervalId : monitoringIntervalId w' = monitoringIntervalId w;
  ks_interval : monitoringInterval w' = monitoringInterval w;
  ks_cleared : clearedTimers w' = clearedTimers w;
  ks_listeners : errorListeners w' = errorListeners w;
  ks_keys : CallMap.keys (activeCalls w') = CallMap.keys (activeCalls w);
  ks_timers :
    exists added,
      timers w' = timers w ++ added
      /\ Forall (fun t => exists k, In k callIds
                                    /\ t = RemoveCallAfter removalDelay k)
           added
}.

(** The record that [addCall] makes at the readings [createdAt] and
    [lastUpdated] of the clock. *)
Definition newCallData (callId : string) (metadata : Metadata)
    (createdAt lastUpdated : Z) : CallData.t :=
  CallData.mk callId metadata statusInitializing [] createdAt lastUpdated
    None None None None (Analytics.mk 0 0 0 []).

(** The step leaves the map of calls as it is. *)
Definition sameCalls (w w' : Monitor) : Prop := activeCalls w' = activeCalls w.

(** The step keeps [P] of every record. *)
Definition keepsAll (P : string -> CallData.t -> Prop) (w w' : Monitor)
  : Prop :=
  allCalls P w -> allCalls P w'.

(** The last entry of type [type] of a log. *)
Definition lastOfType (type : string) (events : list StoredEvent.t)
  : option StoredEvent.t :=
  find (fun e => String.eqb (StoredEvent.type e) type) (rev events).

(** The record has the id it is filed under. *)
Definition filedUnderId (k : string) (c : CallData.t) : Prop :=
  CallData.id c = k.

(** The ids of the log are pairwise distinct. *)
Definition logIdsDistinct (_ : string) (c : CallData.t) : Prop :=
  NoDup (eventIds c).

(** Talk time and interruptions are not negative, the silence duration is
    the 0 it was created with, and there is one sentiment score per
    sentiment entry of the log. *)
Definition analyticsSound (_ : string) (c : CallData.t) : Prop :=
  (0 <= Analytics.talkTime (CallData.analytics c))%Q
  /\ 0 <= Analytics.interruptions (CallData.analytics c)
  /\ Analytics.silenceDuration (CallData.analytics c) = 0%Q
  /\ length (Analytics.sentimentScores (CallData.analytics c))
     = length (filter (fun e => String.eqb (StoredEvent.type e) "call.sentiment")
                 (CallData.events c)).

(** The timestamps mirror the log: [answeredAt] and [endedAt] are the
    timestamps of the last answered and ended entries (unset when there is
    none), and [duration] is [(endedAt - createdAt) / 1000]. *)
Definition timestampsMirrorLog (_ : string) (c : CallData.t) : Prop :=
  CallData.answeredAt c
  = option_map StoredEvent.timestamp
      (lastOfType "call.answered" (CallData.events c))
  /\ CallData.endedAt c
     = option_map StoredEvent.timestamp
         (lastOfType "call.ended" (CallData.events c))
  /\ CallData.duration c
     = option_map
         (fun t => (inject_Z (t - CallData.createdAt c) / 1000)%Q)
         (CallData.endedAt c).

(** The fields of the monitor that make up its scheduler. *)
Definition schedulerOf (w : Monitor)
  : bool * option nat * Z * list Timer * list nat :=
  (monitoringEnabled w, monitoringIntervalId w, monitoringInterval w,
   timers w, clearedTimers w).

(** The scheduler follows the registry: an interval id is held exactly
    when a call is tracked. *)
Definition followsRegistry (w : Monitor) : Prop :=
  monitoringIntervalId w = None <-> activeCalls w = [].

(** The record under [k0] has kept what [persists] says of [c0]. *)
Definition persistsFrom (k0 : string) (c0 : CallData.t) (k : string)
    (c : CallData.t) : Prop :=
  k = k0 -> persists c0 c.

(** The loop of [_monitorCalls] as the iterator of the map runs it: before
    each turn it looks in the map, as it is then, for the entry that follows
    the [position] entries it has visited, and stops when there is none.
    [fuel] bounds the number of turns.  (Entries are kept in insertion
    order and no turn deletes one, so the entries visited so far are the
    first [position] ones.) *)
Fixpoint visitEntries (env : Env) (fuel position : nat)
  : Comp Monitor unit :=
  fun w =>
    match nth_error (CallMap.keys (activeCalls w)) position with
    | None => (Return tt, w)
    | Some callId =>
        match fuel with
        | O => (Throw fuelExhausted, w)
        | S fuel' =>
            bind (monitorCall env callId)
              (fun _ => visitEntries env fuel' (S position)) w
        end
    end.

(** The step calls [vapi.calls.get] for no call. *)
Definition sameFetched (w w' : Monitor) : Prop := fetched w' = fetched w.

(* ------------------------------------------------------------------ *)
(** ** Tactics *)


(** [touches] for a step that leaves the map of calls alone. *)
Ltac touches_field :=
  split; simpl;
  [ intros; reflexivity
  | reflexivity
  | reflexivity
  | first [ exists []; rewrite app_nil_r; reflexivity | eexists; reflexivity ]
  | first [ exists []; rewrite app_nil_r; reflexivity | eexists; reflexivity ]
  | first [ exists []; rewrite app_nil_r; reflexivity | eexists; reflexivity ] ].

(** Reads the fields of a record built by setters. *)
Ltac record_fields :=
  cbn [CallData.id CallData.metadata CallData.status CallData.events
       CallData.createdAt CallData.lastUpdated CallData.answeredAt
       CallData.endedAt CallData.duration CallData.transcription
       CallData.analytics CallData.setStatus CallData.setEvents
       CallData.setLastUpdated CallData.setAnsweredAt CallData.setEndedAt
       CallData.setDuration CallData.setTranscription CallData.setAnalytics
       fst snd].

(** [keepsScheduler] for a step that sets no timer. *)
Ltac keeps_scheduler_field :=
  split; simpl;
  [ reflexivity | reflexivity | reflexivity | reflexivity | reflexivity
  | try reflexivity
  | exists []; split; [ rewrite app_nil_r; reflexivity | constructor ] ].

(* ================================================================== *)
(** * Properties *)

(** ** The backoff executor *)

Section RetryFacts.
Context {St A : Type}.
Variable fn : Comp St A.
Variable maxRetries : Z.
Variable initialDelay : Q.
Variable shouldRetry : JsError -> bool.
Variable random : nat -> Q.

Local Abbreviation loop := (retry_loop fn maxRetries initialDelay shouldRetry random).

(** The loop never runs out of fuel: with at least
    [maxRetries - retries] units its result does not depend on it. *)
Lemma retry_loop_fuel (fuel : nat) :
  forall retries lastError s,
    (Z.to_nat (maxRetries - retries) <= fuel)%nat ->
    loop fuel retries lastError s =
    loop (Z.to_nat (maxRetries - retries)) retries lastError s.
Proof.
  induction fuel as [|fuel IH]; intros retries lastError s Hfuel.
  - replace (Z.to_nat (maxRetries - retries)) with O by lia. reflexivity.
  - destruct (Z.to_nat (maxRetries - retries)) as [|need] eqn:Hneed.
    + simpl. destruct (retries <? maxRetries) eqn:Hlt; [|reflexivity].
      apply Z.ltb_lt in Hlt. lia.
    + simpl. destruct (retries <? maxRetries); [|reflexivity].
      destruct (fn s) as [[a|e] s1]; [reflexivity|].
      destruct (negb (shouldRetry e) || (retries =? maxRetries - 1));
        [reflexivity|].
      assert (Hn : Z.to_nat (maxRetries - (retries + 1)) = need) by lia.
      rewrite (IH (retries + 1) (Some e) s1) by lia.
      rewrite Hn. reflexivity.
Qed.

(** In particular [retry] computes the same with any fuel beyond the one
    it takes. *)
Lemma retry_fuel (extra : nat) (s : St) :
  loop (Z.to_nat maxRetries + extra)%nat 0 None s
  = retry fn maxRetries initialDelay shouldRetry random s.
Proof.
  unfold retry. rewrite retry_loop_fuel by lia.
  replace (maxRetries - 0) with maxRetries by lia. reflexivity.
Qed.

(** Each iteration calls [fn] once, and there are at most
    [maxRetries - retries] iterations left. *)
Lemma retry_loop_attempts (fuel : nat) :
  forall retries lastError s r s' steps,
    loop fuel retries lastError s = (r, s', steps) ->
    (attempts steps <= Z.to_nat (maxRetries - retries))%nat.
Proof.
  induction fuel as [|fuel IH]; intros retries lastError s r s' steps; simpl.
  - destruct (retries <? maxRetries); intros H; inversion H; simpl; lia.
  - destruct (retries <? maxRetries) eqn:Hlt;
      [|intros H; inversion H; simpl; lia].
    apply Z.ltb_lt in Hlt.
    destruct (fn s) as [[a|e] s1]; [intros H; inversion H; simpl; lia|].
    destruct (negb (shouldRetry e) || (retries =? maxRetries - 1));
      [intros H; inversion H; simpl; lia|].
    destruct (loop fuel (retries + 1) (Some e) s1) as [[r2 s2] steps2] eqn:Hrec.
    intros H; inversion H; subst. simpl.
    apply IH in Hrec. lia.
Qed.

(** A failure that [shouldRetry] rejects ends the loop: it is the last
    step of the trace and the error that [retry] throws. *)
Lemma retry_loop_rejected (fuel : nat) :
  forall retries lastError s r s' steps front e back,
    loop fuel retries lastError s = (r, s', steps) ->
    steps = front ++ Attempt (Some e) :: back ->
    shouldRetry e = false ->
    back = [] /\ r = Throw e.
Proof.
  induction fuel as [|fuel IH];
    intros retries lastError s r s' steps front e back; simpl.
  - destruct (retries <? maxRetries); intros H; inversion H; subst;
      intros Hsteps; destruct front; discriminate.
  - destruct (retries <? maxRetries);
      [|intros H; inversion H; subst; intros Hsteps; destruct front; discriminate].
    destruct (fn s) as [[a|e0] s1].
    { intros H; inversion H; subst. intros Hsteps.
      destruct front as [|x [|y front]]; discriminate. }
    destruct (shouldRetry e0) eqn:He0; simpl negb; simpl orb.
    + destruct (retries =? maxRetries - 1).
      * intros H; inversion H; subst. intros Hsteps Hrej.
        destruct front as [|x [|y front]]; try discriminate.
        inversion Hsteps; subst. congruence.
      * destruct (loop fuel (retries + 1) (Some e0) s1)
          as [[r2 s2] steps2] eqn:Hrec.
        intros H; inversion H; subst. intros Hsteps Hrej.
        destruct front as [|x [|y front]].
        -- inversion Hsteps; subst. congruence.
        -- inversion Hsteps.
        -- inversion Hsteps; subst.
           eapply IH; [exact Hrec|reflexivity|assumption].
    + intros H; inversion H; subst. intros Hsteps Hrej.
      destruct front as [|x [|y front]]; try discriminate.
      inversion Hsteps; subst. split; reflexivity.
Qed.

End RetryFacts.




Lemma retry_rejected_first {St A : Type} (fn : Comp St A)
    (maxRetries : Z) (initialDelay : Q) (shouldRetry : JsError -> bool)
    (random : nat -> Q) (s s1 : St) (e : JsError) :
  0 < maxRetries ->
  fn s = (Throw e, s1) ->
  shouldRetry e = false ->
  retry fn maxRetries initialDelay shouldRetry random s
  = (Throw e, s1, [Attempt (Some e)]).
Proof.
  intros Hmax Hfn Hrej. unfold retry.
  destruct (Z.to_nat maxRetries) as [|fuel] eqn:Hfuel; [lia|].
  cbn [retry_loop].
  replace (0 <? maxRetries) with true by (symmetry; apply Z.ltb_lt; lia).
  rewrite Hfn, Hrej. reflexivity.
Qed.

(** C6.  When the operation fails and [shouldRetry] rejects the error,
    [retry] (with a budget of at least one attempt) has called the operation
    exactly once, has not suspended, and throws that error; the state is the
    one the single call left. *)
Theorem retry_rejected_failure_single_attempt {St A : Type} (fn : Comp St A)
    (maxRetries : Z) (initialDelay : Q) (shouldRetry : JsError -> bool)
    (random : nat -> Q) (s s1 : St) (e : JsError) :
  0 < maxRetries ->
  fn s = (Throw e, s1) ->
  shouldRetry e = false ->
  retry fn maxRetries initialDelay shouldRetry random s
  = (Throw e, s1, [Attempt (Some e)])
  /\ attempts (snd (retry fn maxRetries initialDelay shouldRetry random s)) = 1%nat
  /\ sleeps (snd (retry fn maxRetries initialDelay shouldRetry random s)) = [].
Proof.
  intros Hmax Hfn Hrej.
  rewrite (retry_rejected_first fn maxRetries initialDelay shouldRetry random
             s s1 e Hmax Hfn Hrej).
  repeat split.
Qed.

Lemma retry_rejected_failure_single_attempt_witness :
  0 < 3
  /\ Scenario.failing Scenario.notFound O = (Throw Scenario.notFound, 1%nat)
  /\ shouldRetryFetch Scenario.notFound = false
  /\ retry (Scenario.failing Scenario.notFound) 3 1000 shouldRetryFetch
       Scenario.halfJitter O
     = (Throw Scenario.notFound, 1%nat, [Attempt (Some Scenario.notFound)]).
Proof.
  split; [lia|]. split; [reflexivity|]. split; [reflexivity|].
  apply (retry_rejected_failure_single_attempt
           (Scenario.failing Scenario.notFound) 3 1000 shouldRetryFetch
           Scenario.halfJitter O 1%nat Scenario.notFound);
    [lia|reflexivity|reflexivity].
Defined.

(** ** The map of active calls *)

Lemma CallMap_has_get (k : string) (m : CallMap.t) :
  CallMap.has k m = true <-> exists v, CallMap.get k m = Some v.
Proof.
  unfold CallMap.has. destruct (CallMap.get k m) as [v|].
  - split; [intros _; exists v; reflexivity|reflexivity].
  - split; [discriminate|intros [v Hv]; discriminate].
Qed.

Lemma CallMap_get_replace_same (k : string) (v : CallData.t) (m : CallMap.t) :
  CallMap.has k m = true -> CallMap.get k (CallMap.replace k v m) = Some v.
Proof.
  unfold CallMap.has, CallMap.get, CallMap.replace.
  induction m as [|[k0 v0] m IH]; simpl; [discriminate|].
  destruct (String.eqb k0 k) eqn:Hk; simpl.
  - rewrite Hk. reflexivity.
  - rewrite Hk. exact IH.
Qed.

Lemma CallMap_get_replace_other (k k' : string) (v : CallData.t) (m : CallMap.t) :
  k' <> k -> CallMap.get k' (CallMap.replace k v m) = CallMap.get k' m.
Proof.
  intros Hne. unfold CallMap.get, CallMap.replace.
  induction m as [|[k0 v0] m IH]; simpl; [reflexivity|].
  destruct (String.eqb k0 k) eqn:Hk; simpl.
  - apply String.eqb_eq in Hk. subst k0.
    destruct (String.eqb k k') eqn:Hk'.
    + apply String.eqb_eq in Hk'. congruence.
    + exact IH.
  - destruct (String.eqb k0 k'); [reflexivity|exact IH].
Qed.

Lemma CallMap_keys_replace (k : string) (v : CallData.t) (m : CallMap.t) :
  CallMap.keys (CallMap.replace k v m) = CallMap.keys m.
Proof.
  unfold CallMap.keys, CallMap.replace. rewrite map_map.
  apply map_ext. intros [k0 v0]; simpl. destruct (String.eqb k0 k); reflexivity.
Qed.

Lemma CallMap_get_In_keys (k : string) (v : CallData.t) (m : CallMap.t) :
  CallMap.get k m = Some v -> In k (CallMap.keys m).
Proof.
  unfold CallMap.get, CallMap.keys.
  destruct (find _ m) as [[k0 v0]|] eqn:Hfind; [|discriminate].
  intros _. apply find_some in Hfind. destruct Hfind as [Hin Hk].
  simpl in Hk. apply String.eqb_eq in Hk. subst k0.
  apply (in_map fst) in Hin. exact Hin.
Qed.

(** ** Texts *)

Example split_hi_there :
  splitWhiteSpace (textOfString "Hi there")
  = [textOfString "Hi"; textOfString "there"].
Proof. reflexivity. Qed.

(** As in JavaScript, the empty text has one (empty) piece, and white space
    at either end leaves an empty piece there. *)
Example split_edges :
  splitWhiteSpace [] = [[]]
  /\ splitWhiteSpace (textOfString "  a   b ")
     = [[]; textOfString "a"; textOfString "b"; []].
Proof. split; reflexivity. Qed.

(** ** Events on one record *)

Lemma alreadyProcessed_In (event : Event.t) (callData : CallData.t) :
  alreadyProcessed event callData = true <->
  In (Event.id event) (eventIds callData).
Proof.
  unfold alreadyProcessed, eventIds. rewrite existsb_exists. split.
  - intros [e [Hin He]]. apply String.eqb_eq in He. rewrite <- He.
    apply in_map. exact Hin.
  - intros Hin. apply in_map_iff in Hin. destruct Hin as [e [He Hin]].
    exists e. split; [exact Hin|]. apply String.eqb_eq. exact He.
Qed.


Lemma evolves_refl (c : CallData.t) : evolves c c.
Proof. split; auto using incl_refl. Qed.

Lemma evolves_trans (c1 c2 c3 : CallData.t) :
  evolves c1 c2 -> evolves c2 c3 -> evolves c1 c3.
Proof.
  intros [S1 I1 A1 M1 C1] [S2 I2 A2 M2 C2]. split.
  - destruct S2 as [S2|S2]; [rewrite S2; exact S1|right; exact S2].
  - eapply incl_tran; eassumption.
  - congruence.
  - congruence.
  - congruence.
Qed.

Lemma applyEventType_evolves (event : Event.t) (c c' : CallData.t)
    (r : completion unit) :
  applyEventType event c = (r, c') ->
  evolves c c' /\ CallData.events c' = CallData.events c.
Proof.
  unfold applyEventType.
  destruct (String.eqb (Event.type event) "call.answered").
  { intros H; inversion H; subst. split; [split; simpl; auto using incl_refl|reflexivity]. }
  destruct (String.eqb (Event.type event) "call.ended").
  { intros H; inversion H; subst. split; [split; simpl; auto using incl_refl|reflexivity]. }
  destruct (String.eqb (Event.type event) "call.transcription").
  { destruct (Event.data event) as [d|].
    - unfold bind, modify, _analyzeTranscription.
      destruct (EventData.text d) as [text|];
        intros H; inversion H; subst;
        (split; [split; simpl; auto using incl_refl|reflexivity]).
    - intros H; inversion H; subst. split; [apply evolves_refl|reflexivity]. }
  destruct (String.eqb (Event.type event) "call.sentiment").
  { destruct (Event.data event) as [d|]; intros H; inversion H; subst;
      (split; [split; simpl; auto using incl_refl|reflexivity]). }
  intros H; inversion H; subst. split; [apply evolves_refl|reflexivity].
Qed.

Lemma applyEventType_hasPayload (event : Event.t) (c : CallData.t) :
  hasPayload event = true ->
  exists c', applyEventType event c = (Return tt, c').
Proof.
  unfold hasPayload, applyEventType.
  destruct (String.eqb (Event.type event) "call.answered"); [eexists; reflexivity|].
  destruct (String.eqb (Event.type event) "call.ended"); [eexists; reflexivity|].
  destruct (String.eqb (Event.type event) "call.transcription").
  { destruct (Event.data event) as [d|]; [|discriminate].
    unfold bind, modify, _analyzeTranscription.
    destruct (EventData.text d); [|discriminate]. eexists; reflexivity. }
  destruct (String.eqb (Event.type event) "call.sentiment").
  { destruct (Event.data event) as [d|]; [|discriminate]. eexists; reflexivity. }
  eexists; reflexivity.
Qed.

(** The handler and the push, together. *)
Lemma handle_push_evolves (event : Event.t) (c c' : CallData.t)
    (r : completion unit) :
  bind (applyEventType event) (fun _ => pushEvent event) c = (r, c') ->
  evolves c c'
  /\ match r with
     | Return _ => eventIds c' = eventIds c ++ [Event.id event]
     | Throw _ => CallData.events c' = CallData.events c
     end.
Proof.
  unfold bind.
  destruct (applyEventType event c) as [[[]|e] c1] eqn:Happly;
    apply applyEventType_evolves in Happly; destruct Happly as [Hev Hevents].
  - unfold pushEvent, modify. intros H; inversion H; subst. split.
    + eapply evolves_trans; [exact Hev|].
      split; simpl; auto. unfold eventIds; simpl. rewrite map_app.
      apply incl_appl, incl_refl.
    + unfold eventIds; simpl. rewrite map_app, Hevents. reflexivity.
  - intros H; inversion H; subst. split; assumption.
Qed.

(** ** Relations kept by every step of a computation *)

Section Preserves.
Context {St : Type}.
Variable R : St -> St -> Prop.
Hypothesis R_refl : forall s, R s s.
Hypothesis R_trans : forall s1 s2 s3, R s1 s2 -> R s2 s3 -> R s1 s3.


Lemma preserves_ret {A : Type} (a : A) : preserves R (ret a).
Proof. intros s r s' H; inversion H; subst; apply R_refl. Qed.

Lemma preserves_throw {A : Type} (e : JsError) : preserves R (@throw St A e).
Proof. intros s r s' H; inversion H; subst; apply R_refl. Qed.

Lemma preserves_gets {A : Type} (f : St -> A) : preserves R (gets f).
Proof. intros s r s' H; inversion H; subst; apply R_refl. Qed.

Lemma preserves_bind {A B : Type} (m : Comp St A) (k : A -> Comp St B) :
  preserves R m -> (forall a, preserves R (k a)) -> preserves R (bind m k).
Proof.
  intros Hm Hk s r s'. unfold bind.
  destruct (m s) as [[a|e] s1] eqn:Hms; intros H.
  - eapply R_trans; [eapply Hm; exact Hms|eapply Hk; exact H].
  - inversion H; subst. eapply Hm; exact Hms.
Qed.

Lemma preserves_tryCatch {A : Type} (body : Comp St A)
    (handler : JsError -> Comp St A) :
  preserves R body -> (forall e, preserves R (handler e)) ->
  preserves R (tryCatch body handler).
Proof.
  intros Hb Hh s r s'. unfold tryCatch.
  destruct (body s) as [[a|e] s1] eqn:Hbs; intros H.
  - inversion H; subst. eapply Hb; exact Hbs.
  - eapply R_trans; [eapply Hb; exact Hbs|eapply Hh; exact H].
Qed.

(** [retry] keeps what the operation keeps. *)
Lemma preserves_retry_loop {A : Type} (fn : Comp St A) (maxRetries : Z)
    (initialDelay : Q) (shouldRetry : JsError -> bool) (random : nat -> Q) :
  preserves R fn ->
  forall fuel retries lastError s r s' steps,
    retry_loop fn maxRetries initialDelay shouldRetry random fuel retries
      lastError s = (r, s', steps) ->
    R s s'.
Proof.
  intros Hfn. induction fuel as [|fuel IH]; intros retries lastError s r s' steps;
    simpl.
  - destruct (retries <? maxRetries); intros H; inversion H; subst; apply R_refl.
  - destruct (retries <? maxRetries);
      [|intros H; inversion H; subst; apply R_refl].
    destruct (fn s) as [[a|e] s1] eqn:Hfs.
    { intros H; inversion H; subst. eapply Hfn; exact Hfs. }
    destruct (negb (shouldRetry e) || (retries =? maxRetries - 1)).
    { intros H; inversion H; subst. eapply Hfn; exact Hfs. }
    destruct (retry_loop fn maxRetries initialDelay shouldRetry random fuel
                (retries + 1) (Some e) s1) as [[r2 s2] steps2] eqn:Hrec.
    intros H; inversion H; subst.
    eapply R_trans; [eapply Hfn; exact Hfs|eapply IH; exact Hrec].
Qed.

(** With a budget of at least one attempt, [retry] starts by a call of the
    operation. *)
Lemma retry_first_attempt {A : Type} (fn : Comp St A) (maxRetries : Z)
    (initialDelay : Q) (shouldRetry : JsError -> bool) (random : nat -> Q)
    (s : St) (r : completion A) (s' : St) (steps : list RetryStep) :
  preserves R fn ->
  0 < maxRetries ->
  retry fn maxRetries initialDelay shouldRetry random s = (r, s', steps) ->
  exists r1 s1, fn s = (r1, s1) /\ R s1 s'.
Proof.
  intros Hfn Hmax. unfold retry.
  destruct (Z.to_nat maxRetries) as [|fuel] eqn:Hfuel; [lia|].
  cbn [retry_loop].
  replace (0 <? maxRetries) with true by (symmetry; apply Z.ltb_lt; lia).
  destruct (fn s) as [[a|e] s1] eqn:Hfs.
  { intros H; inversion H; subst. eexists _, _. split; [reflexivity|apply R_refl]. }
  destruct (negb (shouldRetry e) || (0 =? maxRetries - 1)).
  { intros H; inversion H; subst. eexists _, _. split; [reflexivity|apply R_refl]. }
  destruct (retry_loop fn maxRetries initialDelay shouldRetry random fuel
              (0 + 1) (Some e) s1) as [[r2 s2] steps2] eqn:Hrec.
  intros H; inversion H; subst. eexists _, _. split; [reflexivity|].
  eapply preserves_retry_loop; eassumption.
Qed.

End Preserves.

(** ** What a step on the call [callId] leaves alone *)

Lemma touches_refl (callId : string) (w : Monitor) : touches callId w w.
Proof.
  split; try reflexivity; exists []; rewrite app_nil_r; reflexivity.
Qed.

Lemma touches_trans (callId : string) (w1 w2 w3 : Monitor) :
  touches callId w1 w2 -> touches callId w2 w3 -> touches callId w1 w3.
Proof.
  intros [O1 K1 L1 [e1 E1] [f1 F1] [t1 T1]] [O2 K2 L2 [e2 E2] [f2 F2] [t2 T2]].
  split.
  - intros k Hk. rewrite O2, O1 by assumption. reflexivity.
  - congruence.
  - congruence.
  - exists (e1 ++ e2). rewrite E2, E1, app_assoc. reflexivity.
  - exists (f1 ++ f2). rewrite F2, F1, app_assoc. reflexivity.
  - exists (t1 ++ t2). rewrite T2, T1, app_assoc. reflexivity.
Qed.


Section Touches.
Variable env : Env.
Variable callId : string.

Local Abbreviation keeps := (preserves (touches callId)).

Lemma keeps_ret {A : Type} (a : A) : keeps (ret a).
Proof. apply preserves_ret, touches_refl. Qed.

Lemma keeps_throw {A : Type} (e : JsError) : keeps (@throw Monitor A e).
Proof. apply preserves_throw, touches_refl. Qed.

Lemma keeps_gets {A : Type} (f : Monitor -> A) : keeps (gets f).
Proof. apply preserves_gets, touches_refl. Qed.

Lemma keeps_bind {A B : Type} (m : Comp Monitor A) (k : A -> Comp Monitor B) :
  keeps m -> (forall a, keeps (k a)) -> keeps (bind m k).
Proof. apply preserves_bind, touches_trans. Qed.

Lemma keeps_tryCatch {A : Type} (body : Comp Monitor A)
    (handler : JsError -> Comp Monitor A) :
  keeps body -> (forall e, keeps (handler e)) -> keeps (tryCatch body handler).
Proof. apply preserves_tryCatch, touches_trans. Qed.

Lemma newDate_touches : keeps (newDate env).
Proof. intros w r w' H; inversion H; subst. touches_field. Qed.

Lemma emit_touches (n : Notification) : keeps (emit n).
Proof.
  intros w r w'. unfold emit.
  destruct n; try (intros H; inversion H; subst; touches_field).
  destruct (Nat.eqb (errorListeners w) O); intros H; inversion H; subst;
    touches_field.
Qed.

Lemma consoleError_touches (e : JsError) : keeps (consoleError e).
Proof. intros w r w' H; inversion H; subst. touches_field. Qed.

Lemma setTimer_touches (t : Timer) : keeps (setTimer t).
Proof. intros w r w' H; inversion H; subst. touches_field. Qed.

Lemma fetchCall_touches (k : string) : keeps (fetchCall env k).
Proof. intros w r w' H; inversion H; subst. touches_field. Qed.

Lemma storeCall_touches (c : CallData.t) : keeps (storeCall callId c).
Proof.
  intros w r w' H; inversion H; subst. split; simpl;
    try reflexivity; try (exists []; rewrite app_nil_r; reflexivity).
  - intros k Hk. unfold getCall; simpl.
    apply CallMap_get_replace_other. exact Hk.
  - apply CallMap_keys_replace.
Qed.

Lemma reportError_touches (e : JsError) : keeps (reportError e).
Proof.
  unfold reportError. apply keeps_bind; [apply consoleError_touches|].
  intros _. apply emit_touches.
Qed.

Lemma retryFetch_touches (k : string) : keeps (retryFetch env k).
Proof.
  intros w r w'. unfold retryFetch, retry.
  destruct (retry_loop _ _ _ _ _ _ _ _ w) as [[r1 w1] steps] eqn:Hloop.
  intros H; inversion H; subst.
  eapply preserves_retry_loop in Hloop;
    [|apply touches_refl|apply touches_trans|apply fetchCall_touches].
  eapply touches_trans; [exact Hloop|]. touches_field.
Qed.

End Touches.


(** ** Event ingestion *)

Lemma alreadyProcessed_eventIds (event : Event.t) (callData : CallData.t) :
  alreadyProcessed event callData
  = existsb (fun i => String.eqb i (Event.id event)) (eventIds callData).
Proof.
  unfold alreadyProcessed, eventIds.
  induction (CallData.events callData) as [|e l IH]; simpl; [reflexivity|].
  rewrite IH. reflexivity.
Qed.

Section Ingestion.
Variable env : Env.
Variable callId : string.

(** Events that are all in the log already leave the monitor as it is. *)
Lemma processEvents_all_seen (events : list Event.t) (callData : CallData.t)
    (w : Monitor) :
  (forall e, In e events -> In (Event.id e) (eventIds callData)) ->
  processEvents env callId events callData w = (Return callData, w).
Proof.
  induction events as [|event rest IH]; intros Hseen; simpl; [reflexivity|].
  assert (Hev : alreadyProcessed event callData = true)
    by (apply alreadyProcessed_In, Hseen; left; reflexivity).
  rewrite Hev. apply IH. intros e He. apply Hseen. right. exact He.
Qed.

Lemma processEvents_touches (events : list Event.t) :
  forall callData, preserves (touches callId) (processEvents env callId events callData).
Proof.
  induction events as [|event rest IH]; intros callData; simpl.
  - apply keeps_ret.
  - destruct (alreadyProcessed event callData); [apply IH|].
    destruct (bind (applyEventType event) (fun _ => pushEvent event) callData)
      as [[[]|e] callData1].
    + apply keeps_bind; [apply newDate_touches|]. intros now.
      apply keeps_bind; [apply storeCall_touches|]. intros _.
      apply keeps_bind; [apply emit_touches|]. intros _. apply IH.
    + apply keeps_bind; [apply storeCall_touches|]. intros _. apply keeps_throw.
Qed.

(** The record under [callId] after the loop: it has evolved from the one
    before, and a normal completion returns it, with every event of the
    batch in its log. *)
Lemma processEvents_record (events : list Event.t) :
  forall callData w r w',
    getCall callId w = Some callData ->
    processEvents env callId events callData w = (r, w') ->
    exists callData',
      getCall callId w' = Some callData'
      /\ evolves callData callData'
      /\ match r with
         | Return c =>
             c = callData'
             /\ forall e, In e events -> In (Event.id e) (eventIds callData')
         | Throw _ => True
         end.
Proof.
  induction events as [|event rest IH]; intros callData w r w' Hget; simpl.
  - intros H; inversion H; subst. exists callData.
    split; [exact Hget|]. split; [apply evolves_refl|].
    split; [reflexivity|intros e []].
  - destruct (alreadyProcessed event callData) eqn:Hseen.
    + intros H. destruct (IH _ _ _ _ Hget H) as [c' [Hc' [Hev Hr]]].
      exists c'. split; [exact Hc'|]. split; [exact Hev|].
      destruct r as [c|]; [|exact I]. destruct Hr as [Hc Hall].
      split; [exact Hc|]. intros e [He|He]; [|apply Hall, He].
      subst e. apply (evolves_ids _ _ Hev). apply alreadyProcessed_In, Hseen.
    + destruct (bind (applyEventType event) (fun _ => pushEvent event) callData)
        as [[[]|err] callData1] eqn:Hstep;
        apply handle_push_evolves in Hstep; destruct Hstep as [Hev1 Hids].
      * unfold bind at 1. unfold newDate at 1.
        unfold bind at 1. unfold storeCall at 1, modify at 1.
        unfold bind at 1. unfold emit at 1.
        set (callData2 := CallData.setLastUpdated _ callData1).
        set (w2 := setEmitted _ _).
        assert (Hget2 : getCall callId w2 = Some callData2).
        { unfold getCall, w2; simpl. apply CallMap_get_replace_same.
          apply CallMap_has_get. exists callData. exact Hget. }
        assert (Hev2 : evolves callData callData2).
        { eapply evolves_trans; [exact Hev1|]. split; simpl; auto using incl_refl. }
        intros H. destruct (IH _ _ _ _ Hget2 H) as [c' [Hc' [Hev Hr]]].
        exists c'. split; [exact Hc'|].
        split; [eapply evolves_trans; eassumption|].
        destruct r as [c|]; [|exact I]. destruct Hr as [Hc Hall].
        split; [exact Hc|]. intros e [He|He]; [|apply Hall, He].
        subst e. apply (evolves_ids _ _ Hev).
        change (eventIds callData2) with (eventIds callData1).
        rewrite Hids. apply in_or_app. right. left. reflexivity.
      * unfold bind, storeCall, modify, throw.
        intros H; inversion H; subst. exists callData1.
        split; [|split; [exact Hev1|exact I]].
        unfold getCall; simpl. apply CallMap_get_replace_same.
        apply CallMap_has_get. exists callData. exact Hget.
Qed.

(** When every event carries the payload its handler reads, the loop
    completes normally; it emits one notification per event that was not in
    the log, in order, and nothing else. *)
Lemma processEvents_emitted (events : list Event.t) :
  forall callData w,
    (forall e, In e events -> hasPayload e = true) ->
    exists callData' w',
      processEvents env callId events callData w = (Return callData', w')
      /\ emitted w'
         = emitted w
           ++ map (CallEvent callId) (freshEvents (eventIds callData) events).
Proof.
  induction events as [|event rest IH]; intros callData w Hpay; simpl.
  - exists callData, w. split; [reflexivity|]. rewrite app_nil_r. reflexivity.
  - rewrite <- alreadyProcessed_eventIds.
    destruct (alreadyProcessed event callData) eqn:Hseen.
    + apply IH. intros e He. apply Hpay. right. exact He.
    + destruct (applyEventType_hasPayload event callData
                  (Hpay event (or_introl eq_refl))) as [c1 Hc1].
      assert (Hstep : bind (applyEventType event) (fun _ => pushEvent event) callData
                      = (Return tt,
                         CallData.setEvents
                           (CallData.events c1 ++ [storedEvent event]) c1))
        by (unfold bind; rewrite Hc1; reflexivity).
      rewrite Hstep.
      pose proof (handle_push_evolves _ _ _ _ Hstep) as [_ Hids].
      unfold bind at 1. unfold newDate at 1.
      unfold bind at 1. unfold storeCall at 1, modify at 1.
      unfold bind at 1. unfold emit at 1.
      set (callData2 := CallData.setLastUpdated _ _).
      set (w2 := setEmitted _ _).
      destruct (IH callData2 w2) as [c' [w' [Hrun Hem]]].
      { intros e He. apply Hpay. right. exact He. }
      exists c', w'. split; [exact Hrun|].
      rewrite Hem. change (eventIds callData2) with
        (eventIds (CallData.setEvents (CallData.events c1 ++ [storedEvent event]) c1)).
      rewrite Hids. unfold w2; simpl. rewrite <- app_assoc. reflexivity.
Qed.

End Ingestion.

(** ** The sweep *)

Lemma skipn_length_app {A : Type} (l l' : list A) :
  skipn (length l) (l ++ l') = l'.
Proof. induction l as [|x l IH]; simpl; [reflexivity|exact IH]. Qed.

Section Sweep.
Variable env : Env.

Lemma processCallEvents_touches (callId : string) (events : list Event.t) :
  preserves (touches callId) (_processCallEvents env callId events).
Proof.
  unfold _processCallEvents. apply keeps_bind; [apply keeps_gets|].
  intros [callData|]; [|apply keeps_ret].
  apply keeps_bind; [apply processEvents_touches|].
  intros callData1. apply emit_touches.
Qed.

Lemma applySnapshot_touches (callId : string) (callData : CallData.t)
    (call : Snapshot.t) :
  preserves (touches callId) (applySnapshot env callId callData call).
Proof.
  unfold applySnapshot. apply keeps_bind.
  { destruct (negb (String.eqb (Snapshot.status call) (CallData.status callData)));
      [|apply keeps_ret].
    apply keeps_bind; [apply storeCall_touches|]. intros _.
    apply keeps_bind; [apply newDate_touches|]. intros now.
    apply keeps_bind; [apply emit_touches|]. intros _. apply keeps_ret. }
  intros callData1. apply keeps_bind.
  { destruct (Snapshot.events call) as [[|event events]|];
      [apply keeps_ret|apply processCallEvents_touches|apply keeps_ret]. }
  intros _. apply keeps_bind; [apply keeps_gets|]. intros current.
  destruct (String.eqb (Snapshot.status call) statusCompleted
            && negb (String.eqb
                       (CallData.status
                          match current with Some c => c | None => callData1 end)
                       statusCompleted));
    [|apply keeps_ret].
  apply keeps_bind; [apply setTimer_touches|]. intros _. apply keeps_ret.
Qed.

Lemma pollCall_touches (callId : string) (callData : CallData.t) :
  preserves (touches callId) (pollCall env callId callData).
Proof.
  unfold pollCall. apply keeps_bind; [apply retryFetch_touches|].
  intros call. apply applySnapshot_touches.
Qed.

Lemma monitorCall_touches (callId : string) :
  preserves (touches callId) (monitorCall env callId).
Proof.
  unfold monitorCall. apply keeps_bind; [apply keeps_gets|].
  intros [callData|]; [|apply keeps_ret].
  destruct (String.eqb (CallData.status callData) statusCompleted);
    [apply keeps_ret|].
  apply keeps_tryCatch; [apply pollCall_touches|apply reportError_touches].
Qed.

(** A call whose cached status is completed is skipped. *)
Lemma monitorCall_completed (callId : string) (callData : CallData.t)
    (w : Monitor) :
  getCall callId w = Some callData ->
  CallData.status callData = statusCompleted ->
  monitorCall env callId w = (Return tt, w).
Proof.
  intros Hget Hst. unfold monitorCall, bind, gets. rewrite Hget, Hst.
  reflexivity.
Qed.

(** With a listener for ['error'], the handler of a [catch] block returns. *)
Lemma reportError_returns (e : JsError) (w : Monitor) :
  errorListeners w <> O ->
  reportError e w
  = (Return tt,
     setEmitted (emitted w ++ [ErrorEvent e])
       (setConsoleErrors (consoleErrors w ++ [e]) w)).
Proof.
  intros Hl. unfold reportError, bind, consoleError, modify, emit. simpl.
  destruct (errorListeners w); [congruence|reflexivity].
Qed.

(** Without one, it throws the error it was given. *)
Lemma reportError_throws (e : JsError) (w : Monitor) :
  errorListeners w = O ->
  reportError e w = (Throw e, setConsoleErrors (consoleErrors w ++ [e]) w).
Proof.
  intros Hl. unfold reportError, bind, consoleError, modify, emit. simpl.
  rewrite Hl. reflexivity.
Qed.

Lemma monitorCall_returns (callId : string) (w : Monitor) :
  errorListeners w <> O ->
  exists w', monitorCall env callId w = (Return tt, w').
Proof.
  intros Hl. unfold monitorCall, bind at 1, gets.
  destruct (getCall callId w) as [callData|]; [|eexists; reflexivity].
  destruct (String.eqb (CallData.status callData) statusCompleted);
    [eexists; reflexivity|].
  unfold tryCatch.
  destruct (pollCall env callId callData w) as [[[]|e] w1] eqn:Hpoll;
    [eexists; reflexivity|].
  apply pollCall_touches in Hpoll.
  rewrite reportError_returns; [eexists; reflexivity|].
  rewrite (touches_listeners _ _ _ Hpoll). exact Hl.
Qed.

(** The fetch of a call starts with a call of [vapi.calls.get] for it. *)
Lemma retryFetch_fetched (callId : string) (w : Monitor)
    (r : completion Snapshot.t) (w' : Monitor) :
  retryFetch env callId w = (r, w') ->
  exists l, fetched w' = fetched w ++ callId :: l.
Proof.
  unfold retryFetch.
  destruct (retry _ _ _ _ _ w) as [[r1 w1] steps] eqn:Hretry.
  intros H; inversion H; subst. simpl.
  eapply (retry_first_attempt (touches callId)) in Hretry;
    [|apply touches_refl|apply touches_trans|apply fetchCall_touches|lia].
  destruct Hretry as [r0 [w0 [Hfn Ht]]].
  unfold fetchCall in Hfn. inversion Hfn; subst.
  destruct (touches_fetched _ _ _ Ht) as [l Hl]. simpl in Hl.
  exists l. rewrite Hl, <- app_assoc. reflexivity.
Qed.

Lemma monitorCall_fetches (callId : string) (callData : CallData.t)
    (w : Monitor) (r : completion unit) (w' : Monitor) :
  getCall callId w = Some callData ->
  CallData.status callData <> statusCompleted ->
  monitorCall env callId w = (r, w') ->
  exists l, fetched w' = fetched w ++ callId :: l.
Proof.
  intros Hget Hst. unfold monitorCall, bind at 1, gets. rewrite Hget.
  destruct (String.eqb (CallData.status callData) statusCompleted) eqn:Heq;
    [apply String.eqb_eq in Heq; congruence|].
  unfold tryCatch, pollCall, bind.
  destruct (retryFetch env callId w) as [[call|e] w1] eqn:Hfetch;
    apply retryFetch_fetched in Hfetch; destruct Hfetch as [l1 Hl1].
  - destruct (applySnapshot env callId callData call w1) as [[[]|e] w2] eqn:Happly;
      apply applySnapshot_touches in Happly;
      destruct (touches_fetched _ _ _ Happly) as [l2 Hl2].
    + intros H; inversion H; subst. exists (l1 ++ l2).
      rewrite Hl2, Hl1, <- app_assoc. reflexivity.
    + intros H. apply reportError_touches with (callId := callId) in H.
      destruct (touches_fetched _ _ _ H) as [l3 Hl3].
      exists (l1 ++ l2 ++ l3).
      rewrite Hl3, Hl2, Hl1, <- !app_assoc. reflexivity.
  - intros H. apply reportError_touches with (callId := callId) in H.
    destruct (touches_fetched _ _ _ H) as [l3 Hl3].
    exists (l1 ++ l3). rewrite Hl3, Hl1, <- app_assoc. reflexivity.
Qed.

(** What any number of per-call steps leaves alone. *)
Lemma forEachCall_grows (callIds : list string) :
  forall w r w',
    forEachCall env callIds w = (r, w') ->
    errorListeners w' = errorListeners w
    /\ (exists l, fetched w' = fetched w ++ l)
    /\ (forall k, ~ In k callIds -> getCall k w' = getCall k w).
Proof.
  induction callIds as [|callId rest IH]; intros w r w'; simpl.
  - intros H; inversion H; subst. split; [reflexivity|].
    split; [exists []; rewrite app_nil_r; reflexivity|reflexivity].
  - unfold bind.
    destruct (monitorCall env callId w) as [[[]|e] w1] eqn:Hone;
      apply monitorCall_touches in Hone;
      destruct (touches_fetched _ _ _ Hone) as [l1 Hl1].
    + intros H. apply IH in H. destruct H as [HL [[l2 Hl2] HO]].
      split; [rewrite HL; apply (touches_listeners _ _ _ Hone)|].
      split; [exists (l1 ++ l2); rewrite Hl2, Hl1, app_assoc; reflexivity|].
      intros k Hk. rewrite HO by tauto.
      apply (touches_others _ _ _ Hone). intros ->. tauto.
    + intros H; inversion H; subst.
      split; [apply (touches_listeners _ _ _ Hone)|].
      split; [exists l1; exact Hl1|].
      intros k Hk. apply (touches_others _ _ _ Hone). intros ->. tauto.
Qed.

Lemma forEachCall_returns (callIds : list string) :
  forall w, errorListeners w <> O ->
            exists w', forEachCall env callIds w = (Return tt, w').
Proof.
  induction callIds as [|callId rest IH]; intros w Hl; simpl.
  - eexists; reflexivity.
  - unfold bind. destruct (monitorCall_returns callId w Hl) as [w1 Hone].
    rewrite Hone. apply IH.
    apply monitorCall_touches in Hone.
    rewrite (touches_listeners _ _ _ Hone). exact Hl.
Qed.

(** A record whose status is completed goes through the loop untouched,
    however the loop ends. *)
Lemma forEachCall_keeps_completed (callId : string) (callData : CallData.t)
    (callIds : list string) :
  CallData.status callData = statusCompleted ->
  forall w r w',
    getCall callId w = Some callData ->
    forEachCall env callIds w = (r, w') ->
    getCall callId w' = Some callData.
Proof.
  intros Hst. induction callIds as [|k rest IH]; intros w r w' Hget; simpl.
  - intros H; inversion H; subst. exact Hget.
  - unfold bind. destruct (monitorCall env k w) as [[[]|e] w1] eqn:Hone.
    + assert (Hget1 : getCall callId w1 = Some callData).
      { destruct (String.eqb k callId) eqn:Hk.
        - apply String.eqb_eq in Hk. subst k.
          rewrite (monitorCall_completed callId callData w Hget Hst) in Hone.
          inversion Hone; subst. exact Hget.
        - apply String.eqb_neq in Hk. apply monitorCall_touches in Hone.
          rewrite (touches_others _ _ _ Hone) by congruence. exact Hget. }
      intros H. eapply IH; eassumption.
    + intros H; inversion H; subst.
      destruct (String.eqb k callId) eqn:Hk.
      * apply String.eqb_eq in Hk. subst k.
        rewrite (monitorCall_completed callId callData w Hget Hst) in Hone.
        discriminate.
      * apply String.eqb_neq in Hk. apply monitorCall_touches in Hone.
        rewrite (touches_others _ _ _ Hone) by congruence. exact Hget.
Qed.

(** Every call of the list that is tracked and not completed when the loop
    starts is fetched, when the loop reaches its end. *)
Lemma forEachCall_fetches (callId : string) (callData : CallData.t)
    (callIds : list string) :
  CallData.status callData <> statusCompleted ->
  In callId callIds ->
  forall w w',
    getCall callId w = Some callData ->
    forEachCall env callIds w = (Return tt, w') ->
    In callId (fetchedAfter w w').
Proof.
  intros Hst. induction callIds as [|k rest IH]; intros Hin w w' Hget;
    [destruct Hin|]. simpl. unfold bind.
  destruct (monitorCall env k w) as [[[]|e] w1] eqn:Hone; [|discriminate].
  intros Hrest.
  destruct (String.eqb k callId) eqn:Hk.
  - apply String.eqb_eq in Hk. subst k.
    destruct (monitorCall_fetches _ _ _ _ _ Hget Hst Hone) as [l1 Hl1].
    apply forEachCall_grows in Hrest. destruct Hrest as [_ [[l2 Hl2] _]].
    unfold fetchedAfter. rewrite Hl2, Hl1, <- app_assoc, skipn_length_app.
    apply in_or_app. left. left. reflexivity.
  - apply String.eqb_neq in Hk.
    assert (Hin' : In callId rest) by (destruct Hin; [congruence|assumption]).
    apply monitorCall_touches in Hone.
    assert (Hget1 : getCall callId w1 = Some callData)
      by (rewrite (touches_others _ _ _ Hone) by congruence; exact Hget).
    specialize (IH Hin' w1 w' Hget1 Hrest).
    destruct (touches_fetched _ _ _ Hone) as [l1 Hl1].
    pose proof (forEachCall_grows _ _ _ _ Hrest) as [_ [[l2 Hl2] _]].
    unfold fetchedAfter in *. rewrite Hl2, Hl1 in *.
    rewrite <- app_assoc, skipn_length_app.
    rewrite skipn_length_app in IH. apply in_or_app. right. exact IH.
Qed.

End Sweep.

(* ------------------------------------------------------------------ *)
(** ** The registry *)

Lemma addCall_tracked (env : Env) (callId : string) (metadata : Metadata)
    (w : Monitor) :
  CallMap.has callId (activeCalls w) = true ->
  addCall env callId metadata w = (Return None, w).
Proof.
  intros Hhas. unfold addCall, bind, gets. rewrite Hhas. reflexivity.
Qed.

(** C3, as the code has it.  Registering a call id that is tracked leaves
    the monitor as it is, the record of the id included, and emits nothing;
    the call of [addCall] returns [undefined], not the record. *)
Theorem addCall_tracked_is_noop (env : Env) (callId : string)
    (metadata : Metadata) (w : Monitor) (callData : CallData.t) :
  getCall callId w = Some callData ->
  addCall env callId metadata w = (Return None, w)
  /\ getCall callId (snd (addCall env callId metadata w)) = Some callData
  /\ activeCalls (snd (addCall env callId metadata w)) = activeCalls w.
Proof.
  intros Hget.
  assert (H : addCall env callId metadata w = (Return None, w)).
  { apply addCall_tracked. apply CallMap_has_get. exists callData. exact Hget. }
  rewrite H. simpl. auto.
Qed.

Lemma addCall_tracked_is_noop_witness :
  getCall "c1" (Scenario.registered Scenario.envNotFound)
  = Some (CallData.mk "c1" [] statusInitializing [] 0 1 None None None None
            (Analytics.mk 0 0 0 []))
  /\ addCall Scenario.envNotFound "c1" [("k", "v")]
       (Scenario.registered Scenario.envNotFound)
     = (Return None, Scenario.registered Scenario.envNotFound).
Proof.
  split; [reflexivity|].
  apply (addCall_tracked_is_noop Scenario.envNotFound "c1" [("k", "v")]
           (Scenario.registered Scenario.envNotFound)
           (CallData.mk "c1" [] statusInitializing [] 0 1 None None None None
              (Analytics.mk 0 0 0 []))).
  reflexivity.
Defined.

(** C3, as stated, fails: on a monitor that tracks [c1], [addCall] for
    [c1] does not return the record of [c1]. *)
Lemma addCall_tracked_returns_no_record :
  ~ (exists callData,
       getCall "c1" (Scenario.registered Scenario.envNotFound) = Some callData
       /\ fst (addCall Scenario.envNotFound "c1" []
                 (Scenario.registered Scenario.envNotFound))
          = Return (Some callData)).
Proof.
  intros [callData [_ H]].
  rewrite addCall_tracked in H by reflexivity. discriminate.
Qed.

(* ------------------------------------------------------------------ *)
(** ** Ingestion of events *)

Lemma processCallEvents_all_seen (env : Env) (callId : string)
    (events : list Event.t) (w : Monitor) (callData : CallData.t) :
  getCall callId w = Some callData ->
  (forall e, In e events -> In (Event.id e) (eventIds callData)) ->
  _processCallEvents env callId events w
  = (Return tt, setEmitted (emitted w ++ [CallUpdated callData]) w).
Proof.
  intros Hget Hseen. unfold _processCallEvents, bind at 1, gets.
  rewrite Hget. unfold bind.
  rewrite processEvents_all_seen by exact Hseen. reflexivity.
Qed.

(** C7.  A batch in which every event has the id of an entry of the log
    leaves the monitor as it is, up to the ['call:updated'] notification
    that ends every ingestion: the record of the call (log, analytics,
    status, timestamps) and the map of calls are the same after as before. *)
Theorem redelivered_events_change_nothing (env : Env) (callId : string)
    (events : list Event.t) (w : Monitor) (callData : CallData.t) :
  getCall callId w = Some callData ->
  (forall e, In e events -> In (Event.id e) (eventIds callData)) ->
  _processCallEvents env callId events w
  = (Return tt, setEmitted (emitted w ++ [CallUpdated callData]) w)
  /\ getCall callId (snd (_processCallEvents env callId events w))
     = Some callData
  /\ activeCalls (snd (_processCallEvents env callId events w))
     = activeCalls w.
Proof.
  intros Hget Hseen.
  rewrite (processCallEvents_all_seen env callId events w callData Hget Hseen).
  simpl. auto.
Qed.

Lemma redelivered_events_change_nothing_witness :
  getCall "c1" (Scenario.answeredOnce Scenario.envNotFound)
  = Some Scenario.answeredRecord
  /\ (forall e, In e [Scenario.answered 1000] ->
                In (Event.id e) (eventIds Scenario.answeredRecord))
  /\ getCall "c1"
       (snd (_processCallEvents Scenario.envNotFound "c1"
               [Scenario.answered 1000]
               (Scenario.answeredOnce Scenario.envNotFound)))
     = Some Scenario.answeredRecord.
Proof.
  assert (Hseen : forall e, In e [Scenario.answered 1000] ->
                            In (Event.id e) (eventIds Scenario.answeredRecord)).
  { intros e [He|[]]. subst e. left. reflexivity. }
  split; [reflexivity|]. split; [exact Hseen|].
  exact (proj1 (proj2 (redelivered_events_change_nothing Scenario.envNotFound
                         "c1" [Scenario.answered 1000]
                         (Scenario.answeredOnce Scenario.envNotFound)
                         Scenario.answeredRecord eq_refl Hseen))).
Defined.

(** Delivering a batch a second time, after it was processed, changes
    nothing more. *)
Lemma redelivered_batch_changes_nothing (env : Env) (callId : string)
    (events : list Event.t) (w w1 : Monitor) (callData : CallData.t) :
  getCall callId w = Some callData ->
  _processCallEvents env callId events w = (Return tt, w1) ->
  exists callData1,
    getCall callId w1 = Some callData1
    /\ _processCallEvents env callId events w1
       = (Return tt, setEmitted (emitted w1 ++ [CallUpdated callData1]) w1).
Proof.
  intros Hget. unfold _processCallEvents at 1, bind at 1, gets.
  rewrite Hget. unfold bind at 1.
  destruct (processEvents env callId events callData w) as [[c|e] w2] eqn:Hrun;
    [|discriminate].
  destruct (processEvents_record env callId events _ _ _ _ Hget Hrun)
    as [c' [Hc' [_ [Hc Hall]]]]. subst c'.
  unfold emit. intros H; inversion H; subst.
  exists c. assert (Hget1 : getCall callId (setEmitted (emitted w2 ++ [CallUpdated c]) w2) = Some c)
    by exact Hc'.
  split; [exact Hget1|].
  apply processCallEvents_all_seen; assumption.
Qed.

(** C10.  For a call id that is not tracked, [_processCallEvents] returns
    without an error and leaves the whole monitor as it is: no record is
    created or changed and nothing is emitted. *)
Theorem processCallEvents_untracked_is_noop (env : Env) (callId : string)
    (events : list Event.t) (w : Monitor) :
  getCall callId w = None ->
  _processCallEvents env callId events w = (Return tt, w).
Proof.
  intros Hget. unfold _processCallEvents, bind, gets. rewrite Hget.
  reflexivity.
Qed.

Lemma processCallEvents_untracked_is_noop_witness :
  getCall "c9" (Scenario.registered Scenario.envNotFound) = None
  /\ _processCallEvents Scenario.envNotFound "c9"
       [Scenario.answered 1000; Scenario.transcribed 2000]
       (Scenario.registered Scenario.envNotFound)
     = (Return tt, Scenario.registered Scenario.envNotFound).
Proof.
  split; [reflexivity|].
  apply (processCallEvents_untracked_is_noop Scenario.envNotFound "c9"
           [Scenario.answered 1000; Scenario.transcribed 2000]
           (Scenario.registered Scenario.envNotFound)).
  reflexivity.
Defined.

Lemma no_status_changed_among_call_events (callId : string)
    (events : list Event.t) :
  filter isStatusChanged (map (CallEvent callId) events) = [].
Proof.
  induction events as [|e l IH]; simpl; [reflexivity|exact IH].
Qed.

Lemma callEvent_names (callId : string) (events : list Event.t) :
  map notificationName (map (CallEvent callId) events)
  = map (fun e => ("call:" ++ Event.type e)%string) events.
Proof. rewrite map_map. reflexivity. Qed.

Lemma status_changed_name (type : string) :
  ("call:" ++ type)%string = "call:status_changed" <-> type = "status_changed".
Proof.
  split; intros H.
  - cbn [String.append] in H. inversion H. reflexivity.
  - subst type. reflexivity.
Qed.

(** The names under which ingestion emits: a notification goes out under
    the name ['call:status_changed'] exactly when one of the events
    notified has the type ['status_changed']. *)
Lemma status_changed_among_names (events : list Event.t) :
  In "call:status_changed"
    (map (fun e => ("call:" ++ Event.type e)%string) events ++ ["call:updated"])
  <-> exists e, In e events /\ Event.type e = "status_changed".
Proof.
  split.
  - intros H. apply in_app_or in H. destruct H as [H|[H|[]]];
      [|discriminate].
    apply in_map_iff in H. destruct H as [e [Hname Hin]].
    exists e. split; [exact Hin|]. apply status_changed_name. exact Hname.
  - intros [e [Hin Htype]]. apply in_or_app. left. apply in_map_iff.
    exists e. split; [|exact Hin]. apply status_changed_name. exact Htype.
Qed.

(** C4, as the code has it.  For a tracked call and a batch in which every
    event carries the payload its handler reads, [_processCallEvents]
    returns; it emits one notification for each event that was not in the
    log, in order, under the name ['call:<type>'] and carrying the call id
    and the event, and then one ['call:updated'] notification that carries
    the record as it is after the batch; it emits nothing else.  The
    notification of a status change, which carries the call id, the two
    statuses and a timestamp, is never among them, whether or not the
    status has changed; and nothing at all goes out under the name
    ['call:status_changed'], unless the batch itself delivers a new event
    whose type is ['status_changed'], which is notified as any event is. *)
Theorem ingestion_notifications (env : Env) (callId : string)
    (events : list Event.t) (w : Monitor) (callData : CallData.t) :
  getCall callId w = Some callData ->
  (forall e, In e events -> hasPayload e = true) ->
  exists callData' w',
    _processCallEvents env callId events w = (Return tt, w')
    /\ getCall callId w' = Some callData'
    /\ emitted w'
       = emitted w
         ++ map (CallEvent callId) (freshEvents (eventIds callData) events)
         ++ [CallUpdated callData']
    /\ filter isStatusChanged (emittedAfter w w') = []
    /\ map notificationName (emittedAfter w w')
       = map (fun e => ("call:" ++ Event.type e)%string)
           (freshEvents (eventIds callData) events)
         ++ ["call:updated"]
    /\ (In "call:status_changed" (map notificationName (emittedAfter w w'))
        <-> exists e,
              In e (freshEvents (eventIds callData) events)
              /\ Event.type e = "status_changed").
Proof.
  intros Hget Hpay.
  destruct (processEvents_emitted env callId events callData w Hpay)
    as [c' [w1 [Hrun Hem]]].
  destruct (processEvents_record env callId events _ _ _ _ Hget Hrun)
    as [c'' [Hc' [_ [Hc _]]]]. subst c''.
  exists c', (setEmitted (emitted w1 ++ [CallUpdated c']) w1).
  assert (Hemitted :
            emitted (setEmitted (emitted w1 ++ [CallUpdated c']) w1)
            = emitted w
              ++ map (CallEvent callId) (freshEvents (eventIds callData) events)
              ++ [CallUpdated c'])
    by (simpl; rewrite Hem, <- app_assoc; reflexivity).
  assert (Hnames :
            map notificationName
              (emittedAfter w (setEmitted (emitted w1 ++ [CallUpdated c']) w1))
            = map (fun e => ("call:" ++ Event.type e)%string)
                (freshEvents (eventIds callData) events)
              ++ ["call:updated"]).
  { unfold emittedAfter. rewrite Hemitted, skipn_length_app, map_app.
    rewrite callEvent_names. reflexivity. }
  split; [|split; [exact Hc'|split; [exact Hemitted|split; [|split]]]].
  - unfold _processCallEvents, bind at 1, gets. rewrite Hget.
    unfold bind. rewrite Hrun. reflexivity.
  - unfold emittedAfter. rewrite Hemitted, skipn_length_app, filter_app.
    rewrite no_status_changed_among_call_events. reflexivity.
  - exact Hnames.
  - rewrite Hnames. apply status_changed_among_names.
Qed.

Lemma ingestion_notifications_witness :
  getCall "c1" (Scenario.registered Scenario.envNotFound)
  = Some (CallData.mk "c1" [] statusInitializing [] 0 1 None None None None
            (Analytics.mk 0 0 0 []))
  /\ (forall e, In e [Scenario.answered 1000] -> hasPayload e = true)
  /\ exists callData' w',
       _processCallEvents Scenario.envNotFound "c1" [Scenario.answered 1000]
         (Scenario.registered Scenario.envNotFound) = (Return tt, w')
       /\ getCall "c1" w' = Some callData'
       /\ emitted w'
          = emitted (Scenario.registered Scenario.envNotFound)
            ++ map (CallEvent "c1")
                 (freshEvents
                    (eventIds
                       (CallData.mk "c1" [] statusInitializing [] 0 1 None None
                          None None (Analytics.mk 0 0 0 [])))
                    [Scenario.answered 1000])
            ++ [CallUpdated callData']
       /\ filter isStatusChanged
            (emittedAfter (Scenario.registered Scenario.envNotFound) w') = []
       /\ map notificationName
            (emittedAfter (Scenario.registered Scenario.envNotFound) w')
          = map (fun e => ("call:" ++ Event.type e)%string)
              (freshEvents
                 (eventIds
                    (CallData.mk "c1" [] statusInitializing [] 0 1 None None
                       None None (Analytics.mk 0 0 0 [])))
                 [Scenario.answered 1000])
            ++ ["call:updated"]
       /\ (In "call:status_changed"
             (map notificationName
                (emittedAfter (Scenario.registered Scenario.envNotFound) w'))
           <-> exists e,
                 In e (freshEvents
                         (eventIds
                            (CallData.mk "c1" [] statusInitializing [] 0 1 None
                               None None None (Analytics.mk 0 0 0 [])))
                         [Scenario.answered 1000])
                 /\ Event.type e = "status_changed").
Proof.
  assert (Hpay : forall e, In e [Scenario.answered 1000] -> hasPayload e = true).
  { intros e [He|[]]. subst e. reflexivity. }
  split; [reflexivity|]. split; [exact Hpay|].
  exact (ingestion_notifications Scenario.envNotFound "c1"
           [Scenario.answered 1000] (Scenario.registered Scenario.envNotFound)
           _ eq_refl Hpay).
Defined.

(** C4, as stated, fails: the answered event moves [c1] from initializing
    to in-progress; no notification of a status change is emitted, and
    nothing is emitted under the name ['call:status_changed']. *)
Lemma ingestion_emits_no_status_changed :
  Scenario.statusOf "c1" (Scenario.registered Scenario.envNotFound)
  = Some statusInitializing
  /\ Scenario.statusOf "c1" (Scenario.answeredOnce Scenario.envNotFound)
     = Some statusInProgress
  /\ ~ (exists from to timestamp,
          In (CallStatusChanged "c1" from to timestamp)
            (emitted (Scenario.answeredOnce Scenario.envNotFound)))
  /\ ~ In "call:status_changed"
         (map notificationName
            (emitted (Scenario.answeredOnce Scenario.envNotFound))).
Proof.
  split; [reflexivity|]. split; [reflexivity|]. split.
  - intros [from [to [timestamp H]]].
    assert (Hnone : filter isStatusChanged
                      (emitted (Scenario.answeredOnce Scenario.envNotFound))
                    = [])
      by (vm_compute; reflexivity).
    assert (Hin : In (CallStatusChanged "c1" from to timestamp)
                    (filter isStatusChanged
                       (emitted (Scenario.answeredOnce Scenario.envNotFound))))
      by (apply filter_In; split; [exact H|reflexivity]).
    rewrite Hnone in Hin. exact Hin.
  - assert (Hnames : existsb (String.eqb "call:status_changed")
                       (map notificationName
                          (emitted
                             (Scenario.answeredOnce Scenario.envNotFound)))
                     = false)
      by (vm_compute; reflexivity).
    intros Hin.
    assert (Hex : existsb (String.eqb "call:status_changed")
                    (map notificationName
                       (emitted (Scenario.answeredOnce Scenario.envNotFound)))
                  = true).
    { apply existsb_exists. eexists. split; [exact Hin|].
      apply String.eqb_refl. }
    rewrite Hnames in Hex. discriminate.
Qed.

(* ------------------------------------------------------------------ *)
(** ** The status of a record *)

Lemma reportError_activeCalls (e : JsError) (w : Monitor)
    (r : completion unit) (w' : Monitor) :
  reportError e w = (r, w') -> activeCalls w' = activeCalls w.
Proof.
  unfold reportError, bind, consoleError, modify, emit. simpl.
  destruct (errorListeners w); intros H; inversion H; subst; reflexivity.
Qed.

Lemma processCallEvents_record (env : Env) (callId : string)
    (events : list Event.t) (w : Monitor) (callData : CallData.t)
    (r : completion unit) (w' : Monitor) :
  getCall callId w = Some callData ->
  _processCallEvents env callId events w = (r, w') ->
  exists callData',
    getCall callId w' = Some callData' /\ evolves callData callData'.
Proof.
  intros Hget. unfold _processCallEvents, bind at 1, gets. rewrite Hget.
  unfold bind.
  destruct (processEvents env callId events callData w) as [[c|e] w1] eqn:Hrun;
    destruct (processEvents_record env callId events _ _ _ _ Hget Hrun)
      as [c' [Hc' [Hev _]]];
    intros H; inversion H; subst; exists c'; split; assumption.
Qed.

Lemma monitorCalls_keeps_completed (env : Env) (callId : string)
    (w : Monitor) (callData : CallData.t) (r : completion unit)
    (w' : Monitor) :
  getCall callId w = Some callData ->
  CallData.status callData = statusCompleted ->
  _monitorCalls env w = (r, w') ->
  getCall callId w' = Some callData.
Proof.
  intros Hget Hst. unfold _monitorCalls, bind at 1, gets.
  destruct (monitoringEnabled w); cbn [negb].
  - unfold tryCatch, bind, gets.
    destruct (forEachCall env (CallMap.keys (activeCalls w)) w)
      as [[[]|e] w1] eqn:Hloop;
      pose proof (forEachCall_keeps_completed env callId callData _ Hst
                    _ _ _ Hget Hloop) as Hget1.
    + intros H; inversion H; subst. exact Hget1.
    + intros H. apply reportError_activeCalls in H.
      unfold getCall in *. rewrite H. exact Hget1.
  - intros H; inversion H; subst. exact Hget.
Qed.

(** C1, as the code has it.  For a tracked call: (1) whatever the batch and
    however its processing ends, ingestion leaves the status as it was or
    makes it in-progress or completed, so it never brings a record back to
    initializing; (2) a sweep leaves a record whose status is completed as
    it is, however the sweep ends.  Nothing keeps ingestion from making a
    completed record in-progress, and a sweep gives a record that is not
    completed the status of the snapshot. *)
Theorem status_changes (env : Env) (callId : string) (w : Monitor)
    (callData : CallData.t) :
  getCall callId w = Some callData ->
  (forall events r w',
      _processCallEvents env callId events w = (r, w') ->
      exists callData',
        getCall callId w' = Some callData'
        /\ (CallData.status callData' = CallData.status callData
            \/ CallData.status callData' = statusInProgress
            \/ CallData.status callData' = statusCompleted))
  /\ (CallData.status callData = statusCompleted ->
      forall r w',
        _monitorCalls env w = (r, w') -> getCall callId w' = Some callData).
Proof.
  intros Hget. split.
  - intros events r w' Hrun.
    destruct (processCallEvents_record env callId events w callData r w'
                Hget Hrun) as [c' [Hc' Hev]].
    exists c'. split; [exact Hc'|apply (evolves_status _ _ Hev)].
  - intros Hst r w' Hrun.
    eapply monitorCalls_keeps_completed; eassumption.
Qed.

Lemma status_changes_witness :
  getCall "c1" (Scenario.answeredOnce Scenario.envNotFound)
  = Some Scenario.answeredRecord
  /\ exists callData',
       getCall "c1"
         (snd (_processCallEvents Scenario.envNotFound "c1"
                 [Scenario.ended 5000]
                 (Scenario.answeredOnce Scenario.envNotFound)))
       = Some callData'
       /\ (CallData.status callData' = CallData.status Scenario.answeredRecord
           \/ CallData.status callData' = statusInProgress
           \/ CallData.status callData' = statusCompleted).
Proof.
  split; [reflexivity|].
  refine (proj1 (status_changes Scenario.envNotFound "c1"
                   (Scenario.answeredOnce Scenario.envNotFound)
                   Scenario.answeredRecord eq_refl)
            [Scenario.ended 5000]
            (fst (_processCallEvents Scenario.envNotFound "c1"
                    [Scenario.ended 5000]
                    (Scenario.answeredOnce Scenario.envNotFound)))
            (snd (_processCallEvents Scenario.envNotFound "c1"
                    [Scenario.ended 5000]
                    (Scenario.answeredOnce Scenario.envNotFound)))
            _).
  apply surjective_pairing.
Defined.

(** C1, as stated, fails: after the ended event the status of [c1] is
    completed, and an answered event delivered afterwards, with an id that
    is not in the log, makes it in-progress again. *)
Lemma completed_returns_to_in_progress :
  Scenario.statusOf "c1" (Scenario.endedOnce Scenario.envNotFound)
  = Some statusCompleted
  /\ Scenario.statusOf "c1" (Scenario.answeredAfterEnded Scenario.envNotFound)
     = Some statusInProgress.
Proof. split; reflexivity. Qed.

(* ------------------------------------------------------------------ *)
(** ** Failures of a fetch during a sweep *)

(** In the sweep, a fetch answered by a 404 is not tried again: one call of
    [vapi.calls.get], no suspension, and the error is the one thrown. *)
Lemma retryFetch_not_found (env : Env) (callId : string) (w : Monitor)
    (e : JsError) :
  callsGet env callId (length (fetched w)) = Throw e ->
  responseStatus e = Some 404 ->
  fst (retryFetch env callId w) = Throw e
  /\ fetched (snd (retryFetch env callId w)) = fetched w ++ [callId]
  /\ slept (snd (retryFetch env callId w)) = slept w.
Proof.
  intros Hget Hst.
  assert (Hrej : shouldRetryFetch e = false)
    by (unfold shouldRetryFetch; rewrite Hst; reflexivity).
  assert (Hfn : fetchCall env callId w
                = (Throw e, setFetched (fetched w ++ [callId]) w))
    by (unfold fetchCall; rewrite Hget; reflexivity).
  unfold retryFetch.
  rewrite (retry_rejected_first (fetchCall env callId) 3 defaultInitialDelay
             shouldRetryFetch _ w _ e eq_refl Hfn Hrej).
  simpl. rewrite app_nil_r. auto.
Qed.

Lemma monitorCall_fetch_failure (env : Env) (callId : string) (w : Monitor)
    (callData : CallData.t) (e : JsError) (w1 : Monitor) :
  errorListeners w <> O ->
  getCall callId w = Some callData ->
  CallData.status callData <> statusCompleted ->
  retryFetch env callId w = (Throw e, w1) ->
  monitorCall env callId w
  = (Return tt,
     setEmitted (emitted w1 ++ [ErrorEvent e])
       (setConsoleErrors (consoleErrors w1 ++ [e]) w1)).
Proof.
  intros Hl Hget Hst Hfetch. unfold monitorCall, bind at 1, gets.
  rewrite Hget.
  destruct (String.eqb (CallData.status callData) statusCompleted) eqn:Heq;
    [apply String.eqb_eq in Heq; congruence|].
  unfold tryCatch, pollCall, bind. rewrite Hfetch.
  apply reportError_returns.
  apply retryFetch_touches with (callId := callId) in Hfetch.
  rewrite (touches_listeners _ _ _ Hfetch). exact Hl.
Qed.

Lemma monitorCalls_returns (env : Env) (w : Monitor) :
  errorListeners w <> O ->
  exists w',
    _monitorCalls env w = (Return tt, w')
    /\ (monitoringEnabled w = true ->
        forEachCall env (CallMap.keys (activeCalls w)) w = (Return tt, w')).
Proof.
  intros Hl. unfold _monitorCalls, bind at 1, gets.
  destruct (monitoringEnabled w); cbn [negb].
  - unfold tryCatch, bind, gets.
    destruct (forEachCall_returns env (CallMap.keys (activeCalls w)) w Hl)
      as [w' Hloop].
    rewrite Hloop. exists w'. split; reflexivity.
  - exists w. split; [reflexivity|discriminate].
Qed.

(** C9, as the code has it.  When a listener is subscribed to ['error']:
    (1) a sweep returns, it never throws; (2) a sweep of an enabled monitor
    fetches every call that is tracked and not completed when it starts,
    whatever happened to the calls before it in the map; (3) for a call
    whose fetch throws [e] once [retry] has given up, the step of the loop
    logs [e], emits the ['error'] notification carrying [e], and returns,
    so that the loop goes on with the next call. *)
Theorem sweep_survives_fetch_failures (env : Env) (w : Monitor) :
  errorListeners w <> O ->
  (exists w',
      _monitorCalls env w = (Return tt, w')
      /\ (monitoringEnabled w = true ->
          forall callId callData,
            getCall callId w = Some callData ->
            CallData.status callData <> statusCompleted ->
            In callId (fetchedAfter w w')))
  /\ (forall callId callData e w1,
         getCall callId w = Some callData ->
         CallData.status callData <> statusCompleted ->
         retryFetch env callId w = (Throw e, w1) ->
         monitorCall env callId w
         = (Return tt,
            setEmitted (emitted w1 ++ [ErrorEvent e])
              (setConsoleErrors (consoleErrors w1 ++ [e]) w1))).
Proof.
  intros Hl. split.
  - destruct (monitorCalls_returns env w Hl) as [w' [Hrun Hloop]].
    exists w'. split; [exact Hrun|].
    intros Hen callId callData Hget Hst.
    eapply forEachCall_fetches;
      [exact Hst|eapply CallMap_get_In_keys; exact Hget|exact Hget
      |exact (Hloop Hen)].
  - intros callId callData e w1 Hget Hst Hfetch.
    eapply monitorCall_fetch_failure; eassumption.
Qed.

Lemma sweep_survives_fetch_failures_witness :
  errorListeners (Scenario.registeredTwoListening Scenario.envServerError) <> O
  /\ exists w',
       _monitorCalls Scenario.envServerError
         (Scenario.registeredTwoListening Scenario.envServerError)
       = (Return tt, w')
       /\ (monitoringEnabled
             (Scenario.registeredTwoListening Scenario.envServerError) = true ->
           forall callId callData,
             getCall callId
               (Scenario.registeredTwoListening Scenario.envServerError)
             = Some callData ->
             CallData.status callData <> statusCompleted ->
             In callId
               (fetchedAfter
                  (Scenario.registeredTwoListening Scenario.envServerError) w')).
Proof.
  assert (Hl : errorListeners
                 (Scenario.registeredTwoListening Scenario.envServerError) <> O)
    by discriminate.
  split; [exact Hl|].
  exact (proj1 (sweep_survives_fetch_failures Scenario.envServerError
                  (Scenario.registeredTwoListening Scenario.envServerError)
                  Hl)).
Defined.

(** C9, as stated, fails: with no listener for ['error'], the failure of
    the fetch of [c1] is thrown out of the sweep, and [c2], which is tracked
    and not completed, is not fetched. *)
Lemma sweep_aborted_without_error_listener :
  fst (_monitorCalls Scenario.envServerError
         (Scenario.registeredTwo Scenario.envServerError))
  = Throw Scenario.serverError
  /\ Scenario.statusOf "c2" (Scenario.registeredTwo Scenario.envServerError)
     = Some statusInitializing
  /\ fetched (snd (_monitorCalls Scenario.envServerError
                     (Scenario.registeredTwo Scenario.envServerError)))
     = ["c1"; "c1"; "c1"].
Proof. repeat split; vm_compute; reflexivity. Qed.

(* ------------------------------------------------------------------ *)
(** ** Removal after completion *)

(** A snapshot that reports completed and carries no event schedules no
    removal: the status of the record has been made completed before it is
    compared with completed. *)
Lemma applySnapshot_completed_schedules_nothing (env : Env) (callId : string)
    (w : Monitor) (callData : CallData.t) (call : Snapshot.t) :
  getCall callId w = Some callData ->
  Snapshot.status call = statusCompleted ->
  Snapshot.events call = None \/ Snapshot.events call = Some [] ->
  exists w',
    applySnapshot env callId callData call w = (Return tt, w')
    /\ timers w' = timers w
    /\ Scenario.statusOf callId w' = Some statusCompleted.
Proof.
  intros Hget Hst Hev. unfold applySnapshot. rewrite Hst.
  assert (Hhas : CallMap.has callId (activeCalls w) = true)
    by (apply CallMap_has_get; exists callData; exact Hget).
  assert (Hevents :
            match Snapshot.events call with
            | Some (event :: events) =>
                _processCallEvents env callId (event :: events)
            | _ => ret tt
            end = ret tt)
    by (destruct Hev as [Hev|Hev]; rewrite Hev; reflexivity).
  rewrite Hevents. clear Hevents.
  destruct (String.eqb statusCompleted (CallData.status callData)) eqn:Heq;
    cbn [negb].
  - apply String.eqb_eq in Heq.
    unfold bind, ret, gets. rewrite Hget, <- Heq, String.eqb_refl.
    cbn [negb andb]. exists w.
    split; [reflexivity|]. split; [reflexivity|].
    unfold Scenario.statusOf. rewrite Hget. simpl. congruence.
  - unfold bind, ret, gets, storeCall, modify, newDate, emit.
    unfold getCall.
    cbn [activeCalls setEmitted setDateReads setActiveCalls].
    rewrite (CallMap_get_replace_same callId _ (activeCalls w) Hhas).
    cbn [CallData.status CallData.setStatus]. rewrite String.eqb_refl.
    cbn [negb andb]. eexists. split; [reflexivity|].
    split; [reflexivity|].
    unfold Scenario.statusOf.
    unfold getCall.
    cbn [activeCalls setEmitted setDateReads setActiveCalls].
    rewrite (CallMap_get_replace_same callId _ (activeCalls w) Hhas).
    reflexivity.
Qed.

(** C2, on the code.  The monitor tracks [c1], in progress; the remote
    reports it completed.  After a sweep the record of [c1] is completed and
    still in the map, and no removal has been scheduled: the only timer is
    the sweep itself. *)
Theorem completed_snapshot_schedules_no_removal :
  Scenario.statusOf "c1" (Scenario.answeredOnce Scenario.envCompleted)
  = Some statusInProgress
  /\ fetched Scenario.sweptCompleted = ["c1"]
  /\ Scenario.statusOf "c1" Scenario.sweptCompleted = Some statusCompleted
  /\ timers Scenario.sweptCompleted = [SweepEvery 5000]
  /\ filter isRemoval (timers Scenario.sweptCompleted) = [].
Proof. repeat split; vm_compute; reflexivity. Qed.

(* ------------------------------------------------------------------ *)
(** ** The end-to-end run *)

(** C8, as the code has it.  Register [c1] on a new monitor, then deliver a
    [call.answered] event stamped [T0], a [call.transcription] event with
    the text "Hi there" and a [call.ended] event stamped [T1], one batch
    each.  Whatever the environment: the status of [c1] is initializing,
    then in-progress, in-progress and completed; the talk time is 0 until
    the transcription and (2/150) * 60 = 4/5 after it; the duration is
    [(T1 - createdAt) / 1000], where [createdAt] is the first reading of the
    clock, made by [addCall]; the notifications are the eight named below,
    none of which is ['call:status_changed']. *)
Theorem end_to_end_run (env : Env) (interval : option Z)
    (metadata : Metadata) (T0 T T1 : Z) :
  map (Scenario.statusOf "c1")
    (Scenario.endToEnd env interval metadata T0 T T1)
  = [Some statusInitializing; Some statusInProgress; Some statusInProgress;
     Some statusCompleted]
  /\ map (fun w => option_map Qred (Scenario.talkTimeOf "c1" w))
       (Scenario.endToEnd env interval metadata T0 T T1)
     = [Some 0%Q; Some 0%Q; Some (4 # 5)%Q; Some (4 # 5)%Q]
  /\ option_map CallData.createdAt
       (getCall "c1" (Scenario.endToEndFinal env interval metadata T0 T T1))
     = Some (clock env 0%nat)
  /\ Scenario.durationOf "c1"
       (Scenario.endToEndFinal env interval metadata T0 T T1)
     = Some (inject_Z (T1 - clock env 0%nat) / 1000)%Q
  /\ map notificationName
       (emitted (Scenario.endToEndFinal env interval metadata T0 T T1))
     = ["call:added"; "monitoring:started";
        "call:call.answered"; "call:updated";
        "call:call.transcription"; "call:updated";
        "call:call.ended"; "call:updated"]
  /\ filter isStatusChanged
       (emitted (Scenario.endToEndFinal env interval metadata T0 T T1))
     = [].
Proof. repeat split; reflexivity. Qed.

(** C8, as stated, fails.  With a clock that starts at 0, [T0] = 60000 and
    [T1] = 65000, the duration is 65 seconds, which is not within a second
    of [T1 - T0], 5 seconds; and the run emits no ['call:status_changed']
    notification, not three. *)
Lemma end_to_end_duration_and_status_notifications :
  ~ (exists d,
       Scenario.durationOf "c1"
         (Scenario.endToEndFinal Scenario.envNotFound None [] 60000 61000 65000)
       = Some d
       /\ (-1 <= d - inject_Z (65000 - 60000) / 1000 <= 1)%Q)
  /\ length
       (filter isStatusChanged
          (emitted
             (Scenario.endToEndFinal Scenario.envNotFound None []
                60000 61000 65000)))
     <> 3%nat.
Proof.
  split.
  - intros [d [Hd [_ Hle]]].
    assert (Hrun : Scenario.durationOf "c1"
                     (Scenario.endToEndFinal Scenario.envNotFound None []
                        60000 61000 65000)
                   = Some (65000 # 1000)%Q)
      by (vm_compute; reflexivity).
    rewrite Hrun in Hd. inversion Hd; subst d.
    unfold Qle in Hle. simpl in Hle. lia.
  - assert (Hnone : filter isStatusChanged
                      (emitted
                         (Scenario.endToEndFinal Scenario.envNotFound None []
                            60000 61000 65000)) = [])
      by (vm_compute; reflexivity).
    rewrite Hnone. discriminate.
Qed.

(* ================================================================== *)
(** * Further properties *)

(** ** The backoff executor, for any budget *)

Section RetryMore.
Context {St A : Type}.
Variable fn : Comp St A.
Variable maxRetries : Z.
Variable initialDelay : Q.
Variable shouldRetry : JsError -> bool.
Variable random : nat -> Q.

Local Abbreviation loop := (retry_loop fn maxRetries initialDelay shouldRetry random).

(** With enough fuel and the counter below the budget, the loop makes an
    attempt, and its trace is well formed. *)
Lemma retry_loop_trace (fuel : nat) :
  forall retries lastError s,
    (Z.to_nat (maxRetries - retries) <= fuel)%nat ->
    retries < maxRetries ->
    exists o,
      retryTrace shouldRetry (snd (loop fuel retries lastError s)) o
      /\ agrees (fst (fst (loop fuel retries lastError s))) o
      /\ (forall e, o = Some e ->
            shouldRetry e = false
            \/ Z.of_nat (attempts (snd (loop fuel retries lastError s)))
               = maxRetries - retries).
Proof.
  induction fuel as [|fuel IH]; intros retries lastError s Hfuel Hlt; [lia|].
  cbn [retry_loop].
  replace (retries <? maxRetries) with true by (symmetry; apply Z.ltb_lt; lia).
  destruct (fn s) as [[a|e] s1].
  { exists None. cbn. split; [constructor|]. split; [exact I|discriminate]. }
  destruct (shouldRetry e) eqn:He; cbn [negb orb].
  2:{ exists (Some e). cbn. split; [constructor|]. split; [reflexivity|].
      intros e' H; inversion H; subst. left. exact He. }
  destruct (retries =? maxRetries - 1) eqn:Hlast.
  { apply Z.eqb_eq in Hlast. exists (Some e). cbn.
    split; [constructor|]. split; [reflexivity|].
    intros e' _. right. lia. }
  apply Z.eqb_neq in Hlast.
  destruct (IH (retries + 1) (Some e) s1) as [o [Htr [Hag Hend]]]; [lia|lia|].
  destruct (loop fuel (retries + 1) (Some e) s1) as [[r2 s2] steps2].
  cbn in *. exists o. split; [constructor; assumption|]. split; [exact Hag|].
  intros e' He'. destruct (Hend e' He') as [H|H]; [left; exact H|right; lia].
Qed.

(** The suspensions are those of the exponential schedule, one after each
    attempt but the last. *)
Lemma retry_loop_sleeps (fuel : nat) :
  forall retries lastError s,
    (Z.to_nat (maxRetries - retries) <= fuel)%nat ->
    0 <= retries ->
    sleeps (snd (loop fuel retries lastError s))
    = map (fun k => backoffAfter initialDelay random (Z.to_nat retries + k))
        (seq 0 (pred (attempts (snd (loop fuel retries lastError s))))).
Proof.
  induction fuel as [|fuel IH]; intros retries lastError s Hfuel Hnn.
  - cbn [retry_loop].
    destruct (retries <? maxRetries) eqn:Hlt; [apply Z.ltb_lt in Hlt; lia|].
    reflexivity.
  - cbn [retry_loop].
    destruct (retries <? maxRetries) eqn:Hlt; [|reflexivity].
    apply Z.ltb_lt in Hlt.
    destruct (fn s) as [[a|e] s1]; [reflexivity|].
    destruct (negb (shouldRetry e) || (retries =? maxRetries - 1)) eqn:Hstop;
      [reflexivity|].
    apply orb_false_iff in Hstop. destruct Hstop as [_ Hlast].
    apply Z.eqb_neq in Hlast.
    destruct (retry_loop_trace fuel (retries + 1) (Some e) s1) as [o [Htr _]];
      [lia|lia|].
    specialize (IH (retries + 1) (Some e) s1).
    destruct (loop fuel (retries + 1) (Some e) s1) as [[r2 s2] steps2].
    cbn [snd fst] in *. cbn [sleeps attempts pred].
    assert (Hpos : exists n, attempts steps2 = S n).
    { inversion Htr; subst; cbn; eexists; reflexivity. }
    destruct Hpos as [n Hn]. rewrite Hn in *. cbn [pred] in IH.
    rewrite IH by lia. cbn [seq map]. f_equal.
    + unfold backoffAfter. rewrite Nat.add_0_r, Z2Nat.id by lia. reflexivity.
    + rewrite <- seq_shift, map_map. apply map_ext. intros k.
      f_equal. lia.
Qed.

End RetryMore.

(** X1.  Whatever the budget, the operation, the predicate and the random
    values: [retry] calls the operation at most [maxRetries] times (never,
    for a budget of zero or less), and suspends once after each attempt but
    the last. *)
Theorem retry_attempts_within_budget {St A : Type} (fn : Comp St A)
    (maxRetries : Z) (initialDelay : Q) (shouldRetry : JsError -> bool)
    (random : nat -> Q) (s : St) :
  (attempts (snd (retry fn maxRetries initialDelay shouldRetry random s))
   <= Z.to_nat maxRetries)%nat
  /\ length (sleeps (snd (retry fn maxRetries initialDelay shouldRetry random s)))
     = pred (attempts (snd (retry fn maxRetries initialDelay shouldRetry random s))).
Proof.
  split.
  - destruct (retry fn maxRetries initialDelay shouldRetry random s)
      as [[r s'] steps] eqn:Hrun.
    unfold retry in Hrun. apply retry_loop_attempts in Hrun.
    cbn [snd]. replace (maxRetries - 0) with maxRetries in Hrun by lia.
    exact Hrun.
  - unfold retry. rewrite retry_loop_sleeps by lia.
    rewrite length_map, length_seq. reflexivity.
Qed.

(** X2.  With a budget of zero or less the operation is not called at all:
    [retry] throws [new Error('Retry failed')] at once and leaves the state
    of the operation as it is. *)
Theorem retry_without_budget {St A : Type} (fn : Comp St A)
    (maxRetries : Z) (initialDelay : Q) (shouldRetry : JsError -> bool)
    (random : nat -> Q) (s : St) :
  maxRetries <= 0 ->
  retry fn maxRetries initialDelay shouldRetry random s
  = (Throw retryFailed, s, []).
Proof.
  intros Hmax. unfold retry.
  replace (Z.to_nat maxRetries) with O by lia. cbn [retry_loop].
  replace (0 <? maxRetries) with false by (symmetry; apply Z.ltb_ge; lia).
  reflexivity.
Qed.

Lemma retry_without_budget_witness :
  0 <= 0
  /\ retry (Scenario.failing Scenario.serverError) 0 1000 defaultShouldRetry
       Scenario.halfJitter 7%nat
     = (Throw retryFailed, 7%nat, []).
Proof.
  split; [lia|].
  apply (retry_without_budget (Scenario.failing Scenario.serverError) 0 1000
           defaultShouldRetry Scenario.halfJitter 7%nat).
  lia.
Defined.

(** X3.  With a budget of at least one attempt, the trace of [retry] is a
    sequence of attempts separated by suspensions in which every attempt
    but the last threw an error that [shouldRetry] accepts; the completion
    of [retry] is that of the last attempt; and [retry] throws only an error
    that [shouldRetry] rejects or the error of attempt number
    [maxRetries]: it never gives up early. *)
Theorem retry_trace_well_formed {St A : Type} (fn : Comp St A)
    (maxRetries : Z) (initialDelay : Q) (shouldRetry : JsError -> bool)
    (random : nat -> Q) (s : St) :
  0 < maxRetries ->
  exists o,
    retryTrace shouldRetry
      (snd (retry fn maxRetries initialDelay shouldRetry random s)) o
    /\ agrees (fst (fst (retry fn maxRetries initialDelay shouldRetry random s))) o
    /\ (forall e, o = Some e ->
          shouldRetry e = false
          \/ Z.of_nat
               (attempts (snd (retry fn maxRetries initialDelay shouldRetry
                                 random s)))
             = maxRetries).
Proof.
  intros Hmax. unfold retry.
  destruct (retry_loop_trace fn maxRetries initialDelay shouldRetry random
              (Z.to_nat maxRetries) 0 None s) as [o [Htr [Hag Hend]]];
    [lia|lia|].
  exists o. split; [exact Htr|]. split; [exact Hag|].
  intros e He. destruct (Hend e He) as [H|H]; [left; exact H|right; lia].
Qed.

Lemma retry_trace_well_formed_witness :
  0 < 3
  /\ exists o,
       retryTrace defaultShouldRetry
         (snd (retry (Scenario.failing Scenario.serverError) 3 1000
                 defaultShouldRetry Scenario.halfJitter O)) o
       /\ agrees
            (fst (fst (retry (Scenario.failing Scenario.serverError) 3 1000
                         defaultShouldRetry Scenario.halfJitter O))) o
       /\ (forall e, o = Some e ->
             defaultShouldRetry e = false
             \/ Z.of_nat
                  (attempts
                     (snd (retry (Scenario.failing Scenario.serverError) 3 1000
                             defaultShouldRetry Scenario.halfJitter O)))
                = 3).
Proof.
  split; [lia|].
  apply (retry_trace_well_formed (Scenario.failing Scenario.serverError) 3 1000
           defaultShouldRetry Scenario.halfJitter O).
  lia.
Defined.

Lemma backoffDelay_doubles (initialDelay : Q) (k : nat) :
  (backoffDelay initialDelay (Z.of_nat (S k))
   == 2 * backoffDelay initialDelay (Z.of_nat k))%Q.
Proof.
  unfold backoffDelay.
  replace (Z.of_nat (S k)) with (Z.succ (Z.of_nat k)) by lia.
  rewrite Z.pow_succ_r by lia. rewrite inject_Z_mult. ring.
Qed.

(** X4.  The suspensions of [retry] follow the exponential schedule: the
    one after failed attempt number [k] (from 0) lasts the [k]-th delay plus
    the [k]-th jitter, the first delay is [initialDelay] and each delay is
    twice the one before; for an [initialDelay] that is not negative and a
    [Math.random()] in [0, 1) the jitter adds between nothing and 20% of the
    delay. *)
Theorem retry_backoff_schedule {St A : Type} (fn : Comp St A)
    (maxRetries : Z) (initialDelay : Q) (shouldRetry : JsError -> bool)
    (random : nat -> Q) (s : St) :
  sleeps (snd (retry fn maxRetries initialDelay shouldRetry random s))
  = map (backoffAfter initialDelay random)
      (seq 0 (pred (attempts
                      (snd (retry fn maxRetries initialDelay shouldRetry
                              random s)))))
  /\ (backoffDelay initialDelay 0 == initialDelay)%Q
  /\ (forall k, backoffDelay initialDelay (Z.of_nat (S k))
                == 2 * backoffDelay initialDelay (Z.of_nat k))%Q
  /\ (forall k,
        (0 <= initialDelay)%Q -> (0 <= random k < 1)%Q ->
        (backoffDelay initialDelay (Z.of_nat k)
         <= backoffAfter initialDelay random k
         <= backoffDelay initialDelay (Z.of_nat k)
            + (2 # 10) * backoffDelay initialDelay (Z.of_nat k))%Q).
Proof.
  split; [|split; [|split]].
  - unfold retry. rewrite retry_loop_sleeps by lia. reflexivity.
  - unfold backoffDelay. change (inject_Z (2 ^ 0)) with 1%Q. ring.
  - intros k. apply backoffDelay_doubles.
  - intros k Hd Hr. unfold backoffAfter.
    assert (Hj : (0 <= backoffJitter initialDelay random (Z.of_nat k)
                  <= (2 # 10) * backoffDelay initialDelay (Z.of_nat k))%Q).
    { unfold backoffJitter. rewrite Nat2Z.id.
      assert (Hdel : (0 <= backoffDelay initialDelay (Z.of_nat k))%Q).
      { unfold backoffDelay. apply Qmult_le_0_compat; [exact Hd|].
        unfold Qle; simpl.
        assert (0 < 2 ^ Z.of_nat k) by (apply Z.pow_pos_nonneg; lia). lia. }
      set (d := backoffDelay initialDelay (Z.of_nat k)) in *.
      set (x := random k) in *. destruct Hr as [H0 H1]. split; nra. }
    destruct Hj as [Hj0 Hj1]. split; lra.
Qed.

Lemma retry_loop_exhausts {St A : Type} (fn : Comp St A) (maxRetries : Z)
    (initialDelay : Q) (shouldRetry : JsError -> bool) (random : nat -> Q) :
  (forall s, exists e s', fn s = (Throw e, s')) ->
  (forall e, shouldRetry e = true) ->
  forall fuel retries lastError s,
    (Z.to_nat (maxRetries - retries) <= fuel)%nat ->
    retries < maxRetries ->
    attempts (snd (retry_loop fn maxRetries initialDelay shouldRetry random
                     fuel retries lastError s))
    = Z.to_nat (maxRetries - retries)
    /\ exists e s0,
         fn s0 = (Throw e, snd (fst (retry_loop fn maxRetries initialDelay
                                       shouldRetry random fuel retries
                                       lastError s)))
         /\ fst (fst (retry_loop fn maxRetries initialDelay shouldRetry random
                        fuel retries lastError s)) = Throw e.
Proof.
  intros Hfails Haccept.
  induction fuel as [|fuel IH]; intros retries lastError s Hfuel Hlt; [lia|].
  cbn [retry_loop].
  replace (retries <? maxRetries) with true by (symmetry; apply Z.ltb_lt; lia).
  destruct (Hfails s) as [e [s1 Hfn]]. rewrite Hfn, Haccept. cbn [negb orb].
  destruct (retries =? maxRetries - 1) eqn:Hlast.
  - apply Z.eqb_eq in Hlast. cbn. split; [lia|].
    exists e, s. split; [exact Hfn|reflexivity].
  - apply Z.eqb_neq in Hlast.
    destruct (IH (retries + 1) (Some e) s1) as [Hatt Hres]; [lia|lia|].
    destruct (retry_loop fn maxRetries initialDelay shouldRetry random fuel
                (retries + 1) (Some e) s1) as [[r2 s2] steps2].
    cbn in *. split; [lia|exact Hres].
Qed.

(** X5.  When every call of the operation throws and [shouldRetry] accepts
    every error, [retry] calls the operation exactly [maxRetries] times (in
    all, not [maxRetries] times again after a first call) and then throws
    the error of the last call. *)
Theorem retry_exhausts_budget {St A : Type} (fn : Comp St A)
    (maxRetries : Z) (initialDelay : Q) (shouldRetry : JsError -> bool)
    (random : nat -> Q) (s : St) :
  0 < maxRetries ->
  (forall s0, exists e s1, fn s0 = (Throw e, s1)) ->
  (forall e, shouldRetry e = true) ->
  attempts (snd (retry fn maxRetries initialDelay shouldRetry random s))
  = Z.to_nat maxRetries
  /\ exists e s0,
       fn s0 = (Throw e,
                snd (fst (retry fn maxRetries initialDelay shouldRetry random s)))
       /\ fst (fst (retry fn maxRetries initialDelay shouldRetry random s))
          = Throw e.
Proof.
  intros Hmax Hfails Haccept. unfold retry.
  destruct (retry_loop_exhausts fn maxRetries initialDelay shouldRetry random
              Hfails Haccept (Z.to_nat maxRetries) 0 None s) as [Hatt Hres];
    [lia|lia|].
  split; [rewrite Hatt; f_equal; lia|exact Hres].
Qed.

Lemma retry_exhausts_budget_witness :
  0 < 3
  /\ (forall s0, exists e s1,
        Scenario.failing Scenario.serverError s0 = (Throw e, s1))
  /\ (forall e, defaultShouldRetry e = true)
  /\ attempts
       (snd (retry (Scenario.failing Scenario.serverError) 3 1000
               defaultShouldRetry Scenario.halfJitter O))
     = Z.to_nat 3.
Proof.
  assert (Hfails : forall s0, exists e s1,
             Scenario.failing Scenario.serverError s0 = (Throw e, s1))
    by (intros s0; eexists _, _; reflexivity).
  assert (Haccept : forall e, defaultShouldRetry e = true)
    by (intros e; reflexivity).
  split; [lia|]. split; [exact Hfails|]. split; [exact Haccept|].
  exact (proj1 (retry_exhausts_budget (Scenario.failing Scenario.serverError)
                  3 1000 defaultShouldRetry Scenario.halfJitter O
                  eq_refl Hfails Haccept)).
Defined.

(* ------------------------------------------------------------------ *)
(** ** Words of a transcription *)

Lemma splitWhiteSpaceFrom_spec (t : Text) :
  forall piece inRun,
    (inRun = true -> piece = []) ->
    forallb isWordUnit piece = true ->
    concat (splitWhiteSpaceFrom t piece inRun)
    = piece ++ filter isWordUnit t
    /\ Forall (fun p => forallb isWordUnit p = true)
         (splitWhiteSpaceFrom t piece inRun)
    /\ (1 <= length (splitWhiteSpaceFrom t piece inRun))%nat.
Proof.
  induction t as [|c t IH]; intros piece inRun Hrun Hpiece; cbn [splitWhiteSpaceFrom].
  - cbn. rewrite !app_nil_r. split; [reflexivity|].
    split; [constructor; [exact Hpiece|constructor]|lia].
  - cbn [filter]. unfold isWordUnit at 1 3.
    destruct (isWhiteSpace c) eqn:Hc; cbn [negb].
    + destruct inRun.
      * rewrite (Hrun eq_refl). apply IH; [reflexivity|reflexivity].
      * destruct (IH [] true (fun _ => eq_refl) eq_refl) as [Hcat [Hall Hlen]].
        cbn [concat length]. rewrite Hcat. cbn [app].
        split; [reflexivity|]. split; [constructor; assumption|lia].
    + destruct (IH (piece ++ [c]) false) as [Hcat [Hall Hlen]].
      * discriminate.
      * rewrite forallb_app, Hpiece. cbn. unfold isWordUnit. rewrite Hc.
        reflexivity.
      * rewrite Hcat, <- app_assoc. cbn [app]. split; [reflexivity|].
        split; assumption.
Qed.

(** X6.  [text.split(/\s+/)] loses white space only: no piece holds a
    white-space code unit, the pieces put end to end are the text without
    its white space, and there is always at least one piece (the empty
    text gives one empty piece), so that a text is never counted as zero
    words. *)
Theorem splitWhiteSpace_pieces (t : Text) :
  concat (splitWhiteSpace t) = filter isWordUnit t
  /\ Forall (fun p => forallb isWordUnit p = true) (splitWhiteSpace t)
  /\ (1 <= length (splitWhiteSpace t))%nat.
Proof.
  unfold splitWhiteSpace.
  destruct (splitWhiteSpaceFrom_spec t [] false) as [Hcat H];
    [discriminate|reflexivity|].
  split; [exact Hcat|exact H].
Qed.

Lemma splitWhiteSpaceFrom_word (t : Text) :
  forall piece,
    forallb isWordUnit t = true ->
    splitWhiteSpaceFrom t piece false = [piece ++ t].
Proof.
  induction t as [|c t IH]; intros piece Hw; cbn [splitWhiteSpaceFrom].
  - rewrite app_nil_r. reflexivity.
  - cbn [forallb] in Hw. apply andb_true_iff in Hw. destruct Hw as [Hc Ht].
    unfold isWordUnit in Hc. apply negb_true_iff in Hc. rewrite Hc.
    rewrite IH by exact Ht. rewrite <- app_assoc. reflexivity.
Qed.

(** X7.  [_analyzeTranscription], for a transcription that has a text:
    it returns; the talk time grows by [(words / 150) * 60] seconds where
    [words] is at least 1, hence by at least 0.4 seconds even for an empty
    text; the count of interruptions stays or grows by one, and stays for
    any speaker but ['assistant'], for a text of 30 code units or more and
    for a text that does not end with a question mark; nothing else in the
    record changes. *)
Theorem analyzeTranscription_effect (text : Text) (speaker : option string)
    (score : option Q) (c : CallData.t) :
  let d := EventData.mk (Some text) speaker score in
  let c' := snd (_analyzeTranscription d c) in
  let a := CallData.analytics c in
  let a' := CallData.analytics c' in
  fst (_analyzeTranscription d c) = Return tt
  /\ (Analytics.talkTime a'
      == Analytics.talkTime a
         + inject_Z (Z.of_nat (length (splitWhiteSpace text))) * (60 # 150))%Q
  /\ (Analytics.talkTime a + (2 # 5) <= Analytics.talkTime a')%Q
  /\ (Analytics.interruptions a' = Analytics.interruptions a
      \/ Analytics.interruptions a' = Analytics.interruptions a + 1)
  /\ (speaker <> Some "assistant" \/ (30 <= length text)%nat
      \/ endsWithQuestionMark text = false ->
      Analytics.interruptions a' = Analytics.interruptions a)
  /\ Analytics.silenceDuration a' = Analytics.silenceDuration a
  /\ Analytics.sentimentScores a' = Analytics.sentimentScores a
  /\ CallData.setAnalytics a c' = c.
Proof.
  cbn zeta. unfold _analyzeTranscription. cbn [EventData.text EventData.speaker fst snd].
  set (n := length (splitWhiteSpace text)).
  assert (Hn : (1 <= n)%nat)
    by (apply (splitWhiteSpaceFrom_spec text [] false);
        [discriminate|reflexivity]).
  cbn [CallData.analytics CallData.setAnalytics Analytics.talkTime
       Analytics.interruptions Analytics.silenceDuration
       Analytics.sentimentScores].
  split; [reflexivity|]. split.
  { unfold wordsPerMinute. field. }
  split.
  { unfold wordsPerMinute.
    assert (H1 : (1 <= inject_Z (Z.of_nat n))%Q).
    { change 1%Q with (inject_Z 1). rewrite <- Zle_Qle. lia. }
    set (x := inject_Z (Z.of_nat n)) in *.
    assert (Heq : (x / 150 * 60 == x * (2 # 5))%Q) by field.
    rewrite Heq. set (tt0 := Analytics.talkTime (CallData.analytics c)). nra. }
  split.
  { match goal with |- context [if ?b then _ else _] => destruct b end;
      [right|left]; reflexivity. }
  split.
  { intros H.
    destruct speaker as [sp|]; cbn [andb].
    - destruct (String.eqb sp "assistant") eqn:Hsp; cbn [andb]; [|reflexivity].
      apply String.eqb_eq in Hsp. subst sp.
      destruct H as [H|[H|H]]; [congruence| |].
      + replace (Z.of_nat (length text) <? 30) with false
          by (symmetry; apply Z.ltb_ge; lia).
        rewrite andb_false_r. reflexivity.
      + rewrite H. reflexivity.
    - reflexivity. }
  split; [reflexivity|]. split; [reflexivity|].
  destruct c; reflexivity.
Qed.

(* ------------------------------------------------------------------ *)
(** ** The registry: adding, removing, looking up *)

Lemma CallMap_get_None_keys (k : string) (m : CallMap.t) :
  CallMap.get k m = None <-> ~ In k (CallMap.keys m).
Proof.
  unfold CallMap.get, CallMap.keys.
  induction m as [|[k0 v0] m IH]; cbn [find map fst].
  - split; [intros _ []|reflexivity].
  - destruct (String.eqb k0 k) eqn:Hk; cbn [In].
    + apply String.eqb_eq in Hk. split; [discriminate|intros H; tauto].
    + apply String.eqb_neq in Hk. rewrite IH. tauto.
Qed.

Lemma CallMap_get_app_new (k : string) (v : CallData.t) (m : CallMap.t) :
  CallMap.get k m = None -> CallMap.get k (m ++ [(k, v)]) = Some v.
Proof.
  unfold CallMap.get. induction m as [|[k0 v0] m IH]; cbn [find app fst snd].
  - rewrite String.eqb_refl. reflexivity.
  - destruct (String.eqb k0 k); [discriminate|exact IH].
Qed.

Lemma CallMap_get_app_other (k k' : string) (v : CallData.t) (m : CallMap.t) :
  k' <> k -> CallMap.get k' (m ++ [(k, v)]) = CallMap.get k' m.
Proof.
  intros Hne. unfold CallMap.get.
  induction m as [|[k0 v0] m IH]; cbn [find app fst snd].
  - replace (String.eqb k k') with false
      by (symmetry; apply String.eqb_neq; congruence). reflexivity.
  - destruct (String.eqb k0 k'); [reflexivity|exact IH].
Qed.

Lemma CallMap_get_delete_same (k : string) (m : CallMap.t) :
  CallMap.get k (CallMap.delete k m) = None.
Proof.
  unfold CallMap.get, CallMap.delete.
  induction m as [|[k0 v0] m IH]; cbn [filter find fst]; [reflexivity|].
  destruct (String.eqb k0 k) eqn:Hk; cbn [negb]; [exact IH|].
  cbn [find fst]. rewrite Hk. exact IH.
Qed.

Lemma CallMap_get_delete_other (k k' : string) (m : CallMap.t) :
  k' <> k -> CallMap.get k' (CallMap.delete k m) = CallMap.get k' m.
Proof.
  intros Hne. unfold CallMap.get, CallMap.delete.
  induction m as [|[k0 v0] m IH]; cbn [filter find fst]; [reflexivity|].
  destruct (String.eqb k0 k) eqn:Hk; cbn [negb].
  - apply String.eqb_eq in Hk. subst k0.
    replace (String.eqb k k') with false
      by (symmetry; apply String.eqb_neq; congruence). exact IH.
  - cbn [find fst]. destruct (String.eqb k0 k'); [reflexivity|exact IH].
Qed.

Lemma CallMap_delete_absent (k : string) (m : CallMap.t) :
  CallMap.get k m = None -> CallMap.delete k m = m.
Proof.
  unfold CallMap.get, CallMap.delete.
  induction m as [|[k0 v0] m IH]; cbn [filter find fst]; [reflexivity|].
  destruct (String.eqb k0 k); [discriminate|]. cbn [negb].
  intros H. rewrite IH by exact H. reflexivity.
Qed.

(** What [addCall] does for an id that is not tracked. *)
Lemma addCall_new_run (env : Env) (callId : string) (metadata : Metadata)
    (w : Monitor) :
  CallMap.has callId (activeCalls w) = false ->
  let callData :=
    newCallData callId metadata (clock env (dateReads w))
      (clock env (S (dateReads w))) in
  let w1 :=
    setEmitted (emitted w ++ [CallAdded callData])
      (setActiveCalls (activeCalls w ++ [(callId, callData)])
         (setDateReads (S (S (dateReads w))) w)) in
  addCall env callId metadata w
  = (Return (Some callData),
     match monitoringIntervalId w with
     | Some _ => w1
     | None =>
         setEmitted (emitted w1 ++ [MonitoringStarted])
           (setMonitoringIntervalId (Some (length (timers w)))
              (setTimers (timers w ++ [SweepEvery (monitoringInterval w)])
                 (setMonitoringEnabled true w1)))
     end).
Proof.
  intros Hhas. cbn zeta. destruct w as [calls interval enabled intervalId
    listeners notes tms cleared errors reads fetches draws naps].
  cbn [activeCalls] in Hhas.
  cbv [addCall startMonitoring bind gets newDate modify emit ret setTimer
       CallMap.set monitoringIntervalId setEmitted setActiveCalls setDateReads
       dateReads activeCalls emitted timers monitoringInterval
       setMonitoringEnabled setTimers setMonitoringIntervalId
       monitoringEnabled errorListeners clearedTimers consoleErrors fetched
       randomDraws slept].
  rewrite Hhas. cbv beta iota. rewrite Hhas.
  destruct intervalId; reflexivity.
Qed.

Lemma addCall_activeCalls (env : Env) (callId : string) (metadata : Metadata)
    (w : Monitor) :
  activeCalls (snd (addCall env callId metadata w))
  = if CallMap.has callId (activeCalls w) then activeCalls w
    else activeCalls w
           ++ [(callId,
                newCallData callId metadata (clock env (dateReads w))
                  (clock env (S (dateReads w))))].
Proof.
  destruct (CallMap.has callId (activeCalls w)) eqn:Hhas.
  - rewrite addCall_tracked by exact Hhas. reflexivity.
  - rewrite addCall_new_run by exact Hhas.
    destruct (monitoringIntervalId w); reflexivity.
Qed.

(** X8.  [addCall] for an id that is not tracked returns the record it
    makes (status initializing, empty log, zero analytics, the two readings
    of the clock as creation and update times); [getCall] then finds that
    record under the id and finds every other id as before; the record is
    last in [getActiveCalls]; ['call:added'] is emitted with the record; and
    an interval id is held afterwards. *)
Theorem addCall_new (env : Env) (callId : string) (metadata : Metadata)
    (w : Monitor) :
  getCall callId w = None ->
  let callData :=
    newCallData callId metadata (clock env (dateReads w))
      (clock env (S (dateReads w))) in
  let w' := snd (addCall env callId metadata w) in
  fst (addCall env callId metadata w) = Return (Some callData)
  /\ getCall callId w' = Some callData
  /\ (forall k, k <> callId -> getCall k w' = getCall k w)
  /\ getActiveCalls w' = getActiveCalls w ++ [callData]
  /\ In (CallAdded callData) (emittedAfter w w')
  /\ monitoringIntervalId w' <> None.
Proof.
  intros Hget. cbn zeta.
  assert (Hhas : CallMap.has callId (activeCalls w) = false)
    by (unfold CallMap.has; unfold getCall in Hget; rewrite Hget; reflexivity).
  assert (Hcalls := addCall_activeCalls env callId metadata w).
  rewrite Hhas in Hcalls.
  split; [|split; [|split; [|split; [|split]]]].
  - rewrite addCall_new_run by exact Hhas. reflexivity.
  - unfold getCall. rewrite Hcalls. apply CallMap_get_app_new. exact Hget.
  - intros k Hk. unfold getCall. rewrite Hcalls.
    apply CallMap_get_app_other. exact Hk.
  - unfold getActiveCalls. rewrite Hcalls, map_app. reflexivity.
  - unfold emittedAfter. rewrite addCall_new_run by exact Hhas.
    destruct (monitoringIntervalId w); cbn [snd emitted setEmitted];
      try rewrite <- app_assoc; rewrite skipn_length_app; left; reflexivity.
  - rewrite addCall_new_run by exact Hhas.
    destruct (monitoringIntervalId w) eqn:Hid; simpl; try rewrite Hid;
      discriminate.
Qed.

Lemma addCall_new_witness :
  getCall "c2" (Scenario.registered Scenario.envNotFound) = None
  /\ getCall "c2"
       (snd (addCall Scenario.envNotFound "c2" []
               (Scenario.registered Scenario.envNotFound)))
     = Some (newCallData "c2" [] 2 3).
Proof.
  split; [reflexivity|].
  exact (proj1 (proj2 (addCall_new Scenario.envNotFound "c2" []
                         (Scenario.registered Scenario.envNotFound)
                         eq_refl))).
Defined.

(** What [removeCall] does for an id that is tracked. *)
Lemma removeCall_run (callId : string) (w : Monitor) (callData : CallData.t) :
  getCall callId w = Some callData ->
  let w1 :=
    setEmitted (emitted w ++ [CallRemoved callData])
      (setActiveCalls (CallMap.delete callId (activeCalls w)) w) in
  removeCall callId w
  = (Return tt,
     if CallMap.size (CallMap.delete callId (activeCalls w)) =? 0 then
       match monitoringIntervalId w with
       | None => w1
       | Some timerId =>
           setEmitted (emitted w1 ++ [MonitoringStopped])
             (setMonitoringEnabled false
                (setMonitoringIntervalId None
                   (setClearedTimers (clearedTimers w ++ [timerId]) w1)))
       end
     else w1).
Proof.
  intros Hget. cbn zeta. destruct w as [calls interval enabled intervalId
    listeners notes tms cleared errors reads fetches draws naps].
  unfold getCall in Hget. cbn [activeCalls] in Hget.
  cbv [removeCall stopMonitoring bind gets modify emit ret clearInterval
       monitoringIntervalId setEmitted setActiveCalls activeCalls emitted
       timers monitoringInterval setMonitoringEnabled setClearedTimers
       setMonitoringIntervalId monitoringEnabled errorListeners clearedTimers
       consoleErrors fetched randomDraws slept dateReads].
  rewrite Hget. cbv beta iota.
  destruct (CallMap.size (CallMap.delete callId calls) =? 0); [|reflexivity].
  destruct intervalId; reflexivity.
Qed.

Lemma removeCall_untracked (callId : string) (w : Monitor) :
  getCall callId w = None -> removeCall callId w = (Return tt, w).
Proof.
  intros Hget. unfold removeCall, bind, gets.
  unfold getCall in Hget. rewrite Hget. reflexivity.
Qed.

Lemma removeCall_activeCalls (callId : string) (w : Monitor) :
  activeCalls (snd (removeCall callId w))
  = CallMap.delete callId (activeCalls w).
Proof.
  destruct (getCall callId w) as [callData|] eqn:Hget.
  - rewrite (removeCall_run callId w callData Hget).
    destruct (CallMap.size (CallMap.delete callId (activeCalls w)) =? 0);
      [destruct (monitoringIntervalId w)|]; reflexivity.
  - rewrite removeCall_untracked by exact Hget.
    symmetry. apply CallMap_delete_absent. exact Hget.
Qed.

(** X9.  [removeCall] for an id that is not tracked changes nothing (so a
    removal timer that fires after the call was removed by hand is
    harmless).  For a tracked id it returns; [getCall] then finds nothing
    under the id and every other id as before; ['call:removed'] is emitted
    with the record; if calls remain the scheduler is left as it is, and if
    none remains no interval id is held any more, monitoring is disabled and
    the interval that was held is cleared. *)
Theorem removeCall_effect (callId : string) (w : Monitor) :
  match getCall callId w with
  | None => removeCall callId w = (Return tt, w)
  | Some callData =>
      let w' := snd (removeCall callId w) in
      fst (removeCall callId w) = Return tt
      /\ getCall callId w' = None
      /\ (forall k, k <> callId -> getCall k w' = getCall k w)
      /\ In (CallRemoved callData) (emittedAfter w w')
      /\ (activeCalls w' <> [] ->
          monitoringEnabled w' = monitoringEnabled w
          /\ monitoringIntervalId w' = monitoringIntervalId w
          /\ clearedTimers w' = clearedTimers w)
      /\ (activeCalls w' = [] ->
          monitoringIntervalId w' = None
          /\ forall timerId,
               monitoringIntervalId w = Some timerId ->
               monitoringEnabled w' = false
               /\ clearedTimers w' = clearedTimers w ++ [timerId])
  end.
Proof.
  destruct (getCall callId w) as [callData|] eqn:Hget;
    [|apply removeCall_untracked; exact Hget].
  cbn zeta. pose proof (removeCall_activeCalls callId w) as Hcalls.
  pose proof (removeCall_run callId w callData Hget) as Hrun. cbn zeta in Hrun.
  split; [rewrite Hrun; reflexivity|].
  split; [unfold getCall; rewrite Hcalls; apply CallMap_get_delete_same|].
  split.
  { intros k Hk. unfold getCall. rewrite Hcalls.
    apply CallMap_get_delete_other. exact Hk. }
  assert (Hsize : forall m : CallMap.t, (CallMap.size m =? 0) = true <-> m = []).
  { intros m. unfold CallMap.size. rewrite Z.eqb_eq.
    destruct m; cbn [length]; split; try reflexivity; try discriminate; lia. }
  split.
  { unfold emittedAfter. rewrite Hrun. cbn [snd].
    destruct (CallMap.size (CallMap.delete callId (activeCalls w)) =? 0);
      [destruct (monitoringIntervalId w)|];
      cbn [emitted setEmitted]; try rewrite <- app_assoc;
      rewrite skipn_length_app; left; reflexivity. }
  split.
  - intros Hne. rewrite Hcalls in Hne.
    destruct (CallMap.size (CallMap.delete callId (activeCalls w)) =? 0) eqn:Hs.
    + apply Hsize in Hs. contradiction.
    + rewrite Hrun. repeat split.
  - intros Hempty. rewrite Hcalls in Hempty. apply Hsize in Hempty.
    rewrite Hrun, Hempty. cbn [snd].
    destruct (monitoringIntervalId w) as [i|] eqn:Hid; simpl.
    + split; [reflexivity|]. intros t Ht. inversion Ht; subst. split; reflexivity.
    + split; [exact Hid|]. intros t Ht. discriminate.
Qed.

(** X10.  Adding a call whose id is not tracked and removing it again gives
    back the map of calls there was: the records and their order. *)
Theorem addCall_removeCall_round_trip (env : Env) (callId : string)
    (metadata : Metadata) (w : Monitor) :
  getCall callId w = None ->
  activeCalls (snd (removeCall callId (snd (addCall env callId metadata w))))
  = activeCalls w
  /\ getActiveCalls
       (snd (removeCall callId (snd (addCall env callId metadata w))))
     = getActiveCalls w.
Proof.
  intros Hget.
  assert (H : activeCalls
                (snd (removeCall callId (snd (addCall env callId metadata w))))
              = activeCalls w).
  { rewrite removeCall_activeCalls, addCall_activeCalls.
    unfold CallMap.has. unfold getCall in Hget. rewrite Hget.
    unfold CallMap.delete. rewrite filter_app. cbn [filter fst].
    rewrite String.eqb_refl. cbn [negb]. rewrite app_nil_r.
    apply CallMap_delete_absent. exact Hget. }
  split; [exact H|]. unfold getActiveCalls. rewrite H. reflexivity.
Qed.

Lemma addCall_removeCall_round_trip_witness :
  getCall "c2" (Scenario.registered Scenario.envNotFound) = None
  /\ activeCalls
       (snd (removeCall "c2"
               (snd (addCall Scenario.envNotFound "c2" []
                       (Scenario.registered Scenario.envNotFound)))))
     = activeCalls (Scenario.registered Scenario.envNotFound).
Proof.
  split; [reflexivity|].
  exact (proj1 (addCall_removeCall_round_trip Scenario.envNotFound "c2" []
                  (Scenario.registered Scenario.envNotFound) eq_refl)).
Defined.

(* ------------------------------------------------------------------ *)
(** ** Invariants of the records *)

Lemma CallMap_get_replace_value (k k' : string) (v c : CallData.t)
    (m : CallMap.t) :
  CallMap.get k' (CallMap.replace k v m) = Some c ->
  (k' = k /\ c = v) \/ (k' <> k /\ CallMap.get k' m = Some c).
Proof.
  destruct (String.eqb k' k) eqn:Hk.
  - apply String.eqb_eq in Hk. subst k'. intros H. left. split; [reflexivity|].
    destruct (CallMap.has k m) eqn:Hhas.
    + rewrite CallMap_get_replace_same in H by exact Hhas. congruence.
    + exfalso. assert (Hin : In k (CallMap.keys (CallMap.replace k v m))).
      { eapply CallMap_get_In_keys. exact H. }
      rewrite CallMap_keys_replace in Hin.
      unfold CallMap.has in Hhas.
      destruct (CallMap.get k m) eqn:Hg; [discriminate|].
      apply CallMap_get_None_keys in Hg. contradiction.
  - apply String.eqb_neq in Hk. intros H. right. split; [exact Hk|].
    rewrite CallMap_get_replace_other in H by exact Hk. exact H.
Qed.

Lemma sameCalls_refl (w : Monitor) : sameCalls w w.
Proof. reflexivity. Qed.

Lemma sameCalls_trans (w1 w2 w3 : Monitor) :
  sameCalls w1 w2 -> sameCalls w2 w3 -> sameCalls w1 w3.
Proof. unfold sameCalls. congruence. Qed.

Lemma keepsAll_refl (P : string -> CallData.t -> Prop) (w : Monitor) :
  keepsAll P w w.
Proof. intros H. exact H. Qed.

Lemma keepsAll_trans (P : string -> CallData.t -> Prop) (w1 w2 w3 : Monitor) :
  keepsAll P w1 w2 -> keepsAll P w2 w3 -> keepsAll P w1 w3.
Proof. unfold keepsAll. auto. Qed.

Lemma sameCalls_keepsAll (P : string -> CallData.t -> Prop) (w w' : Monitor) :
  sameCalls w w' -> keepsAll P w w'.
Proof.
  intros Hsame Hall k c. unfold getCall. rewrite Hsame. apply Hall.
Qed.

Section SameCalls.
Variable env : Env.

Lemma newDate_sameCalls : preserves sameCalls (newDate env).
Proof. intros w r w' H; inversion H; subst. reflexivity. Qed.

Lemma emit_sameCalls (n : Notification) : preserves sameCalls (emit n).
Proof.
  intros w r w'. unfold emit.
  destruct n; try (intros H; inversion H; subst; reflexivity).
  destruct (Nat.eqb (errorListeners w) O); intros H; inversion H; subst;
    reflexivity.
Qed.

Lemma consoleError_sameCalls (e : JsError) : preserves sameCalls (consoleError e).
Proof. intros w r w' H; inversion H; subst. reflexivity. Qed.

Lemma setTimer_sameCalls (t : Timer) : preserves sameCalls (setTimer t).
Proof. intros w r w' H; inversion H; subst. reflexivity. Qed.

Lemma reportError_sameCalls (e : JsError) : preserves sameCalls (reportError e).
Proof. intros w r w' H. apply reportError_activeCalls in H. exact H. Qed.

Lemma fetchCall_sameCalls (k : string) : preserves sameCalls (fetchCall env k).
Proof. intros w r w' H; inversion H; subst. reflexivity. Qed.

Lemma retryFetch_sameCalls (k : string) : preserves sameCalls (retryFetch env k).
Proof.
  intros w r w'. unfold retryFetch, retry.
  destruct (retry_loop _ _ _ _ _ _ _ _ w) as [[r1 w1] steps] eqn:Hloop.
  intros H; inversion H; subst.
  eapply preserves_retry_loop in Hloop;
    [|apply sameCalls_refl|apply sameCalls_trans|apply fetchCall_sameCalls].
  unfold sameCalls in *. cbn. exact Hloop.
Qed.

End SameCalls.

Section KeepsAll.
Variable env : Env.
Variable P : string -> CallData.t -> Prop.
Hypothesis P_step : RecordStep P.

Local Abbreviation keeps := (preserves (keepsAll P)).

Lemma kept_bind {A B : Type} (m : Comp Monitor A) (k : A -> Comp Monitor B) :
  keeps m -> (forall a, keeps (k a)) -> keeps (bind m k).
Proof. apply preserves_bind, keepsAll_trans. Qed.

Lemma kept_ret {A : Type} (a : A) : keeps (ret a).
Proof. apply preserves_ret, keepsAll_refl. Qed.

Lemma kept_same {A : Type} (m : Comp Monitor A) :
  preserves sameCalls m -> keeps m.
Proof. intros Hm w r w' H. apply sameCalls_keepsAll. eapply Hm. exact H. Qed.

Lemma storeCall_keepsAll (callId : string) (c : CallData.t) :
  P callId c -> keeps (storeCall callId c).
Proof.
  intros Hc w r w' H; inversion H; subst. intros Hall k c'.
  unfold getCall. cbn [activeCalls setActiveCalls]. intros Hget.
  apply CallMap_get_replace_value in Hget.
  destruct Hget as [[-> ->]|[_ Hget]]; [exact Hc|apply Hall; exact Hget].
Qed.

Lemma processEvents_keepsAll (callId : string) (events : list Event.t) :
  forall callData,
    P callId callData -> keeps (processEvents env callId events callData).
Proof.
  induction events as [|event rest IH]; intros callData Hc;
    cbn [processEvents].
  - apply kept_ret.
  - destruct (alreadyProcessed event callData) eqn:Hseen; [apply IH, Hc|].
    destruct (bind (applyEventType event) (fun _ => pushEvent event) callData)
      as [[[]|e] callData1] eqn:Hstep;
      pose proof (step_handled P P_step callId event callData _ _ Hc Hseen Hstep)
        as Hc1.
    + apply kept_bind; [apply kept_same, newDate_sameCalls|]. intros now.
      assert (Hc2 : P callId (CallData.setLastUpdated now callData1))
        by (apply (step_updated P P_step); exact Hc1).
      apply kept_bind; [apply storeCall_keepsAll; exact Hc2|]. intros _.
      apply kept_bind; [apply kept_same, emit_sameCalls|]. intros _.
      apply IH. exact Hc2.
    + apply kept_bind; [apply storeCall_keepsAll; exact Hc1|]. intros _.
      apply preserves_throw, keepsAll_refl.
Qed.

Lemma processCallEvents_keepsAll (callId : string) (events : list Event.t) :
  keeps (_processCallEvents env callId events).
Proof.
  intros w r w'. unfold _processCallEvents, bind at 1, gets.
  destruct (getCall callId w) as [callData|] eqn:Hget;
    [|intros H; inversion H; subst; apply keepsAll_refl].
  intros Hrun Hall.
  assert (Hc : P callId callData) by (apply Hall; exact Hget).
  revert Hall. change (keepsAll P w w').
  revert Hrun.
  apply (kept_bind (processEvents env callId events callData)
           (fun c => emit (CallUpdated c))).
  - apply processEvents_keepsAll. exact Hc.
  - intros c. apply kept_same, emit_sameCalls.
Qed.

Lemma applySnapshot_keepsAll (callId : string) (callData : CallData.t)
    (call : Snapshot.t) :
  P callId callData -> keeps (applySnapshot env callId callData call).
Proof.
  intros Hc. unfold applySnapshot. apply kept_bind.
  { destruct (negb (String.eqb (Snapshot.status call) (CallData.status callData)));
      [|apply kept_ret].
    apply kept_bind;
      [apply storeCall_keepsAll, (step_polled P P_step); exact Hc|].
    intros _. apply kept_bind; [apply kept_same, newDate_sameCalls|].
    intros now. apply kept_bind; [apply kept_same, emit_sameCalls|].
    intros _. apply kept_ret. }
  intros callData1. apply kept_bind.
  { destruct (Snapshot.events call) as [[|event events]|];
      [apply kept_ret|apply processCallEvents_keepsAll|apply kept_ret]. }
  intros _. apply kept_bind; [apply preserves_gets, keepsAll_refl|].
  intros current.
  match goal with |- keeps (if ?b then _ else _) => destruct b end;
    [|apply kept_ret].
  apply kept_bind; [apply kept_same, setTimer_sameCalls|].
  intros _. apply kept_ret.
Qed.

Lemma monitorCall_keepsAll (callId : string) : keeps (monitorCall env callId).
Proof.
  intros w r w'. unfold monitorCall, bind at 1, gets.
  destruct (getCall callId w) as [callData|] eqn:Hget;
    [|intros H; inversion H; subst; apply keepsAll_refl].
  destruct (String.eqb (CallData.status callData) statusCompleted);
    [intros H; inversion H; subst; apply keepsAll_refl|].
  intros Hrun Hall.
  assert (Hc : P callId callData) by (apply Hall; exact Hget).
  revert Hall. change (keepsAll P w w'). revert Hrun.
  apply (preserves_tryCatch (keepsAll P) (keepsAll_trans P)).
  - unfold pollCall. apply kept_bind; [apply kept_same, retryFetch_sameCalls|].
    intros call. apply applySnapshot_keepsAll. exact Hc.
  - intros e. apply kept_same, reportError_sameCalls.
Qed.

Lemma forEachCall_keepsAll (callIds : list string) :
  keeps (forEachCall env callIds).
Proof.
  induction callIds as [|callId rest IH]; cbn [forEachCall].
  - apply kept_ret.
  - apply kept_bind; [apply monitorCall_keepsAll|]. intros _. exact IH.
Qed.

Lemma monitorCalls_keepsAll : keeps (_monitorCalls env).
Proof.
  unfold _monitorCalls. apply kept_bind; [apply preserves_gets, keepsAll_refl|].
  intros enabled. destruct (negb enabled); [apply kept_ret|].
  apply (preserves_tryCatch (keepsAll P) (keepsAll_trans P)).
  - apply kept_bind; [apply preserves_gets, keepsAll_refl|].
    intros calls. apply forEachCall_keepsAll.
  - intros e. apply kept_same, reportError_sameCalls.
Qed.

End KeepsAll.

Lemma startMonitoring_sameCalls : preserves sameCalls startMonitoring.
Proof.
  intros w r w'. unfold startMonitoring, bind at 1, gets.
  destruct (monitoringIntervalId w);
    [intros H; inversion H; subst; reflexivity|].
  cbv [bind modify gets setTimer emit]. intros H; inversion H; subst.
  reflexivity.
Qed.

Lemma stopMonitoring_sameCalls : preserves sameCalls stopMonitoring.
Proof.
  intros w r w'. unfold stopMonitoring, bind at 1, gets.
  destruct (monitoringIntervalId w);
    [|intros H; inversion H; subst; reflexivity].
  cbv [bind modify clearInterval emit]. intros H; inversion H; subst.
  reflexivity.
Qed.

(** Every call on the monitor keeps a record invariant. *)
Lemma perform_keepsAll (env : Env) (P : string -> CallData.t -> Prop)
    (op : Op) (w : Monitor) :
  RecordInvariant P -> allCalls P w -> allCalls P (perform env op w).
Proof.
  intros HP Hall. destruct op as [callId metadata|callId|callId events| | | |];
    cbn [perform].
  - intros k c. unfold getCall. rewrite addCall_activeCalls.
    destruct (CallMap.has callId (activeCalls w)) eqn:Hhas; [apply Hall|].
    destruct (String.eqb k callId) eqn:Hk.
    + apply String.eqb_eq in Hk. subst k.
      rewrite CallMap_get_app_new
        by (unfold CallMap.has in Hhas;
            destruct (CallMap.get callId (activeCalls w)); congruence).
      intros H; inversion H; subst. apply (inv_added P HP).
    + apply String.eqb_neq in Hk.
      rewrite CallMap_get_app_other by exact Hk. apply Hall.
  - intros k c. unfold getCall. rewrite removeCall_activeCalls.
    destruct (String.eqb k callId) eqn:Hk.
    + apply String.eqb_eq in Hk. subst k.
      rewrite CallMap_get_delete_same. discriminate.
    + apply String.eqb_neq in Hk.
      rewrite CallMap_get_delete_other by exact Hk. apply Hall.
  - destruct (_processCallEvents env callId events w) as [r w'] eqn:Hrun.
    exact (processCallEvents_keepsAll env P (inv_step P HP) callId events
             w r w' Hrun Hall).
  - destruct (_monitorCalls env w) as [r w'] eqn:Hrun.
    exact (monitorCalls_keepsAll env P (inv_step P HP) w r w' Hrun Hall).
  - destruct (startMonitoring w) as [r w'] eqn:Hrun.
    apply startMonitoring_sameCalls in Hrun.
    exact (sameCalls_keepsAll P w w' Hrun Hall).
  - destruct (stopMonitoring w) as [r w'] eqn:Hrun.
    apply stopMonitoring_sameCalls in Hrun.
    exact (sameCalls_keepsAll P w w' Hrun Hall).
  - exact Hall.
Qed.

Lemma performAll_keepsAll (env : Env) (P : string -> CallData.t -> Prop)
    (ops : list Op) :
  RecordInvariant P ->
  forall w, allCalls P w -> allCalls P (performAll env ops w).
Proof.
  intros HP. unfold performAll.
  induction ops as [|op ops IH]; intros w Hall; cbn [fold_left];
    [exact Hall|].
  apply IH. apply perform_keepsAll; assumption.
Qed.

Lemma allCalls_new (P : string -> CallData.t -> Prop) (interval : option Z) :
  allCalls P (newCallMonitor interval).
Proof. intros k c H. discriminate. Qed.

(** The handler of an event type keeps everything but what it sets. *)
Lemma filedUnderId_invariant : RecordInvariant filedUnderId.
Proof.
  split; [split|]; unfold filedUnderId.
  - intros k event c r c' Hc _ Hstep.
    apply handle_push_evolves in Hstep. destruct Hstep as [Hev _].
    rewrite (evolves_id _ _ Hev). exact Hc.
  - intros k now c Hc. exact Hc.
  - intros k status c Hc. exact Hc.
  - intros. reflexivity.
Qed.

Lemma logIdsDistinct_invariant : RecordInvariant logIdsDistinct.
Proof.
  split; [split|]; unfold logIdsDistinct.
  - intros k event c r c' Hc Hseen Hstep.
    apply handle_push_evolves in Hstep. destruct Hstep as [_ Hids].
    destruct r as [[]|e].
    + rewrite Hids. apply NoDup_app; [exact Hc|repeat constructor; intros []|].
      intros i Hi [Hi'|[]]. subst i.
      apply alreadyProcessed_In in Hi. congruence.
    + unfold eventIds. rewrite Hids. exact Hc.
  - intros k now c Hc. exact Hc.
  - intros k status c Hc. exact Hc.
  - intros. constructor.
Qed.

(** X11.  After any sequence of calls on a new monitor, every record that
    [getCall] finds under an id has that id. *)
Theorem records_filed_under_their_id (env : Env) (interval : option Z)
    (ops : list Op) :
  allCalls filedUnderId (performAll env ops (newCallMonitor interval)).
Proof.
  apply performAll_keepsAll;
    [apply filedUnderId_invariant|apply allCalls_new].
Qed.

(** X12.  After any sequence of calls on a new monitor, the ids of the log
    of every tracked record are pairwise distinct: no event is logged
    twice, whatever is delivered again, in one batch or in several, by
    ingestion or by a sweep. *)
Theorem log_ids_distinct (env : Env) (interval : option Z) (ops : list Op) :
  allCalls logIdsDistinct (performAll env ops (newCallMonitor interval)).
Proof.
  apply performAll_keepsAll;
    [apply logIdsDistinct_invariant|apply allCalls_new].
Qed.

Lemma lastOfType_push (type : string) (events : list StoredEvent.t)
    (e : StoredEvent.t) :
  lastOfType type (events ++ [e])
  = if String.eqb (StoredEvent.type e) type then Some e
    else lastOfType type events.
Proof.
  unfold lastOfType. rewrite rev_app_distr. reflexivity.
Qed.

Lemma sentiment_entries_push (events : list StoredEvent.t) (e : StoredEvent.t) :
  length (filter (fun x => String.eqb (StoredEvent.type x) "call.sentiment")
            (events ++ [e]))
  = (length (filter (fun x => String.eqb (StoredEvent.type x) "call.sentiment")
               events)
     + if String.eqb (StoredEvent.type e) "call.sentiment" then 1 else 0)%nat.
Proof.
  rewrite filter_app, length_app. cbn [filter].
  destruct (String.eqb (StoredEvent.type e) "call.sentiment"); reflexivity.
Qed.

Lemma analyticsSound_invariant : RecordInvariant analyticsSound.
Proof.
  split; [split|]; unfold analyticsSound.
  - intros k event c r c' [Ht [Hi [Hs Hn]]] _.
    unfold bind, applyEventType, pushEvent, modify, _analyzeTranscription,
      throw, ret.
    destruct (String.eqb (Event.type event) "call.answered") eqn:E1.
    { apply String.eqb_eq in E1. intros H; inversion H; subst. cbn.
      rewrite sentiment_entries_push. cbn. rewrite E1. cbn.
      rewrite Nat.add_0_r. auto. }
    destruct (String.eqb (Event.type event) "call.ended") eqn:E2.
    { apply String.eqb_eq in E2. intros H; inversion H; subst. cbn.
      rewrite sentiment_entries_push. cbn. rewrite E2. cbn.
      rewrite Nat.add_0_r. auto. }
    destruct (String.eqb (Event.type event) "call.transcription") eqn:E3.
    { apply String.eqb_eq in E3.
      destruct (Event.data event) as [d|];
        [|intros H; inversion H; subst; auto].
      destruct (EventData.text d) as [text|];
        [|intros H; inversion H; subst; cbn; auto].
      intros H; inversion H; subst. cbn.
      rewrite sentiment_entries_push. cbn. rewrite E3. cbn.
      rewrite Nat.add_0_r.
      split; [|split; [|split; [exact Hs|exact Hn]]].
      - assert (Hw : (0 <= inject_Z (Z.of_nat (length (splitWhiteSpace text)))
                            / wordsPerMinute * 60)%Q).
        { unfold wordsPerMinute.
          assert (H0 : (0 <= inject_Z (Z.of_nat (length (splitWhiteSpace text))))%Q).
          { change 0%Q with (inject_Z 0). rewrite <- Zle_Qle. lia. }
          set (x := inject_Z _) in *.
          assert (Heq : (x / 150 * 60 == x * (2 # 5))%Q) by field.
          rewrite Heq. nra. }
        lra.
      - match goal with |- context [if ?b then _ else _] => destruct b end; lia. }
    destruct (String.eqb (Event.type event) "call.sentiment") eqn:E4.
    { destruct (Event.data event) as [d|];
        [|intros H; inversion H; subst; auto].
      intros H; inversion H; subst. cbn.
      rewrite sentiment_entries_push. cbn. rewrite E4.
      rewrite length_app. cbn. rewrite Hn. auto. }
    intros H; inversion H; subst. cbn.
    rewrite sentiment_entries_push. cbn. rewrite E4. cbn.
    rewrite Nat.add_0_r. auto.
  - intros k now c H. exact H.
  - intros k status c H. exact H.
  - intros. cbn. repeat split; try reflexivity; try lia. discriminate.
Qed.

Lemma timestampsMirrorLog_invariant : RecordInvariant timestampsMirrorLog.
Proof.
  split; [split|]; unfold timestampsMirrorLog.
  - intros k event c r c' [Ha [He Hd]] _.
    unfold bind, applyEventType, pushEvent, modify, _analyzeTranscription,
      throw, ret.
    destruct (String.eqb (Event.type event) "call.answered") eqn:E1.
    { intros H; inversion H; subst. record_fields.
      rewrite !lastOfType_push. cbn [storedEvent StoredEvent.type].
      rewrite E1. apply String.eqb_eq in E1. rewrite E1.
      cbn [String.eqb Ascii.eqb Bool.eqb andb option_map StoredEvent.timestamp].
      auto. }
    destruct (String.eqb (Event.type event) "call.ended") eqn:E2.
    { intros H; inversion H; subst. record_fields.
      rewrite !lastOfType_push. cbn [storedEvent StoredEvent.type].
      rewrite E1, E2. cbn [option_map StoredEvent.timestamp]. auto. }
    destruct (String.eqb (Event.type event) "call.transcription") eqn:E3.
    { destruct (Event.data event) as [d|];
        [|intros H; inversion H; subst; auto].
      destruct (EventData.text d) as [text|];
        [|intros H; inversion H; subst; record_fields; auto].
      intros H; inversion H; subst. record_fields.
      rewrite !lastOfType_push. cbn [storedEvent StoredEvent.type].
      rewrite E1, E2. auto. }
    destruct (String.eqb (Event.type event) "call.sentiment") eqn:E4.
    { destruct (Event.data event) as [d|];
        [|intros H; inversion H; subst; auto].
      intros H; inversion H; subst. record_fields.
      rewrite !lastOfType_push. cbn [storedEvent StoredEvent.type].
      rewrite E1, E2. auto. }
    intros H; inversion H; subst. record_fields.
    rewrite !lastOfType_push. cbn [storedEvent StoredEvent.type].
    rewrite E1, E2. auto.
  - intros k now c H. exact H.
  - intros k status c H. exact H.
  - intros. cbn. auto.
Qed.

(** X13.  After any sequence of calls on a new monitor, in every tracked
    record the talk time and the count of interruptions are not negative,
    the silence duration is still the 0 it was created with (nothing
    computes it), and there are as many sentiment scores as sentiment
    entries in the log. *)
Theorem analytics_sound (env : Env) (interval : option Z) (ops : list Op) :
  allCalls analyticsSound (performAll env ops (newCallMonitor interval)).
Proof.
  apply performAll_keepsAll;
    [apply analyticsSound_invariant|apply allCalls_new].
Qed.

(** X14.  After any sequence of calls on a new monitor, in every tracked
    record [answeredAt] and [endedAt] are the timestamps of the last
    answered and ended events of the log, unset when the log has none, and
    [duration] is set with [endedAt], to [(endedAt - createdAt) / 1000]: a
    status that a sweep copied from a snapshot sets none of them. *)
Theorem timestamps_mirror_log (env : Env) (interval : option Z)
    (ops : list Op) :
  allCalls timestampsMirrorLog (performAll env ops (newCallMonitor interval)).
Proof.
  apply performAll_keepsAll;
    [apply timestampsMirrorLog_invariant|apply allCalls_new].
Qed.

(* ------------------------------------------------------------------ *)
(** ** The scheduler *)

Lemma keepsScheduler_refl (callIds : list string) (w : Monitor) :
  keepsScheduler callIds w w.
Proof.
  split; try reflexivity. exists []. split; [rewrite app_nil_r; reflexivity|].
  constructor.
Qed.

Lemma keepsScheduler_trans (callIds : list string) (w1 w2 w3 : Monitor) :
  keepsScheduler callIds w1 w2 -> keepsScheduler callIds w2 w3 ->
  keepsScheduler callIds w1 w3.
Proof.
  intros [E1 I1 P1 C1 L1 K1 [a1 [T1 F1]]] [E2 I2 P2 C2 L2 K2 [a2 [T2 F2]]].
  split; try congruence.
  exists (a1 ++ a2). split; [rewrite T2, T1, app_assoc; reflexivity|].
  apply Forall_app. split; assumption.
Qed.

Lemma keepsScheduler_incl (callIds callIds' : list string) (w w' : Monitor) :
  incl callIds callIds' ->
  keepsScheduler callIds w w' -> keepsScheduler callIds' w w'.
Proof.
  intros Hincl [E I P C L K [a [T F]]]. split; try assumption.
  exists a. split; [exact T|].
  eapply Forall_impl; [|exact F]. cbn beta.
  intros t [k [Hk Ht]]. exists k. split; [apply Hincl; exact Hk|exact Ht].
Qed.

Section KeepsScheduler.
Variable env : Env.
Variable callIds : list string.

Local Abbreviation quiet := (preserves (keepsScheduler callIds)).

Lemma quiet_bind {A B : Type} (m : Comp Monitor A) (k : A -> Comp Monitor B) :
  quiet m -> (forall a, quiet (k a)) -> quiet (bind m k).
Proof. apply preserves_bind, keepsScheduler_trans. Qed.

Lemma quiet_ret {A : Type} (a : A) : quiet (ret a).
Proof. apply preserves_ret, keepsScheduler_refl. Qed.

Lemma quiet_gets {A : Type} (f : Monitor -> A) : quiet (gets f).
Proof. apply preserves_gets, keepsScheduler_refl. Qed.

Lemma quiet_tryCatch {A : Type} (body : Comp Monitor A)
    (handler : JsError -> Comp Monitor A) :
  quiet body -> (forall e, quiet (handler e)) -> quiet (tryCatch body handler).
Proof. apply preserves_tryCatch, keepsScheduler_trans. Qed.

Lemma newDate_quiet : quiet (newDate env).
Proof. intros w r w' H; inversion H; subst. keeps_scheduler_field. Qed.

Lemma emit_quiet (n : Notification) : quiet (emit n).
Proof.
  intros w r w'. unfold emit.
  destruct n; try (intros H; inversion H; subst; keeps_scheduler_field).
  destruct (Nat.eqb (errorListeners w) O); intros H; inversion H; subst;
    keeps_scheduler_field.
Qed.

Lemma consoleError_quiet (e : JsError) : quiet (consoleError e).
Proof. intros w r w' H; inversion H; subst. keeps_scheduler_field. Qed.

Lemma fetchCall_quiet (k : string) : quiet (fetchCall env k).
Proof. intros w r w' H; inversion H; subst. keeps_scheduler_field. Qed.

Lemma storeCall_quiet (k : string) (c : CallData.t) : quiet (storeCall k c).
Proof.
  intros w r w' H; inversion H; subst. keeps_scheduler_field.
  apply CallMap_keys_replace.
Qed.

Lemma reportError_quiet (e : JsError) : quiet (reportError e).
Proof.
  unfold reportError. apply quiet_bind; [apply consoleError_quiet|].
  intros _. apply emit_quiet.
Qed.

Lemma retryFetch_quiet (k : string) : quiet (retryFetch env k).
Proof.
  intros w r w'. unfold retryFetch, retry.
  destruct (retry_loop _ _ _ _ _ _ _ _ w) as [[r1 w1] steps] eqn:Hloop.
  intros H; inversion H; subst.
  eapply preserves_retry_loop in Hloop;
    [|apply keepsScheduler_refl|apply keepsScheduler_trans
     |apply fetchCall_quiet].
  eapply keepsScheduler_trans; [exact Hloop|]. keeps_scheduler_field.
Qed.

Lemma setRemoval_quiet (k : string) :
  In k callIds -> quiet (setTimer (RemoveCallAfter removalDelay k)).
Proof.
  intros Hk w r w' H; inversion H; subst. split; simpl; try reflexivity.
  eexists. split; [reflexivity|]. constructor; [|constructor].
  exists k. split; [exact Hk|reflexivity].
Qed.

Lemma processEvents_quiet (k : string) (events : list Event.t) :
  forall callData, quiet (processEvents env k events callData).
Proof.
  induction events as [|event rest IH]; intros callData; cbn [processEvents].
  - apply quiet_ret.
  - destruct (alreadyProcessed event callData); [apply IH|].
    destruct (bind (applyEventType event) (fun _ => pushEvent event) callData)
      as [[[]|e] callData1].
    + apply quiet_bind; [apply newDate_quiet|]. intros now.
      apply quiet_bind; [apply storeCall_quiet|]. intros _.
      apply quiet_bind; [apply emit_quiet|]. intros _. apply IH.
    + apply quiet_bind; [apply storeCall_quiet|]. intros _.
      apply preserves_throw, keepsScheduler_refl.
Qed.

Lemma processCallEvents_quiet (k : string) (events : list Event.t) :
  quiet (_processCallEvents env k events).
Proof.
  unfold _processCallEvents. apply quiet_bind; [apply quiet_gets|].
  intros [callData|]; [|apply quiet_ret].
  apply quiet_bind; [apply processEvents_quiet|].
  intros c. apply emit_quiet.
Qed.

Lemma applySnapshot_quiet (k : string) (callData : CallData.t)
    (call : Snapshot.t) :
  In k callIds -> quiet (applySnapshot env k callData call).
Proof.
  intros Hk. unfold applySnapshot. apply quiet_bind.
  { destruct (negb (String.eqb (Snapshot.status call) (CallData.status callData)));
      [|apply quiet_ret].
    apply quiet_bind; [apply storeCall_quiet|]. intros _.
    apply quiet_bind; [apply newDate_quiet|]. intros now.
    apply quiet_bind; [apply emit_quiet|]. intros _. apply quiet_ret. }
  intros callData1. apply quiet_bind.
  { destruct (Snapshot.events call) as [[|event events]|];
      [apply quiet_ret|apply processCallEvents_quiet|apply quiet_ret]. }
  intros _. apply quiet_bind; [apply quiet_gets|]. intros current.
  match goal with |- quiet (if ?b then _ else _) => destruct b end;
    [|apply quiet_ret].
  apply quiet_bind; [apply setRemoval_quiet; exact Hk|].
  intros _. apply quiet_ret.
Qed.

Lemma monitorCall_quiet (k : string) :
  In k callIds -> quiet (monitorCall env k).
Proof.
  intros Hk. unfold monitorCall. apply quiet_bind; [apply quiet_gets|].
  intros [callData|]; [|apply quiet_ret].
  destruct (String.eqb (CallData.status callData) statusCompleted);
    [apply quiet_ret|].
  apply quiet_tryCatch; [|apply reportError_quiet].
  unfold pollCall. apply quiet_bind; [apply retryFetch_quiet|].
  intros call. apply applySnapshot_quiet. exact Hk.
Qed.

Lemma forEachCall_quiet (ks : list string) :
  incl ks callIds -> quiet (forEachCall env ks).
Proof.
  induction ks as [|k rest IH]; intros Hincl; cbn [forEachCall].
  - apply quiet_ret.
  - apply quiet_bind;
      [apply monitorCall_quiet, Hincl; left; reflexivity|].
    intros _. apply IH. intros x Hx. apply Hincl. right. exact Hx.
Qed.

End KeepsScheduler.

Lemma monitorCalls_quiet (env : Env) (w : Monitor) (r : completion unit)
    (w' : Monitor) :
  _monitorCalls env w = (r, w') ->
  keepsScheduler (CallMap.keys (activeCalls w)) w w'.
Proof.
  unfold _monitorCalls, bind at 1, gets.
  destruct (monitoringEnabled w); cbn [negb];
    [|intros H; inversion H; subst; apply keepsScheduler_refl].
  unfold tryCatch, bind, gets.
  destruct (forEachCall env (CallMap.keys (activeCalls w)) w)
    as [[[]|e] w1] eqn:Hloop;
    apply (forEachCall_quiet env (CallMap.keys (activeCalls w))) in Hloop;
    try apply incl_refl.
  - intros H; inversion H; subst. exact Hloop.
  - intros H. eapply keepsScheduler_trans; [exact Hloop|].
    eapply reportError_quiet. exact H.
Qed.

(** X15.  Ingestion and sweeps leave the scheduler alone: neither changes
    the monitoring flag, the interval id, the period, the cleared timers,
    the listeners or the keys of the map (neither adds nor removes a call).
    Ingestion sets no timer.  A visit of a call by the sweep (one turn of
    the loop of [_monitorCalls]) sets no timer but removals of the call it
    visits, after 30000 ms; so the only timers a sweep sets are removals of
    calls after 30000 ms. *)
Theorem ingestion_and_sweep_keep_scheduler (env : Env) (w : Monitor) :
  (exists callIds,
      keepsScheduler callIds w (snd (_monitorCalls env w)))
  /\ (forall callId,
        keepsScheduler [callId] w (snd (monitorCall env callId w)))
  /\ (forall callId events,
        keepsScheduler [] w (snd (_processCallEvents env callId events w)))
  /\ removalDelay = 30000.
Proof.
  split; [|split; [|split; [|reflexivity]]].
  - exists (CallMap.keys (activeCalls w)).
    destruct (_monitorCalls env w) as [r w'] eqn:Hrun.
    exact (monitorCalls_quiet env w r w' Hrun).
  - intros callId.
    destruct (monitorCall env callId w) as [r w'] eqn:Hrun.
    exact (monitorCall_quiet env [callId] callId (or_introl eq_refl)
             w r w' Hrun).
  - intros callId events.
    destruct (_processCallEvents env callId events w) as [r w'] eqn:Hrun.
    exact (processCallEvents_quiet env [] callId events w r w' Hrun).
Qed.

Lemma skipn_nth_error {A : Type} (l : list A) :
  forall position x,
    nth_error l position = Some x ->
    skipn position l = x :: skipn (S position) l.
Proof.
  induction l as [|y l IH]; intros [|position] x H; cbn in H;
    try discriminate.
  - inversion H. reflexivity.
  - exact (IH position x H).
Qed.

Lemma skipn_nth_error_None {A : Type} (l : list A) :
  forall position, nth_error l position = None -> skipn position l = [].
Proof.
  induction l as [|y l IH]; intros [|position] H; cbn in H;
    try discriminate; try reflexivity.
  exact (IH position H).
Qed.

(** The walk of the live map and the walk of the keys listed beforehand
    are the same sweep: no turn changes the keys, so the entry that the
    iterator finds next is the next of the keys there were.  The bound on
    the turns is never reached when it is at least the number of entries
    left. *)
Lemma visitEntries_forEachCall (env : Env) (fuel : nat) :
  forall position w,
    (length (activeCalls w) - position <= fuel)%nat ->
    visitEntries env fuel position w
    = forEachCall env (skipn position (CallMap.keys (activeCalls w))) w.
Proof.
  induction fuel as [|fuel IH]; intros position w Hfuel.
  - cbn [visitEntries].
    destruct (nth_error (CallMap.keys (activeCalls w)) position)
      as [callId|] eqn:Hnth.
    + exfalso.
      assert (Hlt : (position < length (CallMap.keys (activeCalls w)))%nat)
        by (apply nth_error_Some; congruence).
      unfold CallMap.keys in Hlt. rewrite length_map in Hlt. lia.
    + rewrite (skipn_nth_error_None _ _ Hnth). reflexivity.
  - cbn [visitEntries].
    destruct (nth_error (CallMap.keys (activeCalls w)) position)
      as [callId|] eqn:Hnth.
    + rewrite (skipn_nth_error _ _ _ Hnth). cbn [forEachCall]. unfold bind.
      destruct (monitorCall env callId w) as [[[]|e] w1] eqn:Hvisit;
        [|reflexivity].
      pose proof (monitorCall_quiet env [callId] callId (or_introl eq_refl)
                    w _ w1 Hvisit) as Hkeep.
      rewrite <- (ks_keys _ _ _ Hkeep). apply IH.
      assert (Hlen : length (activeCalls w1) = length (activeCalls w)).
      { pose proof (f_equal (@length string) (ks_keys _ _ _ Hkeep)) as H.
        unfold CallMap.keys in H. rewrite !length_map in H. exact H. }
      assert (Hlt : (position < length (CallMap.keys (activeCalls w)))%nat)
        by (apply nth_error_Some; congruence).
      unfold CallMap.keys in Hlt. rewrite length_map in Hlt. lia.
    + rewrite (skipn_nth_error_None _ _ Hnth). reflexivity.
Qed.

(** A sweep is the walk of the live map from its first entry. *)
Lemma monitorCalls_walks_live_map (env : Env) (w : Monitor) :
  _monitorCalls env w
  = (enabled <- gets monitoringEnabled ;;
     if negb enabled then ret tt
     else
       tryCatch
         (calls <- gets activeCalls ;; visitEntries env (length calls) O)
         reportError)%comp w.
Proof.
  unfold _monitorCalls, bind at 1 3, gets.
  destruct (negb (monitoringEnabled w)); [reflexivity|].
  unfold tryCatch, bind, gets.
  rewrite visitEntries_forEachCall by lia. reflexivity.
Qed.

Lemma filter_none {A : Type} (f : A -> bool) (l : list A) :
  (forall x, In x l -> f x = false) -> filter f l = [].
Proof.
  induction l as [|x l IH]; intros H; cbn [filter]; [reflexivity|].
  rewrite (H x) by (left; reflexivity). apply IH.
  intros y Hy. apply H. right. exact Hy.
Qed.

Lemma filter_twice {A : Type} (f g : A -> bool) (l : list A) :
  filter f (filter g l) = filter (fun x => g x && f x) l.
Proof.
  induction l as [|x l IH]; cbn [filter]; [reflexivity|].
  destruct (g x); cbn [filter andb]; [destruct (f x)|]; rewrite IH; reflexivity.
Qed.

Lemma schedulerConsistent_ext (w w' : Monitor) :
  schedulerOf w' = schedulerOf w ->
  schedulerConsistent w -> schedulerConsistent w'.
Proof.
  unfold schedulerOf. intros H [E L P C]. inversion H as [[He Hi Hp Ht Hc]].
  split.
  - rewrite He, Hi. exact E.
  - unfold liveSweepTimers, isLiveSweep in *. rewrite Ht, Hc, Hi. exact L.
  - intros i Hid. rewrite Ht, Hp. apply P. rewrite <- Hi. exact Hid.
  - intros i Hin. rewrite Ht. apply C. rewrite <- Hc. exact Hin.
Qed.

(** Removal timers do not count as sweep timers. *)
Lemma keepsScheduler_consistent (callIds : list string) (w w' : Monitor) :
  keepsScheduler callIds w w' ->
  schedulerConsistent w -> schedulerConsistent w'.
Proof.
  intros [He Hi Hp Hc _ _ [added [Ht Hadded]]] [E L P C]. split.
  - rewrite He, Hi. exact E.
  - rewrite Hi, <- L. unfold liveSweepTimers. rewrite Ht, length_app, seq_app.
    rewrite filter_app. rewrite (filter_none _ (seq _ (length added))).
    + rewrite app_nil_r. apply filter_ext_in. intros i Hin.
      apply in_seq in Hin. unfold isLiveSweep.
      rewrite Ht, Hc, nth_error_app1 by lia. reflexivity.
    + intros i Hin. apply in_seq in Hin. unfold isLiveSweep.
      rewrite Ht, nth_error_app2 by lia.
      destruct (nth_error added (i - length (timers w))) as [t|] eqn:Hnth;
        [|reflexivity].
      apply nth_error_In in Hnth.
      rewrite Forall_forall in Hadded.
      destruct (Hadded t Hnth) as [k [_ ->]]. reflexivity.
  - intros i Hid. rewrite Hi in Hid. rewrite Hp, Ht.
    rewrite nth_error_app1; [apply P; exact Hid|].
    apply nth_error_Some. rewrite (P i Hid). discriminate.
  - intros i Hin. rewrite Hc in Hin. rewrite Ht, length_app.
    specialize (C i Hin). lia.
Qed.

Lemma startMonitoring_consistent (w : Monitor) :
  schedulerConsistent w -> schedulerConsistent (snd (startMonitoring w)).
Proof.
  intros [E L P C]. unfold startMonitoring, bind at 1, gets.
  destruct (monitoringIntervalId w) as [i|] eqn:Hid.
  { cbn [ret snd]. split; try assumption; rewrite ?Hid; assumption. }
  cbv [bind modify gets setTimer emit snd].
  split; simpl.
  - reflexivity.
  - unfold liveSweepTimers in *. simpl. rewrite length_app, seq_app.
    cbn [length seq Nat.add]. rewrite filter_app.
    replace (filter _ (seq 0 (length (timers w)))) with (@nil nat).
    + cbn [filter app]. unfold isLiveSweep. simpl.
      rewrite nth_error_app2, Nat.sub_diag by lia. cbn [nth_error].
      replace (existsb (Nat.eqb (length (timers w))) (clearedTimers w))
        with false; [reflexivity|].
      symmetry. apply not_true_is_false. intros Hex.
      apply existsb_exists in Hex. destruct Hex as [j [Hj Heq]].
      apply Nat.eqb_eq in Heq. subst j. specialize (C _ Hj). lia.
    + rewrite <- L. apply filter_ext_in. intros i Hin.
      apply in_seq in Hin. unfold isLiveSweep. simpl.
      rewrite nth_error_app1 by lia. reflexivity.
  - intros i Hi. inversion Hi; subst.
    rewrite nth_error_app2, Nat.sub_diag by lia. reflexivity.
  - intros i Hin. rewrite length_app. specialize (C i Hin). lia.
Qed.

Lemma stopMonitoring_consistent (w : Monitor) :
  schedulerConsistent w -> schedulerConsistent (snd (stopMonitoring w)).
Proof.
  intros [E L P C]. unfold stopMonitoring, bind at 1, gets.
  destruct (monitoringIntervalId w) as [i|] eqn:Hid.
  2:{ cbn [ret snd]. split; try assumption; rewrite ?Hid; assumption. }
  cbv [bind modify clearInterval emit snd].
  split; simpl.
  - reflexivity.
  - unfold liveSweepTimers in *. simpl.
    transitivity (filter (fun j => negb (Nat.eqb j i))
                    (filter (isLiveSweep w) (seq 0 (length (timers w))))).
    + rewrite filter_twice. apply filter_ext. intros j.
      unfold isLiveSweep. simpl.
      destruct (nth_error (timers w) j) as [[ms|ms k]|]; try reflexivity.
      rewrite existsb_app. cbn [existsb]. rewrite orb_false_r, negb_orb.
      reflexivity.
    + rewrite L. cbn [filter]. rewrite Nat.eqb_refl. reflexivity.
  - intros j Hj. discriminate.
  - intros j Hin. apply in_app_or in Hin. destruct Hin as [Hin|[<-|[]]].
    + apply C. exact Hin.
    + apply nth_error_Some. rewrite (P i eq_refl). discriminate.
Qed.

Lemma addCall_consistent (env : Env) (callId : string) (metadata : Metadata)
    (w : Monitor) :
  schedulerConsistent w ->
  schedulerConsistent (snd (addCall env callId metadata w)).
Proof.
  intros Hw. destruct (CallMap.has callId (activeCalls w)) eqn:Hhas.
  - rewrite addCall_tracked by exact Hhas. exact Hw.
  - rewrite addCall_new_run by exact Hhas. cbn [snd].
    destruct (monitoringIntervalId w) as [i|] eqn:Hid.
    + eapply schedulerConsistent_ext; [|exact Hw]. reflexivity.
    + eapply schedulerConsistent_ext;
        [|exact (startMonitoring_consistent w Hw)].
      unfold startMonitoring, bind at 1, gets. rewrite Hid. reflexivity.
Qed.

Lemma removeCall_consistent (callId : string) (w : Monitor) :
  schedulerConsistent w -> schedulerConsistent (snd (removeCall callId w)).
Proof.
  intros Hw. destruct (getCall callId w) as [callData|] eqn:Hget.
  - rewrite (removeCall_run callId w callData Hget). cbn [snd].
    destruct (CallMap.size (CallMap.delete callId (activeCalls w)) =? 0).
    + destruct (monitoringIntervalId w) as [i|] eqn:Hid.
      * eapply schedulerConsistent_ext;
          [|exact (stopMonitoring_consistent w Hw)].
        unfold stopMonitoring, bind at 1, gets. rewrite Hid. reflexivity.
      * eapply schedulerConsistent_ext; [|exact Hw]. reflexivity.
    + eapply schedulerConsistent_ext; [|exact Hw]. reflexivity.
  - rewrite removeCall_untracked by exact Hget. exact Hw.
Qed.

Lemma perform_consistent (env : Env) (op : Op) (w : Monitor) :
  schedulerConsistent w -> schedulerConsistent (perform env op w).
Proof.
  intros Hw. destruct op as [callId metadata|callId|callId events| | | |];
    cbn [perform].
  - apply addCall_consistent. exact Hw.
  - apply removeCall_consistent. exact Hw.
  - destruct (_processCallEvents env callId events w) as [r w'] eqn:Hrun.
    eapply keepsScheduler_consistent; [|exact Hw].
    exact (processCallEvents_quiet env [] callId events w r w' Hrun).
  - destruct (_monitorCalls env w) as [r w'] eqn:Hrun.
    eapply keepsScheduler_consistent; [|exact Hw].
    exact (monitorCalls_quiet env w r w' Hrun).
  - apply startMonitoring_consistent. exact Hw.
  - apply stopMonitoring_consistent. exact Hw.
  - eapply schedulerConsistent_ext; [|exact Hw]. reflexivity.
Qed.

Lemma scheduler_consistent_all (env : Env) (interval : option Z)
    (ops : list Op) :
  schedulerConsistent (performAll env ops (newCallMonitor interval)).
Proof.
  assert (H0 : schedulerConsistent (newCallMonitor interval)).
  { split; try reflexivity; try discriminate. intros i []. }
  revert H0. generalize (newCallMonitor interval). unfold performAll.
  induction ops as [|op ops IH]; intros w Hw; cbn [fold_left]; [exact Hw|].
  apply IH. apply perform_consistent. exact Hw.
Qed.

(** X16.  After any sequence of calls on a new monitor (calls of
    [startMonitoring] and [stopMonitoring] included), the scheduler is
    consistent: monitoring is enabled exactly when an interval id is held;
    the sweep timers that were set and not cleared are that one timer, or
    none when no id is held, so that two sweeps never run side by side and
    no sweep timer is left behind; and that timer has the period of the
    monitor. *)
Theorem scheduler_consistent (env : Env) (interval : option Z)
    (ops : list Op) :
  schedulerConsistent (performAll env ops (newCallMonitor interval)).
Proof. apply scheduler_consistent_all. Qed.

Lemma keys_nil (m : CallMap.t) : CallMap.keys m = [] <-> m = [].
Proof.
  unfold CallMap.keys. destruct m; cbn; split; congruence.
Qed.

Lemma keepsScheduler_follows (callIds : list string) (w w' : Monitor) :
  keepsScheduler callIds w w' -> followsRegistry w -> followsRegistry w'.
Proof.
  intros H Hw. unfold followsRegistry in *.
  rewrite (ks_intervalId _ _ _ H), <- keys_nil, (ks_keys _ _ _ H), keys_nil.
  exact Hw.
Qed.

Lemma perform_follows (env : Env) (op : Op) (w : Monitor) :
  leavesScheduler op = true ->
  followsRegistry w -> followsRegistry (perform env op w).
Proof.
  intros Hop Hw.
  destruct op as [callId metadata|callId|callId events| | | |];
    try discriminate; cbn [perform].
  - destruct (CallMap.has callId (activeCalls w)) eqn:Hhas.
    + rewrite addCall_tracked by exact Hhas. exact Hw.
    + unfold followsRegistry. rewrite addCall_activeCalls, Hhas.
      rewrite addCall_new_run by exact Hhas. cbn [snd].
      split.
      * destruct (monitoringIntervalId w) eqn:Hid; simpl; rewrite ?Hid;
          discriminate.
      * intros Hnil. apply app_eq_nil in Hnil. destruct Hnil as [_ Hl].
        discriminate.
  - destruct (getCall callId w) as [callData|] eqn:Hget;
      [|rewrite removeCall_untracked by exact Hget; exact Hw].
    unfold followsRegistry. rewrite removeCall_activeCalls.
    rewrite (removeCall_run callId w callData Hget). cbn [snd].
    assert (Hsize : forall m : CallMap.t, (CallMap.size m =? 0) = true <-> m = []).
    { intros m. unfold CallMap.size. rewrite Z.eqb_eq.
      destruct m; cbn [length]; split; try reflexivity; try discriminate; lia. }
    destruct (CallMap.size (CallMap.delete callId (activeCalls w)) =? 0) eqn:Hs.
    + apply Hsize in Hs. rewrite Hs.
      destruct (monitoringIntervalId w) eqn:Hid; simpl; rewrite ?Hid; tauto.
    + assert (Hne : CallMap.delete callId (activeCalls w) <> []).
      { intros Hnil. apply Hsize in Hnil. congruence. }
      simpl. split; [|intros H; contradiction].
      intros Hn. apply Hw in Hn.
      unfold getCall in Hget. rewrite Hn in Hget. discriminate.
  - destruct (_processCallEvents env callId events w) as [r w'] eqn:Hrun.
    eapply keepsScheduler_follows; [|exact Hw].
    exact (processCallEvents_quiet env [] callId events w r w' Hrun).
  - destruct (_monitorCalls env w) as [r w'] eqn:Hrun.
    eapply keepsScheduler_follows; [|exact Hw].
    exact (monitorCalls_quiet env w r w' Hrun).
  - exact Hw.
Qed.

(** X17.  As long as [startMonitoring] and [stopMonitoring] are left to
    [addCall] and [removeCall], the scheduler follows the registry: after
    any sequence of additions, removals, ingestions, sweeps and
    subscriptions on a new monitor, monitoring is enabled, with an interval
    id held, exactly when at least one call is tracked. *)
Theorem scheduler_follows_registry (env : Env) (interval : option Z)
    (ops : list Op) :
  forallb leavesScheduler ops = true ->
  (monitoringEnabled (performAll env ops (newCallMonitor interval)) = true
   <-> activeCalls (performAll env ops (newCallMonitor interval)) <> [])
  /\ followsRegistry (performAll env ops (newCallMonitor interval)).
Proof.
  intros Hops.
  assert (Hf : followsRegistry (performAll env ops (newCallMonitor interval))).
  { assert (H0 : followsRegistry (newCallMonitor interval))
      by (split; reflexivity).
    revert H0 Hops. generalize (newCallMonitor interval). unfold performAll.
    induction ops as [|op ops IH]; intros w Hw Hops; cbn [fold_left];
      [exact Hw|].
    cbn [forallb] in Hops. apply andb_true_iff in Hops.
    destruct Hops as [Hop Hops].
    apply IH; [apply perform_follows; assumption|exact Hops]. }
  split; [|exact Hf].
  pose proof (scheduler_consistent_all env interval ops) as Hc.
  rewrite (sched_enabled _ Hc). unfold followsRegistry in Hf.
  destruct (monitoringIntervalId (performAll env ops (newCallMonitor interval)))
    as [i|].
  - split; [intros _ Hnil|reflexivity]. apply Hf in Hnil. discriminate.
  - split; [discriminate|]. intros Hne. exfalso. apply Hne, Hf. reflexivity.
Qed.

Lemma scheduler_follows_registry_witness :
  forallb leavesScheduler
    [OpAddCall "c1" []; OpMonitorCalls; OpRemoveCall "c1"] = true
  /\ (monitoringEnabled
        (performAll Scenario.envNotFound
           [OpAddCall "c1" []; OpMonitorCalls; OpRemoveCall "c1"]
           (newCallMonitor None)) = true
      <-> activeCalls
            (performAll Scenario.envNotFound
               [OpAddCall "c1" []; OpMonitorCalls; OpRemoveCall "c1"]
               (newCallMonitor None)) <> []).
Proof.
  split; [reflexivity|].
  exact (proj1 (scheduler_follows_registry Scenario.envNotFound None
                  [OpAddCall "c1" []; OpMonitorCalls; OpRemoveCall "c1"]
                  eq_refl)).
Defined.

(* ------------------------------------------------------------------ *)
(** ** What ingestion and sweeps keep of a record *)

Lemma persists_refl (c : CallData.t) : persists c c.
Proof.
  split; try reflexivity. exists []. rewrite app_nil_r. reflexivity.
Qed.

Lemma persists_trans (c1 c2 c3 : CallData.t) :
  persists c1 c2 -> persists c2 c3 -> persists c1 c3.
Proof.
  intros [I1 M1 C1 [a1 E1]] [I2 M2 C2 [a2 E2]]. split; try congruence.
  exists (a1 ++ a2). rewrite E2, E1, app_assoc. reflexivity.
Qed.

(** The log after the handler and the push. *)
Lemma handle_push_events (event : Event.t) (c c' : CallData.t)
    (r : completion unit) :
  bind (applyEventType event) (fun _ => pushEvent event) c = (r, c') ->
  CallData.events c'
  = CallData.events c
    ++ match r with Return _ => [storedEvent event] | Throw _ => [] end.
Proof.
  unfold bind.
  destruct (applyEventType event c) as [[[]|e] c1] eqn:Happly;
    apply applyEventType_evolves in Happly; destruct Happly as [_ Hevents].
  - unfold pushEvent, modify. intros H; inversion H; subst.
    cbn [CallData.events CallData.setEvents]. rewrite Hevents. reflexivity.
  - intros H; inversion H; subst. rewrite app_nil_r. exact Hevents.
Qed.

Lemma persistsFrom_step (k0 : string) (c0 : CallData.t) :
  RecordStep (persistsFrom k0 c0).
Proof.
  split; unfold persistsFrom.
  - intros k event c r c' Hc _ Hstep Hk.
    eapply persists_trans; [apply Hc; exact Hk|].
    pose proof (handle_push_events _ _ _ _ Hstep) as Hev.
    apply handle_push_evolves in Hstep. destruct Hstep as [He _].
    split; [apply (evolves_id _ _ He)|apply (evolves_metadata _ _ He)
           |apply (evolves_createdAt _ _ He)|].
    eexists. exact Hev.
  - intros k now c Hc Hk.
    eapply persists_trans; [apply Hc; exact Hk|].
    split; try reflexivity. exists []. rewrite app_nil_r. reflexivity.
  - intros k status c Hc Hk.
    eapply persists_trans; [apply Hc; exact Hk|].
    split; try reflexivity. exists []. rewrite app_nil_r. reflexivity.
Qed.

Lemma kept_record (k : string) (c : CallData.t) (w w' : Monitor) :
  getCall k w = Some c ->
  CallMap.keys (activeCalls w') = CallMap.keys (activeCalls w) ->
  keepsAll (persistsFrom k c) w w' ->
  exists c', getCall k w' = Some c' /\ persists c c'.
Proof.
  intros Hget Hkeys Hkeep.
  assert (Hall : allCalls (persistsFrom k c) w).
  { intros k' c' Hget' Hk. subst k'. rewrite Hget in Hget'.
    inversion Hget'; subst. apply persists_refl. }
  specialize (Hkeep Hall).
  destruct (getCall k w') as [c'|] eqn:Hget'.
  - exists c'. split; [reflexivity|]. apply (Hkeep k c' Hget' eq_refl).
  - exfalso. unfold getCall in Hget'. apply CallMap_get_None_keys in Hget'.
    apply Hget'. rewrite Hkeys. eapply CallMap_get_In_keys. exact Hget.
Qed.

(** X18.  Neither a sweep nor an ingestion, however it ends (an error
    thrown in the middle included), drops a tracked call or rewrites its
    past: every record tracked before is tracked after, under the same id,
    with the same metadata and creation time, and with its log extended at
    the end only. *)
Theorem ingestion_and_sweep_keep_records (env : Env) (w : Monitor)
    (k : string) (c : CallData.t) :
  getCall k w = Some c ->
  (exists c', getCall k (snd (_monitorCalls env w)) = Some c' /\ persists c c')
  /\ (forall callId events,
        exists c',
          getCall k (snd (_processCallEvents env callId events w)) = Some c'
          /\ persists c c').
Proof.
  intros Hget. split.
  - destruct (_monitorCalls env w) as [r w'] eqn:Hrun. cbn [snd].
    apply (kept_record k c w w' Hget).
    + apply (ks_keys _ _ _ (monitorCalls_quiet env w r w' Hrun)).
    + exact (monitorCalls_keepsAll env _ (persistsFrom_step k c) w r w' Hrun).
  - intros callId events.
    destruct (_processCallEvents env callId events w) as [r w'] eqn:Hrun.
    cbn [snd]. apply (kept_record k c w w' Hget).
    + apply (ks_keys _ _ _
               (processCallEvents_quiet env [] callId events w r w' Hrun)).
    + exact (processCallEvents_keepsAll env _ (persistsFrom_step k c)
               callId events w r w' Hrun).
Qed.

Lemma ingestion_and_sweep_keep_records_witness :
  getCall "c1" (Scenario.answeredOnce Scenario.envCompleted)
  = Some Scenario.answeredRecord
  /\ exists c',
       getCall "c1"
         (snd (_monitorCalls Scenario.envCompleted
                 (Scenario.answeredOnce Scenario.envCompleted))) = Some c'
       /\ persists Scenario.answeredRecord c'.
Proof.
  split; [reflexivity|].
  exact (proj1 (ingestion_and_sweep_keep_records Scenario.envCompleted
                  (Scenario.answeredOnce Scenario.envCompleted) "c1"
                  Scenario.answeredRecord eq_refl)).
Defined.

(* ------------------------------------------------------------------ *)
(** ** The log after an ingestion *)

Section IngestionLog.
Variable env : Env.
Variable callId : string.

(** When every event carries the payload its handler reads, the log grows
    by the entries of the events that were not in it, in order of
    delivery. *)
Lemma processEvents_log (events : list Event.t) :
  forall callData w,
    (forall e, In e events -> hasPayload e = true) ->
    exists callData' w',
      processEvents env callId events callData w = (Return callData', w')
      /\ CallData.events callData'
         = CallData.events callData
           ++ map storedEvent (freshEvents (eventIds callData) events)
      /\ emitted w'
         = emitted w
           ++ map (CallEvent callId) (freshEvents (eventIds callData) events).
Proof.
  induction events as [|event rest IH]; intros callData w Hpay;
    cbn [processEvents freshEvents].
  - exists callData, w. rewrite !app_nil_r. auto.
  - rewrite <- alreadyProcessed_eventIds.
    destruct (alreadyProcessed event callData) eqn:Hseen.
    + apply IH. intros e He. apply Hpay. right. exact He.
    + destruct (applyEventType_hasPayload event callData
                  (Hpay event (or_introl eq_refl))) as [c1 Hc1].
      assert (Hstep : bind (applyEventType event) (fun _ => pushEvent event)
                        callData
                      = (Return tt,
                         CallData.setEvents
                           (CallData.events c1 ++ [storedEvent event]) c1))
        by (unfold bind; rewrite Hc1; reflexivity).
      rewrite Hstep.
      pose proof (handle_push_evolves _ _ _ _ Hstep) as [_ Hids].
      pose proof (handle_push_events _ _ _ _ Hstep) as Hevs.
      unfold bind at 1. unfold newDate at 1.
      unfold bind at 1. unfold storeCall at 1, modify at 1.
      unfold bind at 1. unfold emit at 1.
      set (callData2 := CallData.setLastUpdated _ _).
      set (w2 := setEmitted _ _).
      destruct (IH callData2 w2) as [c' [w' [Hrun [Hlog Hem]]]].
      { intros e He. apply Hpay. right. exact He. }
      exists c', w'. split; [exact Hrun|].
      change (eventIds callData2) with
        (eventIds (CallData.setEvents
                     (CallData.events c1 ++ [storedEvent event]) c1)) in *.
      change (CallData.events callData2) with
        (CallData.events (CallData.setEvents
                            (CallData.events c1 ++ [storedEvent event]) c1))
        in Hlog.
      rewrite Hids in *. split.
      * rewrite Hlog, Hevs. cbn [map]. rewrite <- app_assoc. reflexivity.
      * rewrite Hem. unfold w2. simpl. rewrite <- app_assoc. reflexivity.
Qed.



End IngestionLog.

(** X19.  For a tracked call and a batch in which every event carries the
    payload its handler reads, ingestion extends the log by one entry for
    each event that was not in it, in order of delivery, and by nothing
    else: an event delivered twice, in this batch or before, has one entry. *)
Theorem ingestion_logs_new_events (env : Env) (callId : string)
    (events : list Event.t) (w : Monitor) (callData : CallData.t) :
  getCall callId w = Some callData ->
  (forall e, In e events -> hasPayload e = true) ->
  exists callData',
    getCall callId (snd (_processCallEvents env callId events w))
    = Some callData'
    /\ CallData.events callData'
       = CallData.events callData
         ++ map storedEvent (freshEvents (eventIds callData) events).
Proof.
  intros Hget Hpay.
  destruct (processEvents_log env callId events callData w Hpay)
    as [c' [w1 [Hrun [Hlog _]]]].
  destruct (processEvents_record env callId events _ _ _ _ Hget Hrun)
    as [c'' [Hc' [_ [Hc _]]]]. subst c''.
  exists c'. split; [|exact Hlog].
  unfold _processCallEvents, bind at 1, gets. rewrite Hget.
  unfold bind. rewrite Hrun. exact Hc'.
Qed.

Lemma ingestion_logs_new_events_witness :
  getCall "c1" (Scenario.answeredOnce Scenario.envNotFound)
  = Some Scenario.answeredRecord
  /\ (forall e, In e [Scenario.answered 1000; Scenario.ended 5000;
                      Scenario.ended 5000] -> hasPayload e = true)
  /\ exists callData',
       getCall "c1"
         (snd (_processCallEvents Scenario.envNotFound "c1"
                 [Scenario.answered 1000; Scenario.ended 5000;
                  Scenario.ended 5000]
                 (Scenario.answeredOnce Scenario.envNotFound)))
       = Some callData'
       /\ CallData.events callData'
          = CallData.events Scenario.answeredRecord
            ++ map storedEvent
                 (freshEvents (eventIds Scenario.answeredRecord)
                    [Scenario.answered 1000; Scenario.ended 5000;
                     Scenario.ended 5000]).
Proof.
  assert (Hpay : forall e, In e [Scenario.answered 1000; Scenario.ended 5000;
                                 Scenario.ended 5000] -> hasPayload e = true).
  { intros e [He|[He|[He|[]]]]; subst e; reflexivity. }
  split; [reflexivity|]. split; [exact Hpay|].
  exact (ingestion_logs_new_events Scenario.envNotFound "c1"
           [Scenario.answered 1000; Scenario.ended 5000; Scenario.ended 5000]
           (Scenario.answeredOnce Scenario.envNotFound)
           Scenario.answeredRecord eq_refl Hpay).
Defined.




(* ------------------------------------------------------------------ *)
(** ** One call in a sweep *)

(** X21.  In a sweep with an ['error'] listener, a call that the remote
    answers with a 404 costs one fetch and no suspension; the error is
    logged and emitted; the call stays tracked with its record as it was,
    and no timer is set: it is for the user to remove it. *)
Theorem sweep_not_found_keeps_call (env : Env) (callId : string)
    (w : Monitor) (callData : CallData.t) (e : JsError) :
  errorListeners w <> O ->
  getCall callId w = Some callData ->
  CallData.status callData <> statusCompleted ->
  callsGet env callId (length (fetched w)) = Throw e ->
  responseStatus e = Some 404 ->
  fst (monitorCall env callId w) = Return tt
  /\ activeCalls (snd (monitorCall env callId w)) = activeCalls w
  /\ fetched (snd (monitorCall env callId w)) = fetched w ++ [callId]
  /\ slept (snd (monitorCall env callId w)) = slept w
  /\ emitted (snd (monitorCall env callId w)) = emitted w ++ [ErrorEvent e]
  /\ consoleErrors (snd (monitorCall env callId w)) = consoleErrors w ++ [e]
  /\ timers (snd (monitorCall env callId w)) = timers w.
Proof.
  intros Hl Hget Hst Hanswer H404.
  assert (Hrej : shouldRetryFetch e = false)
    by (unfold shouldRetryFetch; rewrite H404; reflexivity).
  assert (Hfn : fetchCall env callId w
                = (Throw e, setFetched (fetched w ++ [callId]) w))
    by (unfold fetchCall; rewrite Hanswer; reflexivity).
  assert (Hfetch : retryFetch env callId w
                   = (Throw e,
                      setSlept (slept w ++ [])
                        (setRandomDraws (randomDraws w + 0)
                           (setFetched (fetched w ++ [callId]) w)))).
  { unfold retryFetch.
    rewrite (retry_rejected_first (fetchCall env callId) 3 defaultInitialDelay
               shouldRetryFetch _ w _ e eq_refl Hfn Hrej).
    reflexivity. }
  rewrite (monitorCall_fetch_failure env callId w callData e _ Hl Hget Hst
             Hfetch).
  simpl. rewrite app_nil_r. repeat split.
Qed.

Lemma sweep_not_found_keeps_call_witness :
  errorListeners (onError (Scenario.registered Scenario.envNotFound)) <> O
  /\ getCall "c1" (onError (Scenario.registered Scenario.envNotFound))
     = Some (newCallData "c1" [] 0 1)
  /\ CallData.status (newCallData "c1" [] 0 1) <> statusCompleted
  /\ callsGet Scenario.envNotFound "c1"
       (length (fetched (onError (Scenario.registered Scenario.envNotFound))))
     = Throw Scenario.notFound
  /\ responseStatus Scenario.notFound = Some 404
  /\ fst (monitorCall Scenario.envNotFound "c1"
            (onError (Scenario.registered Scenario.envNotFound)))
     = Return tt.
Proof.
  assert (Hl : errorListeners (onError (Scenario.registered Scenario.envNotFound))
               <> O) by discriminate.
  assert (Hst : CallData.status (newCallData "c1" [] 0 1) <> statusCompleted)
    by discriminate.
  split; [exact Hl|]. split; [reflexivity|]. split; [exact Hst|].
  split; [reflexivity|]. split; [reflexivity|].
  exact (proj1 (sweep_not_found_keeps_call Scenario.envNotFound "c1"
                  (onError (Scenario.registered Scenario.envNotFound))
                  (newCallData "c1" [] 0 1) Scenario.notFound
                  Hl eq_refl Hst eq_refl eq_refl)).
Defined.

Lemma retry_first_success {St A : Type} (fn : Comp St A) (maxRetries : Z)
    (initialDelay : Q) (shouldRetry : JsError -> bool) (random : nat -> Q)
    (s s1 : St) (a : A) :
  0 < maxRetries ->
  fn s = (Return a, s1) ->
  retry fn maxRetries initialDelay shouldRetry random s
  = (Return a, s1, [Attempt None]).
Proof.
  intros Hmax Hfn. unfold retry.
  destruct (Z.to_nat maxRetries) as [|fuel] eqn:Hfuel; [lia|].
  cbn [retry_loop].
  replace (0 <? maxRetries) with true by (symmetry; apply Z.ltb_lt; lia).
  rewrite Hfn. reflexivity.
Qed.

(** X22.  In a sweep with an ['error'] listener, a call whose fetch fails
    three times in a row with errors other than a 404 costs exactly three
    fetches and two suspensions, of 1000 ms and 2000 ms plus their jitter;
    then the third error is logged and emitted, and the call stays tracked
    with its record as it was. *)
Theorem sweep_gives_up_after_three_fetches (env : Env) (callId : string)
    (w : Monitor) (callData : CallData.t) (e0 e1 e2 : JsError) :
  errorListeners w <> O ->
  getCall callId w = Some callData ->
  CallData.status callData <> statusCompleted ->
  callsGet env callId (length (fetched w)) = Throw e0 ->
  callsGet env callId (S (length (fetched w))) = Throw e1 ->
  callsGet env callId (S (S (length (fetched w)))) = Throw e2 ->
  shouldRetryFetch e0 = true ->
  shouldRetryFetch e1 = true ->
  fst (monitorCall env callId w) = Return tt
  /\ activeCalls (snd (monitorCall env callId w)) = activeCalls w
  /\ fetched (snd (monitorCall env callId w))
     = fetched w ++ [callId; callId; callId]
  /\ slept (snd (monitorCall env callId w))
     = slept w
       ++ map (backoffAfter 1000
                 (fun k => mathRandom env (randomDraws w + k)%nat))
            [0%nat; 1%nat]
  /\ emitted (snd (monitorCall env callId w)) = emitted w ++ [ErrorEvent e2]
  /\ timers (snd (monitorCall env callId w)) = timers w.
Proof.
  intros Hl Hget Hst H0 H1 H2 Hr0 Hr1.
  set (w1 := setFetched (fetched w ++ [callId]) w).
  set (w2 := setFetched (fetched w1 ++ [callId]) w1).
  set (w3 := setFetched (fetched w2 ++ [callId]) w2).
  assert (Hf0 : fetchCall env callId w = (Throw e0, w1))
    by (unfold fetchCall; rewrite H0; reflexivity).
  assert (Hf1 : fetchCall env callId w1 = (Throw e1, w2)).
  { unfold fetchCall, w1. cbn [fetched setFetched].
    rewrite length_app, Nat.add_1_r, H1. reflexivity. }
  assert (Hf2 : fetchCall env callId w2 = (Throw e2, w3)).
  { unfold fetchCall, w2, w1. cbn [fetched setFetched].
    rewrite !length_app, !Nat.add_1_r, H2. reflexivity. }
  assert (Hretry :
            retry (fetchCall env callId) 3 defaultInitialDelay shouldRetryFetch
              (fun k => mathRandom env (randomDraws w + k)%nat) w
            = (Throw e2, w3,
               [Attempt (Some e0);
                Sleep (backoffAfter 1000
                         (fun k => mathRandom env (randomDraws w + k)%nat) 0);
                Attempt (Some e1);
                Sleep (backoffAfter 1000
                         (fun k => mathRandom env (randomDraws w + k)%nat) 1);
                Attempt (Some e2)])).
  { unfold retry. change (Z.to_nat 3) with 3%nat. cbn [retry_loop].
    change (0 <? 3) with true. cbv iota. rewrite Hf0, Hr0.
    change (0 =? 3 - 1) with false. cbn [negb orb].
    change (0 + 1 <? 3) with true. cbv iota. rewrite Hf1, Hr1.
    change (0 + 1 =? 3 - 1) with false. cbn [negb orb].
    change (0 + 1 + 1 <? 3) with true. cbv iota. rewrite Hf2.
    change (0 + 1 + 1 =? 3 - 1) with true. rewrite orb_true_r.
    reflexivity. }
  assert (Hfetch : retryFetch env callId w
                   = (Throw e2,
                      setSlept
                        (slept w3
                         ++ map (backoffAfter 1000
                                   (fun k => mathRandom env (randomDraws w + k)%nat))
                              [0%nat; 1%nat])
                        (setRandomDraws (randomDraws w3 + 2) w3))).
  { unfold retryFetch. rewrite Hretry. reflexivity. }
  rewrite (monitorCall_fetch_failure env callId w callData e2 _ Hl Hget Hst
             Hfetch).
  unfold w3, w2, w1. simpl. rewrite <- !app_assoc. repeat split.
Qed.

Lemma sweep_gives_up_after_three_fetches_witness :
  errorListeners (onError (Scenario.registered Scenario.envServerError)) <> O
  /\ fetched
       (snd (monitorCall Scenario.envServerError "c1"
               (onError (Scenario.registered Scenario.envServerError))))
     = fetched (onError (Scenario.registered Scenario.envServerError))
       ++ ["c1"; "c1"; "c1"].
Proof.
  assert (Hl : errorListeners
                 (onError (Scenario.registered Scenario.envServerError)) <> O)
    by discriminate.
  assert (Hst : CallData.status (newCallData "c1" [] 0 1) <> statusCompleted)
    by discriminate.
  split; [exact Hl|].
  exact (proj1 (proj2 (proj2
           (sweep_gives_up_after_three_fetches Scenario.envServerError "c1"
              (onError (Scenario.registered Scenario.envServerError))
              (newCallData "c1" [] 0 1)
              Scenario.serverError Scenario.serverError Scenario.serverError
              Hl eq_refl Hst eq_refl eq_refl eq_refl eq_refl eq_refl)))).
Defined.

(** What follows the fetch for a snapshot without events. *)
Lemma applySnapshot_no_events (env : Env) (callId : string) (w : Monitor)
    (callData : CallData.t) (call : Snapshot.t) :
  getCall callId w = Some callData ->
  Snapshot.events call = None \/ Snapshot.events call = Some [] ->
  exists w',
    applySnapshot env callId callData call w = (Return tt, w')
    /\ fetched w' = fetched w
    /\ slept w' = slept w
    /\ (Snapshot.status call = CallData.status callData ->
        activeCalls w' = activeCalls w /\ emitted w' = emitted w)
    /\ (Snapshot.status call <> CallData.status callData ->
        getCall callId w'
        = Some (CallData.setStatus (Snapshot.status call) callData)
        /\ (forall k, k <> callId -> getCall k w' = getCall k w)
        /\ emitted w'
           = emitted w
             ++ [CallStatusChanged callId (CallData.status callData)
                   (Snapshot.status call) (clock env (dateReads w))]).
Proof.
  intros Hget Hev. unfold applySnapshot.
  assert (Hhas : CallMap.has callId (activeCalls w) = true)
    by (apply CallMap_has_get; exists callData; exact Hget).
  assert (Hevents :
            match Snapshot.events call with
            | Some (event :: events) =>
                _processCallEvents env callId (event :: events)
            | _ => ret tt
            end = ret tt)
    by (destruct Hev as [Hev|Hev]; rewrite Hev; reflexivity).
  rewrite Hevents. clear Hevents.
  destruct (String.eqb (Snapshot.status call) (CallData.status callData))
    eqn:Heq; cbn [negb].
  - apply String.eqb_eq in Heq.
    unfold bind, ret, gets. rewrite Hget.
    match goal with |- context [if ?b then _ else _] => destruct b end;
      unfold setTimer; eexists; (split; [reflexivity|]); simpl;
      (split; [reflexivity|]); (split; [reflexivity|]);
      (split; [intros _; split; reflexivity|intros Hne; contradiction]).
  - apply String.eqb_neq in Heq.
    unfold bind, ret, gets, storeCall, modify, newDate, emit.
    unfold getCall.
    cbn [activeCalls setEmitted setDateReads setActiveCalls].
    rewrite (CallMap_get_replace_same callId _ (activeCalls w) Hhas).
    match goal with |- context [if ?b then _ else _] => destruct b end;
      unfold setTimer; eexists; (split; [reflexivity|]); simpl;
      (split; [reflexivity|]); (split; [reflexivity|]);
      (split; [intros Hsame; contradiction|intros _]);
      (split; [apply CallMap_get_replace_same; exact Hhas|]);
      (split; [intros k Hk; apply CallMap_get_replace_other; exact Hk
              |reflexivity]).
Qed.

(** X23.  In a sweep, a call that is not completed and whose fetch succeeds
    at once with a snapshot without events costs one fetch and no
    suspension.  If the snapshot reports the cached status the map of calls
    and the notifications are left as they are; otherwise the record takes
    the status of the snapshot, whatever it is, the other records are left
    alone, and one ['call:status_changed'] notification is emitted, from
    the cached status to the new one, stamped with the clock. *)
Theorem sweep_copies_snapshot_status (env : Env) (callId : string)
    (w : Monitor) (callData : CallData.t) (call : Snapshot.t) :
  getCall callId w = Some callData ->
  CallData.status callData <> statusCompleted ->
  callsGet env callId (length (fetched w)) = Return call ->
  Snapshot.events call = None \/ Snapshot.events call = Some [] ->
  fst (monitorCall env callId w) = Return tt
  /\ fetched (snd (monitorCall env callId w)) = fetched w ++ [callId]
  /\ slept (snd (monitorCall env callId w)) = slept w
  /\ (Snapshot.status call = CallData.status callData ->
      activeCalls (snd (monitorCall env callId w)) = activeCalls w
      /\ emitted (snd (monitorCall env callId w)) = emitted w)
  /\ (Snapshot.status call <> CallData.status callData ->
      getCall callId (snd (monitorCall env callId w))
      = Some (CallData.setStatus (Snapshot.status call) callData)
      /\ (forall k, k <> callId ->
            getCall k (snd (monitorCall env callId w)) = getCall k w)
      /\ emitted (snd (monitorCall env callId w))
         = emitted w
           ++ [CallStatusChanged callId (CallData.status callData)
                 (Snapshot.status call) (clock env (dateReads w))]).
Proof.
  intros Hget Hst Hanswer Hev.
  assert (Hfn : fetchCall env callId w
                = (Return call, setFetched (fetched w ++ [callId]) w))
    by (unfold fetchCall; rewrite Hanswer; reflexivity).
  set (w1 := setSlept (slept w ++ [])
               (setRandomDraws (randomDraws w + 0)
                  (setFetched (fetched w ++ [callId]) w))).
  assert (Hfetch : retryFetch env callId w = (Return call, w1)).
  { unfold retryFetch.
    rewrite (retry_first_success (fetchCall env callId) 3 defaultInitialDelay
               shouldRetryFetch _ w _ call eq_refl Hfn).
    reflexivity. }
  assert (Hget1 : getCall callId w1 = Some callData) by exact Hget.
  destruct (applySnapshot_no_events env callId w1 callData call Hget1 Hev)
    as [w' [Happly [Hf [Hs [Hsame Hdiff]]]]].
  assert (Hrun : monitorCall env callId w = (Return tt, w')).
  { unfold monitorCall, bind at 1, gets. rewrite Hget.
    destruct (String.eqb (CallData.status callData) statusCompleted) eqn:Heq;
      [apply String.eqb_eq in Heq; congruence|].
    unfold tryCatch, pollCall, bind. rewrite Hfetch, Happly. reflexivity. }
  rewrite Hrun. cbn [fst snd].
  split; [reflexivity|]. split; [rewrite Hf; reflexivity|].
  split; [rewrite Hs; unfold w1; simpl; apply app_nil_r|].
  split; [intros H; exact (Hsame H)|intros H; exact (Hdiff H)].
Qed.

Lemma sweep_copies_snapshot_status_witness :
  getCall "c1" (Scenario.answeredOnce Scenario.envCompleted)
  = Some Scenario.answeredRecord
  /\ CallData.status Scenario.answeredRecord <> statusCompleted
  /\ fetched
       (snd (monitorCall Scenario.envCompleted "c1"
               (Scenario.answeredOnce Scenario.envCompleted)))
     = fetched (Scenario.answeredOnce Scenario.envCompleted) ++ ["c1"].
Proof.
  assert (Hst : CallData.status Scenario.answeredRecord <> statusCompleted)
    by discriminate.
  split; [reflexivity|]. split; [exact Hst|].
  exact (proj1 (proj2
           (sweep_copies_snapshot_status Scenario.envCompleted "c1"
              (Scenario.answeredOnce Scenario.envCompleted)
              Scenario.answeredRecord
              (Snapshot.mk statusCompleted (Some []))
              eq_refl Hst eq_refl (or_intror eq_refl)))).
Defined.

(* ------------------------------------------------------------------ *)
(** ** What a sweep asks of the remote *)

Lemma sameFetched_refl (w : Monitor) : sameFetched w w.
Proof. reflexivity. Qed.

Lemma sameFetched_trans (w1 w2 w3 : Monitor) :
  sameFetched w1 w2 -> sameFetched w2 w3 -> sameFetched w1 w3.
Proof. unfold sameFetched. congruence. Qed.

Section SameFetched.
Variable env : Env.

Local Abbreviation offline := (preserves sameFetched).

Lemma offline_bind {A B : Type} (m : Comp Monitor A) (k : A -> Comp Monitor B) :
  offline m -> (forall a, offline (k a)) -> offline (bind m k).
Proof. apply preserves_bind, sameFetched_trans. Qed.

Lemma offline_ret {A : Type} (a : A) : offline (ret a).
Proof. apply preserves_ret, sameFetched_refl. Qed.

Lemma newDate_offline : offline (newDate env).
Proof. intros w r w' H; inversion H; subst. reflexivity. Qed.

Lemma emit_offline (n : Notification) : offline (emit n).
Proof.
  intros w r w'. unfold emit.
  destruct n; try (intros H; inversion H; subst; reflexivity).
  destruct (Nat.eqb (errorListeners w) O); intros H; inversion H; subst;
    reflexivity.
Qed.

Lemma storeCall_offline (k : string) (c : CallData.t) : offline (storeCall k c).
Proof. intros w r w' H; inversion H; subst. reflexivity. Qed.

Lemma setTimer_offline (t : Timer) : offline (setTimer t).
Proof. intros w r w' H; inversion H; subst. reflexivity. Qed.

Lemma reportError_offline (e : JsError) : offline (reportError e).
Proof.
  unfold reportError. apply offline_bind; [|intros _; apply emit_offline].
  intros w r w' H; inversion H; subst. reflexivity.
Qed.

Lemma processEvents_offline (k : string) (events : list Event.t) :
  forall callData, offline (processEvents env k events callData).
Proof.
  induction events as [|event rest IH]; intros callData; cbn [processEvents].
  - apply offline_ret.
  - destruct (alreadyProcessed event callData); [apply IH|].
    destruct (bind (applyEventType event) (fun _ => pushEvent event) callData)
      as [[[]|e] callData1].
    + apply offline_bind; [apply newDate_offline|]. intros now.
      apply offline_bind; [apply storeCall_offline|]. intros _.
      apply offline_bind; [apply emit_offline|]. intros _. apply IH.
    + apply offline_bind; [apply storeCall_offline|]. intros _.
      apply preserves_throw, sameFetched_refl.
Qed.

Lemma processCallEvents_offline (k : string) (events : list Event.t) :
  offline (_processCallEvents env k events).
Proof.
  unfold _processCallEvents.
  apply offline_bind; [apply preserves_gets, sameFetched_refl|].
  intros [callData|]; [|apply offline_ret].
  apply offline_bind; [apply processEvents_offline|].
  intros c. apply emit_offline.
Qed.

Lemma applySnapshot_offline (k : string) (callData : CallData.t)
    (call : Snapshot.t) :
  offline (applySnapshot env k callData call).
Proof.
  unfold applySnapshot. apply offline_bind.
  { destruct (negb (String.eqb (Snapshot.status call) (CallData.status callData)));
      [|apply offline_ret].
    apply offline_bind; [apply storeCall_offline|]. intros _.
    apply offline_bind; [apply newDate_offline|]. intros now.
    apply offline_bind; [apply emit_offline|]. intros _. apply offline_ret. }
  intros callData1. apply offline_bind.
  { destruct (Snapshot.events call) as [[|event events]|];
      [apply offline_ret|apply processCallEvents_offline|apply offline_ret]. }
  intros _. apply offline_bind; [apply preserves_gets, sameFetched_refl|].
  intros current.
  match goal with |- offline (if ?b then _ else _) => destruct b end;
    [|apply offline_ret].
  apply offline_bind; [apply setTimer_offline|]. intros _. apply offline_ret.
Qed.

(** Each attempt of the fetch is one call of [vapi.calls.get] for the
    call. *)
Lemma retry_fetch_count (callId : string) (random : nat -> Q) (fuel : nat) :
  forall retries lastError w,
    fetched (snd (fst (retry_loop (fetchCall env callId) 3 defaultInitialDelay
                         shouldRetryFetch random fuel retries lastError w)))
    = fetched w
      ++ repeat callId
           (attempts (snd (retry_loop (fetchCall env callId) 3
                             defaultInitialDelay shouldRetryFetch random fuel
                             retries lastError w))).
Proof.
  induction fuel as [|fuel IH]; intros retries lastError w; cbn [retry_loop].
  - destruct (retries <? 3); cbn; rewrite app_nil_r; reflexivity.
  - destruct (retries <? 3); [|cbn; rewrite app_nil_r; reflexivity].
    change (fetchCall env callId w)
      with (callsGet env callId (length (fetched w)),
            setFetched (fetched w ++ [callId]) w).
    cbv beta iota.
    destruct (callsGet env callId (length (fetched w))) as [call|e];
      [reflexivity|].
    destruct (negb (shouldRetryFetch e) || (retries =? 3 - 1)); [reflexivity|].
    specialize (IH (retries + 1) (Some e)
                  (setFetched (fetched w ++ [callId]) w)).
    destruct (retry_loop (fetchCall env callId) 3 defaultInitialDelay
                shouldRetryFetch random fuel (retries + 1) (Some e)
                (setFetched (fetched w ++ [callId]) w))
      as [[r2 w2] steps2].
    cbn [fst snd attempts repeat] in *. rewrite IH.
    cbn [fetched setFetched]. rewrite <- app_assoc. reflexivity.
Qed.

Lemma retryTrace_attempts (shouldRetry : JsError -> bool)
    (steps : list RetryStep) (o : option JsError) :
  retryTrace shouldRetry steps o -> (1 <= attempts steps)%nat.
Proof. intros H. destruct H; cbn [attempts]; lia. Qed.

Lemma monitorCall_fetch_bound (callId : string) (w : Monitor) :
  exists n,
    (n <= 3)%nat
    /\ fetched (snd (monitorCall env callId w))
       = fetched w ++ repeat callId n
    /\ (n = O
        <-> match getCall callId w with
            | Some callData => CallData.status callData = statusCompleted
            | None => True
            end).
Proof.
  unfold monitorCall, bind at 1, gets.
  destruct (getCall callId w) as [callData|].
  2:{ exists O. split; [lia|]. split; [|tauto].
      cbn. rewrite app_nil_r. reflexivity. }
  destruct (String.eqb (CallData.status callData) statusCompleted) eqn:Hst.
  { apply String.eqb_eq in Hst. exists O. split; [lia|]. split; [|tauto].
    cbn. rewrite app_nil_r. reflexivity. }
  apply String.eqb_neq in Hst.
  unfold tryCatch, pollCall, bind, retryFetch, retry.
  pose proof (retry_fetch_count callId
                (fun k => mathRandom env (randomDraws w + k)%nat)
                (Z.to_nat 3) 0 None w) as Hcount.
  pose proof (retry_loop_attempts (fetchCall env callId) 3 defaultInitialDelay
                shouldRetryFetch
                (fun k => mathRandom env (randomDraws w + k)%nat)
                (Z.to_nat 3) 0 None w) as Hbound.
  destruct (retry_loop_trace (fetchCall env callId) 3 defaultInitialDelay
              shouldRetryFetch
              (fun k => mathRandom env (randomDraws w + k)%nat)
              (Z.to_nat 3) 0 None w) as [o [Htrace _]]; [lia|lia|].
  apply retryTrace_attempts in Htrace.
  destruct (retry_loop (fetchCall env callId) 3 defaultInitialDelay
              shouldRetryFetch _ (Z.to_nat 3) 0 None w)
    as [[r1 w1] steps] eqn:Hloop.
  specialize (Hbound _ _ _ eq_refl). cbn [fst snd] in Hcount, Htrace.
  exists (attempts steps). split; [exact Hbound|].
  split; [|split; [intros H; lia|intros H; contradiction]].
  destruct r1 as [call|e].
  - match goal with
    | |- context [applySnapshot env callId callData call ?s] =>
        destruct (applySnapshot env callId callData call s)
          as [[[]|e] w2] eqn:Happly
    end;
      apply applySnapshot_offline in Happly; unfold sameFetched in Happly;
      cbn [fetched setSlept setRandomDraws] in Happly.
    + cbn [snd]. rewrite Happly. exact Hcount.
    + destruct (reportError e w2) as [r3 w3] eqn:Hrep.
      apply reportError_offline in Hrep. unfold sameFetched in Hrep.
      cbn [snd]. rewrite Hrep, Happly. exact Hcount.
  - match goal with
    | |- context [reportError e ?s] =>
        destruct (reportError e s) as [r3 w3] eqn:Hrep
    end.
    apply reportError_offline in Hrep. unfold sameFetched in Hrep.
    cbn [fetched setSlept setRandomDraws] in Hrep.
    cbn [snd]. rewrite Hrep. exact Hcount.
Qed.

End SameFetched.

(** X24.  A visit of a call by the sweep (one turn of the loop of
    [_monitorCalls]) calls [vapi.calls.get] at most three times, each time
    for the call it visits, and not at all exactly when the call is
    completed or no longer in the map; ingestion never calls it. *)
Theorem sweep_visit_fetches_bounded (env : Env) (w : Monitor) :
  (forall callId,
      exists n,
        (n <= 3)%nat
        /\ fetched (snd (monitorCall env callId w))
           = fetched w ++ repeat callId n
        /\ (n = O
            <-> match getCall callId w with
                | Some callData => CallData.status callData = statusCompleted
                | None => True
                end))
  /\ (forall callId events,
        fetched (snd (_processCallEvents env callId events w)) = fetched w).
Proof.
  split.
  - intros callId. apply monitorCall_fetch_bound.
  - intros callId events.
    destruct (_processCallEvents env callId events w) as [r w'] eqn:Hrun.
    apply processCallEvents_offline in Hrun. exact Hrun.
Qed.

(* ------------------------------------------------------------------ *)
(** ** Sweeps that have nothing to do *)

Lemma getCall_In_keys (k : string) (c : CallData.t) (w : Monitor) :
  getCall k w = Some c -> In k (CallMap.keys (activeCalls w)).
Proof. apply CallMap_get_In_keys. Qed.

Lemma forEachCall_all_completed (env : Env) (callIds : list string)
    (w : Monitor) :
  (forall k c, getCall k w = Some c -> CallData.status c = statusCompleted) ->
  forEachCall env callIds w = (Return tt, w).
Proof.
  intros Hall. induction callIds as [|callId rest IH]; cbn [forEachCall];
    [reflexivity|].
  unfold bind.
  assert (Hone : monitorCall env callId w = (Return tt, w)).
  { destruct (getCall callId w) as [c|] eqn:Hget.
    - apply (monitorCall_completed env callId c w Hget). eapply Hall. exact Hget.
    - unfold monitorCall, bind, gets. rewrite Hget. reflexivity. }
  rewrite Hone. exact IH.
Qed.

(** X25.  A sweep of a monitor whose tracked calls are all completed does
    nothing at all: no fetch, no notification, no timer, no change of any
    record.  A completed call is never polled again. *)
Theorem sweep_skips_completed_calls (env : Env) (w : Monitor) :
  (forall k c, getCall k w = Some c -> CallData.status c = statusCompleted) ->
  _monitorCalls env w = (Return tt, w).
Proof.
  intros Hall. unfold _monitorCalls, bind at 1, gets.
  destruct (monitoringEnabled w); cbn [negb]; [|reflexivity].
  unfold tryCatch, bind, gets.
  rewrite forEachCall_all_completed by exact Hall. reflexivity.
Qed.

Lemma sweep_skips_completed_calls_witness :
  (forall k c,
      getCall k Scenario.sweptCompleted = Some c ->
      CallData.status c = statusCompleted)
  /\ _monitorCalls Scenario.envCompleted Scenario.sweptCompleted
     = (Return tt, Scenario.sweptCompleted).
Proof.
  assert (Hall : forall k c,
             getCall k Scenario.sweptCompleted = Some c ->
             CallData.status c = statusCompleted).
  { intros k c. destruct (String.eqb k "c1") eqn:Hk.
    - apply String.eqb_eq in Hk. subst k.
      assert (Hget : option_map CallData.status
                       (getCall "c1" Scenario.sweptCompleted)
                     = Some statusCompleted) by (vm_compute; reflexivity).
      intros H. rewrite H in Hget. inversion Hget. reflexivity.
    - apply String.eqb_neq in Hk. intros H. exfalso.
      assert (Hkeys : CallMap.keys (activeCalls Scenario.sweptCompleted)
                      = ["c1"]) by (vm_compute; reflexivity).
      pose proof (getCall_In_keys k c Scenario.sweptCompleted H) as Hin.
      rewrite Hkeys in Hin. destruct Hin as [Hin|[]]. congruence. }
  split; [exact Hall|].
  exact (sweep_skips_completed_calls Scenario.envCompleted
           Scenario.sweptCompleted Hall).
Defined.

(** X26.  Once [stopMonitoring] has run, a sweep that was already due does
    nothing: on any monitor reached by calls on a new monitor, a sweep
    right after [stopMonitoring] returns and leaves the monitor as
    [stopMonitoring] left it. *)
Theorem sweep_after_stop_is_noop (env : Env) (interval : option Z)
    (ops : list Op) :
  _monitorCalls env
    (snd (stopMonitoring (performAll env ops (newCallMonitor interval))))
  = (Return tt,
     snd (stopMonitoring (performAll env ops (newCallMonitor interval)))).
Proof.
  pose proof (scheduler_consistent_all env interval (ops ++ [OpStopMonitoring]))
    as Hc.
  unfold performAll in Hc. rewrite fold_left_app in Hc.
  cbn [fold_left perform] in Hc. fold (performAll env ops (newCallMonitor interval)) in Hc.
  set (w := snd (stopMonitoring (performAll env ops (newCallMonitor interval))))
    in *.
  assert (Hid : monitoringIntervalId w = None).
  { unfold w, stopMonitoring, bind at 1, gets.
    destruct (monitoringIntervalId (performAll env ops (newCallMonitor interval)))
      eqn:Hid; [reflexivity|exact Hid]. }
  unfold _monitorCalls, bind at 1, gets.
  rewrite (sched_enabled _ Hc), Hid. reflexivity.
Qed.
